(** * Feishu channel plugin: event deduplication, command engine, broadcast
      fan-out and connection registry.

    A shallow embedding of
      - [extensions/feishu/src/monitor.ts]  (dedup cache, allow-list, WebSocket
        client registry),
      - [commands.ts]                      (command parser and executor),
      - [extensions/feishu/src/api.ts]      (outbound API wrappers, broadcast),
      - [extensions/feishu/src/accounts.ts] (account resolution),
      - [extensions/feishu/src/channel.ts]  (gateway, status and outbound
        adapters),
    together with the properties the specification states about them, and
    further properties of the same code. *)

From Stdlib Require Import ZArith NArith Ascii String DecimalString List Bool Lia.
From stdpp Require Import base decidable option list gmap.

Local Open Scope Z_scope.

(** ** JavaScript strings

    A JavaScript string is a sequence of UTF-16 code units: [length],
    [startsWith], [slice] and [trim] all count and compare code units. *)

Abbreviation jsstring := (list N) (only parsing).

Module JS.

(** The source files are UTF-8; [lit] turns the bytes of a literal into the
    code units the JavaScript engine holds for it (one unit for a code point
    of the basic plane, a surrogate pair above it). *)
Fixpoint lit (s : string) : jsstring :=
  match s with
  | EmptyString => []
  | String a r =>
    let b0 := N_of_ascii a in
    if (b0 <? 128)%N then b0 :: lit r
    else if (b0 <? 224)%N then
      match r with
      | String a1 r1 =>
        ((b0 - 192) * 64 + (N_of_ascii a1 - 128))%N :: lit r1
      | _ => []
      end
    else if (b0 <? 240)%N then
      match r with
      | String a1 (String a2 r2) =>
        ((b0 - 224) * 4096 + (N_of_ascii a1 - 128) * 64
         + (N_of_ascii a2 - 128))%N :: lit r2
      | _ => []
      end
    else
      match r with
      | String a1 (String a2 (String a3 r3)) =>
        let cp := ((b0 - 240) * 262144 + (N_of_ascii a1 - 128) * 4096
                   + (N_of_ascii a2 - 128) * 64 + (N_of_ascii a3 - 128))%N in
        let v := (cp - 65536)%N in
        (55296 + v / 1024)%N :: (56320 + v mod 1024)%N :: lit r3
      | _ => []
      end
  end.

Arguments lit : simpl never.

(** WhiteSpace and LineTerminator code units, as [String.prototype.trim]
    strips them. *)
Definition isWhiteSpace (c : N) : bool :=
  ((c =? 9) || (c =? 10) || (c =? 11) || (c =? 12) || (c =? 13) || (c =? 32)
   || (c =? 160) || (c =? 5760) || ((8192 <=? c) && (c <=? 8202))
   || (c =? 8232) || (c =? 8233) || (c =? 8239) || (c =? 8287)
   || (c =? 12288) || (c =? 65279))%N.

Fixpoint trimStart (s : jsstring) : jsstring :=
  match s with
  | c :: r => if isWhiteSpace c then trimStart r else s
  | [] => []
  end.

Definition trimEnd (s : jsstring) : jsstring := rev (trimStart (rev s)).

Definition trim (s : jsstring) : jsstring := trimEnd (trimStart s).

(** [s.startsWith(p)] *)
Fixpoint startsWith (s p : jsstring) : bool :=
  match p, s with
  | [], _ => true
  | a :: p', b :: s' => (a =? b)%N && startsWith s' p'
  | _ :: _, [] => false
  end.

(** [s.slice(n)] for [0 <= n]. *)
Definition slice (s : jsstring) (n : nat) : jsstring := drop n s.

(** [s.includes(p)] *)
Fixpoint includes (s p : jsstring) : bool :=
  startsWith s p ||
  match s with
  | [] => false
  | _ :: r => includes r p
  end.

(** Truthiness of a string value: only the empty string is falsy. *)
Definition truthy (s : jsstring) : bool :=
  match s with [] => false | _ => true end.

(** Truthiness of [string | undefined]. *)
Definition truthy_opt (o : option jsstring) : bool :=
  match o with Some s => truthy s | None => false end.

(** Decimal rendering of an integer, as a template literal prints it. *)
Definition digits_of_pos (z : Z) : jsstring :=
  lit (NilEmpty.string_of_uint (N.to_uint (Z.to_N z))).

Definition number_to_string (z : Z) : jsstring :=
  if z <? 0 then 45%N :: digits_of_pos (- z)
  else if z =? 0 then [48%N]
  else digits_of_pos z.

End JS.

Notation "'js' s" := (JS.lit s%string) (at level 9, s at level 0, only parsing).

(** ** Dedup cache  ([monitor.ts], [processedEventIds]) *)

Module Dedup.

(** [const EVENT_DEDUP_TTL = 60_000] *)
Definition EVENT_DEDUP_TTL : Z := 60000.

(** [processedEventIds : Map<string, number>].  Only membership and the
    stored timestamps are observed, never the iteration order. *)
Abbreviation cache := (gmap (list N) Z) (only parsing).

(** [cleanupExpiredEventIds()], with the reading of [Date.now()] it makes
    passed in as [now].  Deleting the current entry of a [Map] while
    iterating over it is well defined: every entry is visited once. *)
Definition cleanupExpiredEventIds (now : Z) (m : cache) : cache :=
  filter (λ kv : list N * Z, ¬ (EVENT_DEDUP_TTL < now - kv.2)) m.

(** [isEventProcessed(eventId)].  The function reads the clock twice on the
    path that records a new identifier: [t_set] is the reading stored with
    the entry, [t_sweep] the one [cleanupExpiredEventIds] takes. *)
Definition isEventProcessed (t_set t_sweep : Z) (eventId : option jsstring)
    (m : cache) : bool * cache :=
  if negb (JS.truthy_opt eventId) then (false, m)
  else
    match eventId with
    | None => (false, m)
    | Some e =>
      if decide (is_Some (m !! e)) then (true, m)
      else (false, cleanupExpiredEventIds t_sweep (<[e := t_set]> m))
    end.

(** [clearProcessedEventIds()] *)
Definition clearProcessedEventIds (m : cache) : cache := ∅.

(** One call, with the clock readings available to it. *)
Record call := Call {
  call_id : option jsstring;
  call_set : Z;
  call_sweep : Z
}.

Definition do_call (c : call) (m : cache) : bool * cache :=
  isEventProcessed (call_set c) (call_sweep c) (call_id c) m.

(** A sequence of calls against the shared cache; the answers are collected
    in call order. *)
Fixpoint run_calls (cs : list call) (m : cache) : list bool * cache :=
  match cs with
  | [] => ([], m)
  | c :: cs' =>
    let '(r, m1) := do_call c m in
    let '(rs, m2) := run_calls cs' m1 in
    (r :: rs, m2)
  end.

End Dedup.

(** ** Sender allow-list  ([monitor.ts], [isSenderAllowed]) *)

Module AllowList.

(** Case folding of the regular expression engine for the [/i] flag without
    [/u], restricted to what an ASCII pattern character can meet: a letter
    a-z folds to A-Z, and a code unit outside ASCII never folds into ASCII. *)
Definition canonicalize (c : N) : N :=
  if ((97 <=? c) && (c <=? 122))%N then (c - 32)%N else c.

(** Match the literal [pat] at the head of [s], ignoring case; the result is
    the input left after the match. *)
Fixpoint match_literal_i (pat s : jsstring) : option jsstring :=
  match pat, s with
  | [], _ => Some s
  | p :: pat', c :: s' =>
    if (canonicalize p =? canonicalize c)%N then match_literal_i pat' s'
    else None
  | _ :: _, [] => None
  end.

(** The alternatives of [/^(feishu|user|ou_):/i], in the order the engine
    tries them; each one is followed by the colon. *)
Definition prefix_alternatives : list jsstring :=
  [js "feishu"; js "user"; js "ou_"].

Fixpoint match_alternatives (alts : list jsstring) (s : jsstring)
    : option jsstring :=
  match alts with
  | [] => None
  | alt :: rest =>
    match match_literal_i (alt ++ js ":") s with
    | Some r => Some r
    | None => match_alternatives rest s
    end
  end.

(** [s.replace(/^(feishu|user|ou_):/i, "")]: the pattern is anchored and not
    global, so at most the one match at position 0 is removed. *)
Definition replace_id_prefix (s : jsstring) : jsstring :=
  match match_alternatives prefix_alternatives s with
  | Some r => r
  | None => s
  end.

Section WithCaseMapping.

(** [String.prototype.toLowerCase], the Unicode case mapping of the engine. *)
Variable toLowerCase : jsstring → jsstring.

Definition normalizeId (s : jsstring) : jsstring :=
  replace_id_prefix (toLowerCase s).

(** [isSenderAllowed(senderId, allowFrom)] *)
Definition isSenderAllowed (senderId : jsstring)
    (allowFrom : option (list jsstring)) : bool :=
  match allowFrom with
  | None => true
  | Some l =>
    if (length l =? 0)%nat then true
    else
      let normalizedSenderId := normalizeId senderId in
      existsb (λ entry,
                 let normalizedEntry := normalizeId entry in
                 bool_decide (normalizedEntry = normalizedSenderId)) l
  end.

End WithCaseMapping.

(** The case mapping on strings whose only cased characters are ASCII
    letters (identifiers such as [ou_ABC123]). *)
Definition ascii_toLowerCase (s : jsstring) : jsstring :=
  map (λ c, if ((65 <=? c) && (c <=? 90))%N then (c + 32)%N else c) s.

End AllowList.

(** ** Outbound API wrappers  ([api.ts]) *)

Module Api.

(** [type ResolvedFeishuAccount], the fields the wrappers read. *)
Record Account := {
  accountId : jsstring;
  appId : option jsstring;
  appSecret : option jsstring
}.

(** A thrown value, as the [catch] blocks observe it. *)
Record Thrown := {
  thrown_is_error : bool;                     (* err instanceof Error *)
  thrown_is_object : bool;                    (* err && typeof err === "object" *)
  thrown_message : option jsstring;           (* err.message *)
  thrown_response_msg : option jsstring;      (* err.response?.data?.msg *)
  thrown_response_code : option Z;            (* err.response?.data?.code *)
  thrown_response_status : option Z;          (* err.response?.status *)
  thrown_string : jsstring                    (* String(err) *)
}.

(** [new Error(message)] *)
Definition new_Error (message : jsstring) : Thrown :=
  {| thrown_is_error := true; thrown_is_object := true;
     thrown_message := Some message;
     thrown_response_msg := None; thrown_response_code := None;
     thrown_response_status := None;
     thrown_string :=
       match message with
       | [] => js "Error"
       | _ => js "Error: " ++ message
       end |}.

(** What the SDK answers; every field is optional, as in the casts. *)
Record Item := {
  member_id : option jsstring;
  item_name : option jsstring;
  manager_id : option jsstring;
  block_id : option jsstring;
  block_type : option Z
}.

Record ResponseData := {
  owner_id : option jsstring;
  data_name : option jsstring;
  items : option (list Item);
  member_list : option (list Item);
  page_token : option jsstring;
  has_more : option bool;
  invalid_id_list : option (list jsstring);
  not_existed_id_list : option (list jsstring);
  revision : option jsstring;
  content : option jsstring;
  message_id : option jsstring
}.

Record Response := {
  code : option Z;
  msg : option jsstring;
  data : option ResponseData
}.

Inductive Outcome :=
  | Resolved (r : Response)
  | Rejected (e : Thrown).

(** Requests handed to the SDK client.  A URL is kept as its path and the
    name/value pairs of its query string. *)
Inductive HttpMethod := GET | POST | DELETE | PATCH.

Record Url := { path : jsstring; query : list (jsstring * jsstring) }.

Inductive Payload :=
  | NoPayload
  | IdList (id_list : list jsstring)
  | AnnouncementPatch (rev content : jsstring)
  | BlockChildren (content : jsstring) (index : Z).

Inductive Request :=
  | ClientRequest (method : HttpMethod) (url : Url) (payload : Payload)
      (* client.request({ method, url, data }) *)
  | MessageCreate (receive_id_type receive_id msg_type text : jsstring).
      (* client.im.message.create(...), content = JSON.stringify({ text }) *)

(** A request changes the group when its method is not [GET]. *)
Definition is_mutation (r : Request) : bool :=
  match r with
  | ClientRequest GET _ _ => false
  | ClientRequest _ _ _ => true
  | MessageCreate _ _ _ _ => false
  end.

(** The state the wrappers share: [clientCache] (its keys) and the requests
    issued so far, oldest first. *)
Record World := {
  clientCache : gset (list N);
  sent : list Request
}.

(** The remote side: what the [n]-th request of the run is answered with. *)
Abbreviation Transport := (nat → Request → Outcome) (only parsing).

(** Result of running an [async] function: a value, a thrown value, or not
    settled within the steps allowed. *)
Inductive Res (A : Type) :=
  | Val (a : A)
  | Exn (e : Thrown)
  | Pending.
Arguments Val {A} a.
Arguments Exn {A} e.
Arguments Pending {A}.

Definition M (A : Type) : Type := World → Res A * World.

Definition ret {A} (a : A) : M A := λ w, (Val a, w).

Definition throw {A} (e : Thrown) : M A := λ w, (Exn e, w).

Definition pending {A} : M A := λ w, (Pending, w).

Definition bind {A B} (m : M A) (k : A → M B) : M B := λ w,
  match m w with
  | (Val a, w') => k a w'
  | (Exn e, w') => (Exn e, w')
  | (Pending, w') => (Pending, w')
  end.

(** [try { body } catch (err) { handler }] *)
Definition try_catch {A} (body : M A) (handler : Thrown → M A) : M A := λ w,
  match body w with
  | (Exn e, w') => handler e w'
  | r => r
  end.

Notation "'let*' x ':=' m 'in' k" := (bind m (λ x, k))
  (at level 10, x name, m at level 100, k at level 200).

(** [`${x}`] for an optional string and an optional number. *)
Definition show_str (o : option jsstring) : jsstring :=
  default (js "undefined") o.

Definition show_num (o : option Z) : jsstring :=
  match o with
  | Some z => JS.number_to_string z
  | None => js "undefined"
  end.

(** [response.code !== 0] is false only for the number 0. *)
Definition code_is_zero (r : Response) : bool :=
  bool_decide (code r = Some 0).

(** [response.msg ?? `Feishu API error: ${response.code}`] *)
Definition api_error_text (r : Response) : jsstring :=
  default (js "Feishu API error: " ++ show_num (code r)) (msg r).

(** [err instanceof Error ? err.message : String(err)] *)
Definition catch_text (e : Thrown) : option jsstring :=
  if thrown_is_error e then thrown_message e else Some (thrown_string e).

(** [extractFeishuError(err)] *)
Definition extractFeishuError (e : Thrown) : jsstring :=
  if thrown_is_object e then
    if JS.truthy_opt (thrown_response_msg e) then
      show_str (thrown_response_msg e) ++ js " (code: "
        ++ show_num (thrown_response_code e) ++ js ")"
    else if bool_decide (thrown_response_status e ≠ None
                         ∧ thrown_response_status e ≠ Some 0) then
      js "HTTP " ++ show_num (thrown_response_status e) ++ js ": "
        ++ show_str (thrown_message e)
    else if JS.truthy_opt (thrown_message e) then
      show_str (thrown_message e)
    else thrown_string e
  else thrown_string e.

(** [getFeishuClient(account)]: the cached client, or a new one when the
    credentials are there. *)
Definition getFeishuClient (account : Account) : M unit := λ w,
  let cacheKey := show_str (appId account) in
  if decide (cacheKey ∈ clientCache w) then (Val tt, w)
  else if negb (JS.truthy_opt (appId account))
          || negb (JS.truthy_opt (appSecret account)) then
    (Exn (new_Error (js "Feishu appId and appSecret are required")), w)
  else
    (Val tt, {| clientCache := {[cacheKey]} ∪ clientCache w;
                sent := sent w |}).

Section WithTransport.

Variable net : Transport.

(** [await client.request(...)] and [await client.im.message.create(...)]:
    the request is recorded, then answered by the remote side. *)
Definition request (r : Request) : M Response := λ w,
  let w' := {| clientCache := clientCache w; sent := sent w ++ [r] |} in
  match net (length (sent w)) r with
  | Resolved resp => (Val resp, w')
  | Rejected e => (Exn e, w')
  end.

(** Results of the wrappers. *)
Record SendResult := {
  send_messageId : option jsstring;
  send_success : bool;
  send_error : option jsstring
}.

Record GroupInfo := {
  gi_ownerId : option jsstring;
  gi_name : option jsstring;
  gi_error : option jsstring
}.

Record AdminCheck := {
  isAdmin : bool;
  isOwner : bool;
  ac_error : option jsstring
}.

Record MemberOpResult := {
  mo_success : bool;
  mo_invalidIds : option (list jsstring);
  mo_error : option jsstring
}.

Record GroupMember := {
  memberId : jsstring;
  gm_name : option jsstring
}.

Record MembersResult := {
  members : list GroupMember;
  mr_error : option jsstring
}.

Record AnnouncementInfo := {
  an_revision : option jsstring;
  an_content : option jsstring;
  an_isDocxType : bool;
  an_error : option jsstring
}.

Record UpdateResult := {
  up_success : bool;
  up_error : option jsstring
}.

(** [sendFeishuMessage({ account, chatId, text, receiveIdType })] *)
Definition sendFeishuMessage (account : Account)
    (chatId text receiveIdType : jsstring) : M SendResult :=
  try_catch
    (let* _ := getFeishuClient account in
     let* data := request (MessageCreate receiveIdType chatId (js "text") text) in
     if negb (code_is_zero data) then
       ret {| send_messageId := None; send_success := false;
              send_error := Some (api_error_text data) |}
     else
       ret {| send_messageId :=
                match Api.data data with
                | Some d => message_id d
                | None => None
                end;
              send_success := true; send_error := None |})
    (λ err,
       ret {| send_messageId := None; send_success := false;
              send_error := catch_text err |}).

(** [Promise.allSettled]: how one promise of the array ended.  [Unsettled]
    stands for a promise still pending; [sendFeishuMessage] has none. *)
Inductive Settled (A : Type) :=
  | Fulfilled (value : A)
  | RejectedWith (reason : Thrown)
  | Unsettled.
Arguments Fulfilled {A} value.
Arguments RejectedWith {A} reason.
Arguments Unsettled {A}.

Definition settle {A} (m : M A) : M (Settled A) := λ w,
  match m w with
  | (Val a, w') => (Val (Fulfilled a), w')
  | (Exn e, w') => (Val (RejectedWith e), w')
  | (Pending, w') => (Val Unsettled, w')
  end.

(** [groupIds.map((chatId) => sendFeishuMessage(...))].  Each call runs up
    to its first [await] when it is made, so the requests go out in the
    order of [groupIds]; each promise then settles from its own answer
    alone, whatever the order in which the answers arrive. *)
Fixpoint send_each (account : Account) (groupIds : list jsstring)
    (text : jsstring) : M (list (Settled SendResult)) :=
  match groupIds with
  | [] => ret []
  | chatId :: rest =>
    let* r := settle (sendFeishuMessage account chatId text (js "chat_id")) in
    let* rs := send_each account rest text in
    ret (r :: rs)
  end.

Record BroadcastResult := {
  successCount : nat;
  failedCount : nat;
  errors : list jsstring
}.

(** The counting loop of [broadcastToGroups]; [i] runs over the indices of
    [results] and [groupIds[i]] is read for each failure. *)
Fixpoint tally (groupIds : list jsstring)
    (results : list (Settled SendResult)) (i : nat) (acc : BroadcastResult)
    : BroadcastResult :=
  match results with
  | [] => acc
  | result :: rest =>
    let succeeded :=
      match result with
      | Fulfilled v => send_success v
      | _ => false
      end in
    if succeeded then
      tally groupIds rest (S i)
        {| successCount := S (successCount acc);
           failedCount := failedCount acc; errors := errors acc |}
    else
      let errorMsg :=
        match result with
        | RejectedWith reason => thrown_string reason
        | Fulfilled v => default (js "Unknown error") (send_error v)
        | Unsettled => js "Unknown error"
        end in
      tally groupIds rest (S i)
        {| successCount := successCount acc;
           failedCount := S (failedCount acc);
           errors := errors acc
                     ++ [show_str (groupIds !! i) ++ js ": " ++ errorMsg] |}
  end.

(** [broadcastToGroups({ account, groupIds, text })] *)
Definition broadcastToGroups (account : Account) (groupIds : list jsstring)
    (text : jsstring) : M BroadcastResult :=
  let* results := send_each account groupIds text in
  ret (tally groupIds results 0
         {| successCount := 0; failedCount := 0; errors := [] |}).

(** [`/open-apis/im/v1/chats/${chatId}...`] *)
Definition chat_path (chatId suffix : jsstring) : jsstring :=
  js "/open-apis/im/v1/chats/" ++ chatId ++ suffix.

(** The [for (const item of items)] loop of [getGroupMembers]. *)
Definition collect_members (its : list Item) : list GroupMember :=
  map (λ it, {| memberId := default [] (member_id it);
                gm_name := item_name it |})
      (List.filter (λ it, JS.truthy_opt (member_id it)) its).

(** [response.data?.items ?? response.data?.member_list ?? []] *)
Definition page_items (r : Response) : list Item :=
  match data r with
  | Some d =>
    match items d with
    | Some l => l
    | None => default [] (member_list d)
    end
  | None => []
  end.

(** [response.data?.has_more ? response.data.page_token : undefined] *)
Definition next_page_token (r : Response) : option jsstring :=
  match data r with
  | Some d =>
    match has_more d with
    | Some true => page_token d
    | _ => None
    end
  | None => None
  end.

(** The [do ... while (pageToken)] loop of [getGroupMembers].  [fuel]
    bounds the number of pages fetched; the loop itself has no bound. *)
Fixpoint members_pages (fuel : nat) (chatId : jsstring)
    (acc : list GroupMember) (pageToken : option jsstring)
    : M MembersResult :=
  match fuel with
  | O => pending
  | S fuel' =>
    let urlParams :=
      [(js "member_id_type", js "open_id"); (js "page_size", js "100")]
      ++ (if JS.truthy_opt pageToken
          then [(js "page_token", show_str pageToken)] else []) in
    let* response :=
      request (ClientRequest GET
                 {| path := chat_path chatId (js "/members");
                    query := urlParams |} NoPayload) in
    if negb (code_is_zero response) then
      ret {| members := []; mr_error := Some (api_error_text response) |}
    else
      let acc' := acc ++ collect_members (page_items response) in
      let pageToken' := next_page_token response in
      if JS.truthy_opt pageToken' then
        members_pages fuel' chatId acc' pageToken'
      else ret {| members := acc'; mr_error := None |}
  end.

(** [getGroupMembers({ account, chatId })] *)
Definition getGroupMembers (fuel : nat) (account : Account)
    (chatId : jsstring) : M MembersResult :=
  try_catch
    (let* _ := getFeishuClient account in
     members_pages fuel chatId [] None)
    (λ err, ret {| members := []; mr_error := catch_text err |}).

(** [getGroupInfo({ account, chatId })] *)
Definition getGroupInfo (account : Account) (chatId : jsstring)
    : M GroupInfo :=
  try_catch
    (let* _ := getFeishuClient account in
     let* response :=
       request (ClientRequest GET
                  {| path := chat_path chatId [];
                     query := [(js "user_id_type", js "open_id")] |}
                  NoPayload) in
     if negb (code_is_zero response) then
       ret {| gi_ownerId := None; gi_name := None;
              gi_error := Some (api_error_text response) |}
     else
       ret {| gi_ownerId := match data response with
                            | Some d => owner_id d | None => None end;
              gi_name := match data response with
                         | Some d => data_name d | None => None end;
              gi_error := None |})
    (λ err, ret {| gi_ownerId := None; gi_name := None;
                   gi_error := catch_text err |}).

(** [response.data?.items ?? []] *)
Definition response_items (r : Response) : list Item :=
  match data r with
  | Some d => default [] (items d)
  | None => []
  end.

(** [isUserGroupAdmin({ account, chatId, userId })] *)
Definition isUserGroupAdmin (account : Account) (chatId userId : jsstring)
    : M AdminCheck :=
  try_catch
    (let* groupInfo := getGroupInfo account chatId in
     if JS.truthy_opt (gi_error groupInfo) then
       ret {| isAdmin := false; isOwner := false;
              ac_error := gi_error groupInfo |}
     else
       let isOwner := bool_decide (gi_ownerId groupInfo = Some userId) in
       if isOwner then
         ret {| isAdmin := true; isOwner := true; ac_error := None |}
       else
         let* _ := getFeishuClient account in
         let* response :=
           request (ClientRequest GET
                      {| path := chat_path chatId (js "/managers");
                         query := [(js "user_id_type", js "open_id")] |}
                      NoPayload) in
         if negb (code_is_zero response) then
           ret {| isAdmin := false; isOwner := false;
                  ac_error := msg response |}
         else
           let managers := response_items response in
           let isAdmin :=
             existsb (λ m, bool_decide (manager_id m = Some userId))
                     managers in
           ret {| isAdmin := isAdmin; isOwner := false; ac_error := None |})
    (λ err, ret {| isAdmin := false; isOwner := false;
                   ac_error := catch_text err |}).

(** [addMembersToGroup({ account, chatId, memberIds })] *)
Definition addMembersToGroup (account : Account) (chatId : jsstring)
    (memberIds : list jsstring) : M MemberOpResult :=
  if (length memberIds =? 0)%nat then
    ret {| mo_success := false; mo_invalidIds := None;
           mo_error := Some (js "没有指定要添加的用户") |}
  else
    try_catch
      (let* _ := getFeishuClient account in
       let* response :=
         request (ClientRequest POST
                    {| path := chat_path chatId (js "/members");
                       query := [(js "member_id_type", js "open_id")] |}
                    (IdList memberIds)) in
       if negb (code_is_zero response) then
         ret {| mo_success := false; mo_invalidIds := None;
                mo_error := Some (api_error_text response) |}
       else
         let invalidIds :=
           match data response with
           | Some d => default [] (invalid_id_list d)
                       ++ default [] (not_existed_id_list d)
           | None => []
           end in
         ret {| mo_success := true;
                mo_invalidIds :=
                  if (0 <? length invalidIds)%nat
                  then Some invalidIds else None;
                mo_error := None |})
      (λ err, ret {| mo_success := false; mo_invalidIds := None;
                     mo_error := catch_text err |}).

(** [removeMembersFromGroup({ account, chatId, memberIds })] *)
Definition removeMembersFromGroup (account : Account) (chatId : jsstring)
    (memberIds : list jsstring) : M MemberOpResult :=
  if (length memberIds =? 0)%nat then
    ret {| mo_success := false; mo_invalidIds := None;
           mo_error := Some (js "没有指定要移除的用户") |}
  else
    try_catch
      (let* _ := getFeishuClient account in
       let* response :=
         request (ClientRequest DELETE
                    {| path := chat_path chatId (js "/members");
                       query := [(js "member_id_type", js "open_id")] |}
                    (IdList memberIds)) in
       if negb (code_is_zero response) then
         ret {| mo_success := false; mo_invalidIds := None;
                mo_error := Some (api_error_text response) |}
       else
         ret {| mo_success := true;
                mo_invalidIds :=
                  match data response with
                  | Some d => invalid_id_list d
                  | None => None
                  end;
                mo_error := None |})
      (λ err, ret {| mo_success := false; mo_invalidIds := None;
                     mo_error := catch_text err |}).

(** [getGroupAnnouncement({ account, chatId })] *)
Definition getGroupAnnouncement (account : Account) (chatId : jsstring)
    : M AnnouncementInfo :=
  try_catch
    (let* _ := getFeishuClient account in
     let* response :=
       request (ClientRequest GET
                  {| path := chat_path chatId (js "/announcement");
                     query := [(js "user_id_type", js "open_id")] |}
                  NoPayload) in
     if negb (code_is_zero response) then
       ret {| an_revision := None; an_content := None;
              an_isDocxType := false;
              an_error := Some (api_error_text response) |}
     else
       ret {| an_revision := match data response with
                             | Some d => revision d | None => None end;
              an_content := match data response with
                            | Some d => content d | None => None end;
              an_isDocxType := false; an_error := None |})
    (λ err,
       let errorMsg := extractFeishuError err in
       if JS.includes errorMsg (js "docx type")
          || JS.includes errorMsg (js "232097") then
         ret {| an_revision := None; an_content := None;
                an_isDocxType := true; an_error := Some errorMsg |}
       else
         ret {| an_revision := None; an_content := None;
                an_isDocxType := false; an_error := Some errorMsg |}).

(** [updateDocxAnnouncement({ account, chatId, content })].  The client is
    fetched before the [try] block is entered. *)
Definition updateDocxAnnouncement (account : Account)
    (chatId content : jsstring) : M UpdateResult :=
  let* _ := getFeishuClient account in
  try_catch
    (let* getBlocksResponse :=
       request (ClientRequest GET
                  {| path := js "/open-apis/docx/v1/chat_announcements/"
                             ++ chatId ++ js "/blocks";
                     query := [(js "page_size", js "50")] |} NoPayload) in
     if negb (code_is_zero getBlocksResponse) then
       ret {| up_success := false;
              up_error :=
                Some (default (js "获取公告失败: "
                               ++ show_num (code getBlocksResponse))
                              (msg getBlocksResponse)) |}
     else
       let existingBlocks := response_items getBlocksResponse in
       let pageBlock :=
         List.find (λ b, bool_decide (block_type b = Some 1))
                   existingBlocks in
       match pageBlock with
       | Some b =>
         if JS.truthy_opt (block_id b) then
           let* createResponse :=
             request (ClientRequest POST
                        {| path := js "/open-apis/docx/v1/chat_announcements/"
                                   ++ chatId ++ js "/blocks/"
                                   ++ show_str (block_id b)
                                   ++ js "/children";
                           query := [] |}
                        (BlockChildren content 0)) in
           if negb (code_is_zero createResponse) then
             ret {| up_success := false;
                    up_error :=
                      Some (default (js "创建公告失败: "
                                     ++ show_num (code createResponse))
                                    (msg createResponse)) |}
           else ret {| up_success := true; up_error := None |}
         else
           ret {| up_success := false;
                  up_error :=
                    Some (js "无法找到群公告的根 block，请确保群公告已初始化") |}
       | None =>
         ret {| up_success := false;
                up_error :=
                  Some (js "无法找到群公告的根 block，请确保群公告已初始化") |}
       end)
    (λ err, ret {| up_success := false;
                   up_error := Some (extractFeishuError err) |}).

(** [updateGroupAnnouncement({ account, chatId, content })] *)
Definition updateGroupAnnouncement (account : Account)
    (chatId content : jsstring) : M UpdateResult :=
  if negb (JS.truthy (JS.trim content)) then
    ret {| up_success := false; up_error := Some (js "公告内容不能为空") |}
  else
    let* currentAnnouncement := getGroupAnnouncement account chatId in
    if an_isDocxType currentAnnouncement then
      updateDocxAnnouncement account chatId content
    else if JS.truthy_opt (an_error currentAnnouncement)
            && negb (an_isDocxType currentAnnouncement) then
      ret {| up_success := false;
             up_error := Some (js "获取当前公告失败："
                               ++ show_str (an_error currentAnnouncement)) |}
    else
      try_catch
        (let* _ := getFeishuClient account in
         let* response :=
           request (ClientRequest PATCH
                      {| path := chat_path chatId (js "/announcement");
                         query := [] |}
                      (AnnouncementPatch
                         (default (js "0") (an_revision currentAnnouncement))
                         content)) in
         if negb (code_is_zero response) then
           ret {| up_success := false;
                  up_error := Some (api_error_text response) |}
         else ret {| up_success := true; up_error := None |})
        (λ err, ret {| up_success := false;
                       up_error := Some (extractFeishuError err) |}).

End WithTransport.

Arguments Fulfilled {A} value.
Arguments RejectedWith {A} reason.
Arguments Unsettled {A}.

End Api.

(** ** Command parser  ([commands.ts], [parseCommand]) *)

Module Commands.

(** [type CommandType] *)
Inductive CommandType :=
  | announcement | add_member | remove_member | list_members.

#[global] Instance CommandType_eq_dec : EqDecision CommandType.
Proof. solve_decision. Defined.

(** [type ParsedCommand] *)
Record ParsedCommand := mkParsed {
  type : CommandType;
  args : jsstring;
  mentionedUserIds : list jsstring
}.

(** An entry of the message's mention list. *)
Record MentionId := { open_id : option jsstring }.
Record Mention := {
  m_key : option jsstring;
  m_id : option MentionId;
  m_name : option jsstring
}.

(** [COMMAND_PREFIXES], in the insertion order [Object.entries] reports. *)
Definition COMMAND_PREFIXES : list (CommandType * list jsstring) :=
  [ (announcement, [js "/公告"; js "/announcement"]);
    (add_member, [js "/拉人"; js "/add"]);
    (remove_member, [js "/踢人"; js "/kick"; js "/remove"]);
    (list_members, [js "/成员"; js "/members"]) ].

(** [ADMIN_REQUIRED_COMMANDS] *)
Definition ADMIN_REQUIRED_COMMANDS : list CommandType :=
  [announcement; add_member; remove_member].

(** [m.id?.open_id] *)
Definition mention_open_id (m : Mention) : option jsstring :=
  match m_id m with
  | Some i => open_id i
  | None => None
  end.

(** [mentions.filter((m) => m.id?.open_id).map((m) => m.id!.open_id!)] *)
Definition extract_mentioned (mentions : list Mention) : list jsstring :=
  map (λ m, default [] (mention_open_id m))
      (List.filter (λ m, JS.truthy_opt (mention_open_id m)) mentions).

(** The inner loop, over the aliases of one command type. *)
Fixpoint try_prefixes (cmdType : CommandType) (prefixes : list jsstring)
    (trimmedText : jsstring) (mentions : list Mention)
    : option ParsedCommand :=
  match prefixes with
  | [] => None
  | prefix :: rest =>
    if JS.startsWith trimmedText prefix then
      let args := JS.trim (JS.slice trimmedText (length prefix)) in
      let mentionedUserIds := extract_mentioned mentions in
      Some (mkParsed cmdType args mentionedUserIds)
    else try_prefixes cmdType rest trimmedText mentions
  end.

(** The outer loop, over the command types. *)
Fixpoint scan_commands (entries : list (CommandType * list jsstring))
    (trimmedText : jsstring) (mentions : list Mention)
    : option ParsedCommand :=
  match entries with
  | [] => None
  | (cmdType, prefixes) :: rest =>
    match try_prefixes cmdType prefixes trimmedText mentions with
    | Some c => Some c
    | None => scan_commands rest trimmedText mentions
    end
  end.

(** [parseCommand(text, mentions)] *)
Definition parseCommand (text : jsstring) (mentions : list Mention)
    : option ParsedCommand :=
  let trimmedText := JS.trim text in
  scan_commands COMMAND_PREFIXES trimmedText mentions.

(** [requiresAdminPermission(cmdType)] *)
Definition requiresAdminPermission (cmdType : CommandType) : bool :=
  bool_decide (cmdType ∈ ADMIN_REQUIRED_COMMANDS).

(** *** Command executor  ([commands.ts], [executeCommand]) *)

(** [type CommandContext] *)
Record CommandContext := {
  chatId : jsstring;
  senderId : jsstring;
  messageId : jsstring;
  mentions : list Mention
}.

(** [type CommandResult] *)
Record CommandResult := mkResult {
  success : bool;
  message : jsstring
}.

(** [parts.join(sep)] *)
Fixpoint join (sep : jsstring) (parts : list jsstring) : jsstring :=
  match parts with
  | [] => []
  | [p] => p
  | p :: rest => p ++ sep ++ join sep rest
  end.

(** [`${n}`] for a length. *)
Definition show_nat (n : nat) : jsstring := JS.number_to_string (Z.of_nat n).

Section WithTransport.

Variable net : Api.Transport.

(** [executeAnnouncementCommand(account, chatId, content)] *)
Definition executeAnnouncementCommand (account : Api.Account)
    (chatId content : jsstring) : Api.M CommandResult :=
  if negb (JS.truthy (JS.trim content)) then
    Api.ret (mkResult false (js "请提供公告内容。用法：/公告 <公告内容>"))
  else
    Api.bind (Api.updateGroupAnnouncement net account chatId content)
      (λ result,
         if Api.up_success result then
           Api.ret (mkResult true (js "群公告已更新。"))
         else
           Api.ret (mkResult false
                      (js "更新公告失败：" ++ Api.show_str (Api.up_error result)))).

(** [executeAddMemberCommand(account, chatId, memberIds)] *)
Definition executeAddMemberCommand (account : Api.Account)
    (chatId : jsstring) (memberIds : list jsstring) : Api.M CommandResult :=
  if (length memberIds =? 0)%nat then
    Api.ret (mkResult false
               (js "请@要拉入群聊的用户。用法：/拉人 @用户1 @用户2"))
  else
    Api.bind (Api.addMembersToGroup net account chatId memberIds)
      (λ result,
         if Api.mo_success result then
           let invalidNote :=
             match Api.mo_invalidIds result with
             | Some ids =>
               if (0 <? length ids)%nat then
                 js "（" ++ show_nat (length ids)
                   ++ js " 个用户无效或已在群内）"
               else []
             | None => []
             end in
           Api.ret (mkResult true
                      (js "已拉入 " ++ show_nat (length memberIds)
                         ++ js " 个用户" ++ invalidNote))
         else
           Api.ret (mkResult false
                      (js "拉人失败：" ++ Api.show_str (Api.mo_error result)))).

(** [executeRemoveMemberCommand(account, chatId, memberIds)] *)
Definition executeRemoveMemberCommand (account : Api.Account)
    (chatId : jsstring) (memberIds : list jsstring) : Api.M CommandResult :=
  if (length memberIds =? 0)%nat then
    Api.ret (mkResult false (js "请@要移除的用户。用法：/踢人 @用户"))
  else
    Api.bind (Api.removeMembersFromGroup net account chatId memberIds)
      (λ result,
         if Api.mo_success result then
           let invalidNote :=
             match Api.mo_invalidIds result with
             | Some ids =>
               if (0 <? length ids)%nat then
                 js "（" ++ show_nat (length ids)
                   ++ js " 个用户无效或不在群内）"
               else []
             | None => []
             end in
           Api.ret (mkResult true
                      (js "已移除 " ++ show_nat (length memberIds)
                         ++ js " 个用户" ++ invalidNote))
         else
           Api.ret (mkResult false
                      (js "移除用户失败：" ++ Api.show_str (Api.mo_error result)))).

(** [executeListMembersCommand(account, chatId)] *)
Definition executeListMembersCommand (fuel : nat) (account : Api.Account)
    (chatId : jsstring) : Api.M CommandResult :=
  Api.bind (Api.getGroupMembers net fuel account chatId)
    (λ result,
       if JS.truthy_opt (Api.mr_error result) then
         Api.ret (mkResult false
                    (js "获取成员列表失败：" ++ Api.show_str (Api.mr_error result)))
       else
         let members := Api.members result in
         if (length members =? 0)%nat then
           Api.ret (mkResult true (js "群内暂无成员信息。"))
         else
           let memberList :=
             join [10%N]
               (imap (λ i m,
                        show_nat (i + 1) ++ js ". "
                          ++ default (Api.memberId m) (Api.gm_name m))
                     (take 50 members)) in
           let moreNote :=
             if (50 <? length members)%nat then
               [10%N] ++ js "... 共 " ++ show_nat (length members) ++ js " 人"
             else [10%N] ++ js "共 " ++ show_nat (length members) ++ js " 人" in
           Api.ret (mkResult true
                      (js "群成员列表：" ++ [10%N] ++ memberList ++ moreNote))).

(** The [switch (type)] of [executeCommand].  Its [default] arm answers an
    unknown command; no value of [CommandType] reaches it. *)
Definition run_action (fuel : nat) (account : Api.Account)
    (command : ParsedCommand) (context : CommandContext)
    : Api.M CommandResult :=
  match type command with
  | announcement =>
    executeAnnouncementCommand account (chatId context) (args command)
  | add_member =>
    executeAddMemberCommand account (chatId context)
      (mentionedUserIds command)
  | remove_member =>
    executeRemoveMemberCommand account (chatId context)
      (mentionedUserIds command)
  | list_members =>
    executeListMembersCommand fuel account (chatId context)
  end.

(** [executeCommand({ account, command, context })] *)
Definition executeCommand (fuel : nat) (account : Api.Account)
    (command : ParsedCommand) (context : CommandContext)
    : Api.M CommandResult :=
  if requiresAdminPermission (type command) then
    Api.bind
      (Api.isUserGroupAdmin net account (chatId context) (senderId context))
      (λ permResult,
         if JS.truthy_opt (Api.ac_error permResult) then
           Api.ret (mkResult false
                      (js "权限检查失败：" ++ Api.show_str (Api.ac_error permResult)))
         else if negb (Api.isAdmin permResult)
                 && negb (Api.isOwner permResult) then
           Api.ret (mkResult false
                      (js "抱歉，只有群主或管理员才能执行此操作。"))
         else run_action fuel account command context)
  else run_action fuel account command context.

End WithTransport.

End Commands.

(** ** WebSocket client registry  ([monitor.ts], [monitorFeishuProvider]) *)

Module Monitor.

(** A [lark.WSClient] object: whether [start] and [stop] were called on
    it.  [ws_handle] remembers the account handle (account id and
    application id) it was created for. *)
Inductive WsStatus := Created | Started | Stopped.

#[global] Instance WsStatus_eq_dec : EqDecision WsStatus.
Proof. solve_decision. Defined.

Record WSClient := {
  ws_handle : list N * list N;
  ws_status : WsStatus
}.

(** What [monitorFeishuProvider] does to the registry and to the clients,
    in program order. *)
Inductive Event :=
  | EvStop (client : nat)                  (* client.stop() *)
  | EvDelete (key : jsstring)              (* activeClients.delete(key) *)
  | EvNew (client : nat)                   (* new lark.WSClient(...) *)
  | EvSet (key : jsstring) (client : nat)  (* activeClients.set(key, client) *)
  | EvStart (client : nat)                 (* client.start(...) *)
  | EvOnAbort (key : jsstring) (client : nat).
      (* abortSignal.addEventListener("abort", stop) *)

(** [activeClients : Map<string, lark.WSClient>] holds references into the
    heap of client objects [sockets]; a reference is an index. *)
Record World := {
  activeClients : gmap (list N) nat;
  sockets : list WSClient;
  events : list Event
}.

(** [`${account.accountId}:${account.appId}`] *)
Definition clientKey (accountId appId : jsstring) : jsstring :=
  accountId ++ js ":" ++ appId.

Definition set_status (st : WsStatus) (c : WSClient) : WSClient :=
  {| ws_handle := ws_handle c; ws_status := st |}.

(** What a [stop()] that returns does: the client is stopped. *)
Definition stopped (id : nat) (w : World) : World :=
  {| activeClients := activeClients w;
     sockets := alter (set_status Stopped) id (sockets w);
     events := events w ++ [EvStop id] |}.

(** [TypeError: <callee> is not a function], thrown by the call of a method
    the object does not have. *)
Definition not_a_function (callee : jsstring) : Api.Thrown :=
  {| Api.thrown_is_error := true; Api.thrown_is_object := true;
     Api.thrown_message := Some (callee ++ js " is not a function");
     Api.thrown_response_msg := None; Api.thrown_response_code := None;
     Api.thrown_response_status := None;
     Api.thrown_string :=
       js "TypeError: " ++ callee ++ js " is not a function" |}.

(** [client.stop()], called through the expression [callee].  The SDK is
    not part of the repository: [has_stop] says whether its [WSClient] has
    a [stop] method.  The result is [None] when the call returns and the
    error when it throws; a call that throws changes nothing. *)
Definition ws_stop (has_stop : bool) (callee : jsstring) (id : nat)
    (w : World) : option Api.Thrown * World :=
  if has_stop then (None, stopped id w)
  else (Some (not_a_function callee), w).

(** [client.start({ eventDispatcher })] *)
Definition ws_start (id : nat) (w : World) : World :=
  {| activeClients := activeClients w;
     sockets := alter (set_status Started) id (sockets w);
     events := events w ++ [EvStart id] |}.

(** [new lark.WSClient({ appId, appSecret, ... })]: a fresh object. *)
Definition ws_new (handle : list N * list N) (w : World) : nat * World :=
  (length (sockets w),
   {| activeClients := activeClients w;
      sockets := sockets w ++ [{| ws_handle := handle; ws_status := Created |}];
      events := events w ++ [EvNew (length (sockets w))] |}).

Definition registry_delete (key : jsstring) (w : World) : World :=
  {| activeClients := delete key (activeClients w);
     sockets := sockets w;
     events := events w ++ [EvDelete key] |}.

Definition registry_set (key : jsstring) (id : nat) (w : World) : World :=
  {| activeClients := <[key := id]> (activeClients w);
     sockets := sockets w;
     events := events w ++ [EvSet key id] |}.

Definition on_abort (key : jsstring) (id : nat) (w : World) : World :=
  {| activeClients := activeClients w;
     sockets := sockets w;
     events := events w ++ [EvOnAbort key id] |}.

(** [interface FeishuProviderMonitor]; its [stop] closure captures the
    client and the key. *)
Record FeishuProviderMonitor := {
  mon_account : Api.Account;
  mon_key : jsstring;
  mon_client : nat
}.

Section WithSdk.

Variable has_stop : bool.

(** The [stop] closure: [wsClient.stop()], then
    [activeClients.delete(clientKey)]. *)
Definition stop (mon : FeishuProviderMonitor) (w : World)
    : option Api.Thrown * World :=
  match ws_stop has_stop (js "wsClient.stop") (mon_client mon) w with
  | (Some e, w') => (Some e, w')
  | (None, w') => (None, registry_delete (mon_key mon) w')
  end.

(** [monitorFeishuProvider(options)]: [inr] is the thrown error. *)
Definition monitorFeishuProvider (account : Api.Account) (w : World)
    : (FeishuProviderMonitor + Api.Thrown) * World :=
  if negb (JS.truthy_opt (Api.appId account))
     || negb (JS.truthy_opt (Api.appSecret account)) then
    (inr (Api.new_Error (js "Feishu appId and appSecret are required")), w)
  else
    let appId := Api.show_str (Api.appId account) in
    let key := clientKey (Api.accountId account) appId in
    let connect (w1 : World) :=
      let '(wsClient, w2) := ws_new (Api.accountId account, appId) w1 in
      let w3 := registry_set key wsClient w2 in
      let w4 := ws_start wsClient w3 in
      let w5 := on_abort key wsClient w4 in
      (inl {| mon_account := account; mon_key := key;
              mon_client := wsClient |}, w5) in
    match activeClients w !! key with
    | Some existingClient =>
      match ws_stop has_stop (js "existingClient.stop") existingClient w with
      | (Some e, w') => (inr e, w')
      | (None, w') => connect (registry_delete key w')
      end
    | None => connect w
    end.

End WithSdk.

(** The live connections of an account handle: the clients created for it
    that were started and not stopped. *)
Definition live_for (handle : list N * list N) (w : World) : list nat :=
  List.filter
    (λ i, match sockets w !! i with
          | Some c => bool_decide (ws_handle c = handle
                                   ∧ ws_status c = Started)
          | None => false
          end)
    (seq 0 (length (sockets w))).

End Monitor.

(** ** Stopping monitors  ([monitor.ts], [stopFeishuMonitor]) and the
       gateway adapter  ([channel.ts], [gateway]) *)

Module Lifecycle.

Import Monitor.

(** [isFeishuAccountConfigured(account)]  ([accounts.ts]):
    [Boolean(account.appId && account.appSecret)] *)
Definition isFeishuAccountConfigured (account : Api.Account) : bool :=
  JS.truthy_opt (Api.appId account) && JS.truthy_opt (Api.appSecret account).

Section WithSdk.

Variable has_stop : bool.

(** The loop both stop functions run over the entries they take:
    [client.stop()], then [activeClients.delete(key)].  The first call that
    throws ends the loop and the function. *)
Fixpoint stop_loop (entries : list (list N * nat)) (w : World)
    : option Api.Thrown * World :=
  match entries with
  | [] => (None, w)
  | entry :: rest =>
    match ws_stop has_stop (js "client.stop") entry.2 w with
    | (Some e, w') => (Some e, w')
    | (None, w') => stop_loop rest (registry_delete entry.1 w')
    end
  end.

(** [stopFeishuMonitor(accountId)].  The loop visits every entry the map
    held when it started; deleting the entry in hand does not disturb the
    iteration.  The entries are taken in the enumeration order of the
    finite map, which the outcome does not depend on: a [stop()] that
    throws does so at the first entry taken, whichever it is, and the
    final registry and client states of a loop that runs through are the
    same in every order. *)
Definition stopFeishuMonitor (accountId : jsstring) (w : World)
    : option Api.Thrown * World :=
  stop_loop
    (List.filter (λ entry, JS.startsWith entry.1 (accountId ++ js ":"))
       (map_to_list (activeClients w))) w.

(** [stopAllFeishuMonitors()] *)
Definition stopAllFeishuMonitors (w : World) : option Api.Thrown * World :=
  stop_loop (map_to_list (activeClients w)) w.

(** [gateway.startAccount(ctx)] *)
Definition startAccount (account : Api.Account) (w : World)
    : (FeishuProviderMonitor + Api.Thrown) * World :=
  if negb (isFeishuAccountConfigured account) then
    (inr (Api.new_Error (js "Feishu appId and appSecret are required")), w)
  else monitorFeishuProvider has_stop account w.

(** [gateway.stopAccount(ctx)] *)
Definition stopAccount (account : Api.Account) (w : World)
    : option Api.Thrown * World :=
  stopFeishuMonitor (Api.accountId account) w.

End WithSdk.

End Lifecycle.

(** ** Client cache and probe  ([api.ts], [clearFeishuClientCache],
       [probeFeishu]; [channel.ts], [status.probeAccount]) *)

Module Status.

Import Api.

(** [clearFeishuClientCache(appId?)]: one entry for a non-empty [appId],
    the whole cache otherwise. *)
Definition clearFeishuClientCache (appId : option jsstring) (w : World)
    : World :=
  match appId with
  | Some a =>
    if JS.truthy a then
      {| clientCache := clientCache w ∖ {[a]}; sent := sent w |}
    else {| clientCache := ∅; sent := sent w |}
  | None => {| clientCache := ∅; sent := sent w |}
  end.

Record ProbeResult := {
  probe_ok : bool;
  probe_error : option jsstring
}.

Section WithTransport.

Variable net : Transport.

(** [probeFeishu(account)] *)
Definition probeFeishu (account : Account) : M ProbeResult :=
  try_catch
    (let* _ := getFeishuClient account in
     let* response :=
       request net (ClientRequest GET
                      {| path := js "/open-apis/bot/v3/info"; query := [] |}
                      NoPayload) in
     if negb (code_is_zero response) then
       ret {| probe_ok := false;
              probe_error := Some (default (js "Unknown error")
                                           (msg response)) |}
     else ret {| probe_ok := true; probe_error := None |})
    (λ err, ret {| probe_ok := false; probe_error := catch_text err |}).

(** [status.probeAccount({ account })] *)
Definition probeAccount (account : Account) : M ProbeResult :=
  if negb (Lifecycle.isFeishuAccountConfigured account) then
    ret {| probe_ok := false;
           probe_error := Some (js "missing appId or appSecret") |}
  else probeFeishu account.

End WithTransport.

End Status.

(** ** Event handlers  ([monitor.ts], the chat-entered and calendar events) *)

Module Handlers.

(** The lines handed to [runtime.log] and [runtime.error]. *)
Inductive Level := to_log | to_error.

(** The state the handlers share besides the API client: the
    [processedEventIds] map and the lines written so far. *)
Record State := {
  processedEventIds : gmap (list N) Z;
  lines : list (Level * jsstring)
}.

Definition write (level : Level) (text : jsstring) (st : State) : State :=
  {| processedEventIds := processedEventIds st;
     lines := lines st ++ [(level, text)] |}.

(** [`[feishu:${account.accountId}] `] *)
Definition tag (account : Api.Account) : jsstring :=
  js "[feishu:" ++ Api.accountId account ++ js "] ".

(** [isEventProcessed(eventData.event_id)] against the shared map. *)
Definition check_event (t_set t_sweep : Z) (eventId : option jsstring)
    (st : State) : bool * State :=
  let r := Dedup.isEventProcessed t_set t_sweep eventId (processedEventIds st) in
  (r.1, {| processedEventIds := r.2; lines := lines st |}).

(** [type FeishuUserEnteredChatEvent], with the [event_id] the handler
    reads off the same object; [ue_open_id] is [operator_id?.open_id]. *)
Record FeishuUserEnteredChatEvent := {
  ue_event_id : option jsstring;
  ue_chat_id : option jsstring;
  ue_open_id : option jsstring
}.

(** [type FeishuCalendarEvent], likewise. *)
Record CalendarUser := { cu_open_id : option jsstring }.

Record FeishuCalendarEvent := {
  ce_event_id : option jsstring;
  ce_calendar_id : option jsstring;
  ce_user_id_list : option (list CalendarUser)
}.

Inductive CalendarEventType := calendar_changed | event_changed.

Definition calendar_type_name (eventType : CalendarEventType) : jsstring :=
  match eventType with
  | calendar_changed => js "calendar_changed"
  | event_changed => js "event_changed"
  end.

Section WithTransport.

Variable net : Api.Transport.

(** [handleUserEnteredChat(data, context)] *)
Definition handleUserEnteredChat (t_set t_sweep : Z)
    (data : FeishuUserEnteredChatEvent) (account : Api.Account)
    (st : State) : Api.M State :=
  let (duplicate, st) := check_event t_set t_sweep (ue_event_id data) st in
  if duplicate then
    Api.ret (write to_log (tag account
                        ++ js "skipping duplicate user entered event") st)
  else
    let chatId := ue_chat_id data in
    let userId := ue_open_id data in
    if negb (JS.truthy_opt chatId) then
      Api.ret (write to_log (tag account
                          ++ js "user entered event missing chat_id") st)
    else
      let st := write to_log (tag account ++ js "user " ++ Api.show_str userId
                           ++ js " entered chat " ++ Api.show_str chatId) st in
      let greetingMessage :=
        js "你好！我是 Moltbot 助手，有什么可以帮助你的吗？" in
      Api.bind
        (Api.sendFeishuMessage net account (Api.show_str chatId)
           greetingMessage (js "chat_id"))
        (λ result,
           if Api.send_success result then
             Api.ret (write to_log (tag account ++ js "greeting sent to chat "
                                 ++ Api.show_str chatId) st)
           else
             Api.ret (write to_error (tag account
                                   ++ js "failed to send greeting: "
                                   ++ Api.show_str (Api.send_error result))
                            st)).

(** The [for (const user of userIdList)] loop of [handleCalendarEvent]. *)
Fixpoint notify_users (account : Api.Account) (message : jsstring)
    (userIdList : list CalendarUser) (st : State) : Api.M State :=
  match userIdList with
  | [] => Api.ret st
  | user :: rest =>
    let userId := cu_open_id user in
    if negb (JS.truthy_opt userId) then
      notify_users account message rest st
    else
      Api.bind
        (Api.sendFeishuMessage net account (Api.show_str userId) message
           (js "open_id"))
        (λ result,
           notify_users account message rest
             (if Api.send_success result then
                write to_log (tag account ++ js "calendar notification sent to "
                           ++ Api.show_str userId) st
              else
                write to_error (tag account ++ js "failed to notify "
                             ++ Api.show_str userId ++ js ": "
                             ++ Api.show_str (Api.send_error result)) st))
  end.

(** [handleCalendarEvent(eventType, data, context)] *)
Definition handleCalendarEvent (t_set t_sweep : Z)
    (eventType : CalendarEventType) (data : FeishuCalendarEvent)
    (account : Api.Account) (st : State) : Api.M State :=
  let (duplicate, st) := check_event t_set t_sweep (ce_event_id data) st in
  if duplicate then
    Api.ret (write to_log (tag account ++ js "skipping duplicate calendar "
                        ++ calendar_type_name eventType ++ js " event") st)
  else
    let calendarId := default (js "未知日历") (ce_calendar_id data) in
    let userIdList := default [] (ce_user_id_list data) in
    let st := write to_log (tag account ++ js "calendar "
                         ++ calendar_type_name eventType ++ js ": "
                         ++ calendarId ++ js ", users: "
                         ++ Commands.show_nat (length userIdList)) st in
    let message :=
      match eventType with
      | calendar_changed => js "📅 日历已更新，请查看最新日程安排。"
      | event_changed => js "📅 日程已变更，请注意时间调整。"
      end in
    if (length userIdList =? 0)%nat then
      Api.ret (write to_log (tag account
                          ++ js "no users to notify for calendar event") st)
    else notify_users account message userIdList st.

End WithTransport.

End Handlers.

(** ** Accounts  ([accounts.ts]) *)

Module Accounts.

Inductive DmPolicy := dm_open | dm_pairing | dm_allowlist.

(** [type FeishuAccountConfig]; the [groups] field, which is only copied,
    is left out. *)
Record FeishuAccountConfig := {
  enabled : option bool;
  appId : option jsstring;
  appSecret : option jsstring;
  dmPolicy : option DmPolicy;
  allowFrom : option (list jsstring)
}.

(** [type FeishuChannelConfig]: the fields of the top level and the
    [accounts] object, its entries in the order [Object.keys] reports. *)
Record FeishuChannelConfig := {
  top : FeishuAccountConfig;
  accounts : option (list (jsstring * FeishuAccountConfig))
}.

(** [type MoltbotConfig], as far as it is read: [cfg.channels?.feishu]. *)
Record MoltbotConfig := {
  channels_feishu : option FeishuChannelConfig
}.

(** [type ResolvedFeishuAccount]: the account handle the API wrappers take,
    with [enabled] and [config]. *)
Record ResolvedFeishuAccount := {
  account : Api.Account;
  resolved_enabled : bool;
  config : FeishuAccountConfig
}.

(** What reading a member that [Object.prototype] supplies amounts to here:
    an object with none of the fields. *)
Definition no_fields : FeishuAccountConfig :=
  {| enabled := None; appId := None; appSecret := None;
     dmPolicy := None; allowFrom := None |}.

(** [ids.add(id)] on a [Set], kept in insertion order. *)
Definition set_add (ids : list jsstring) (id : jsstring) : list jsstring :=
  if bool_decide (id ∈ ids) then ids else ids ++ [id].

(** [x?.trim() || undefined] *)
Definition trimmed_or_undefined (x : option jsstring) : option jsstring :=
  match x with
  | Some s => if JS.truthy (JS.trim s) then Some (JS.trim s) else None
  | None => None
  end.

Section WithSdk.

(** [DEFAULT_ACCOUNT_ID] of the plugin SDK, and the names [Object.prototype]
    answers for on a plain object. *)
Variable DEFAULT_ACCOUNT_ID : jsstring.
Variable inherited : jsstring → bool.

(** [getFeishuConfig(cfg)] *)
Definition getFeishuConfig (cfg : MoltbotConfig)
    : option FeishuChannelConfig :=
  channels_feishu cfg.

(** [listFeishuAccountIds(cfg)] *)
Definition listFeishuAccountIds (cfg : MoltbotConfig) : list jsstring :=
  match getFeishuConfig cfg with
  | None => []
  | Some feishu =>
    let ids :=
      if JS.truthy_opt (appId (top feishu))
      then set_add [] DEFAULT_ACCOUNT_ID else [] in
    match accounts feishu with
    | Some entries => foldl set_add ids (map fst entries)
    | None => ids
    end
  end.

(** [resolveDefaultFeishuAccountId(cfg)] *)
Definition resolveDefaultFeishuAccountId (cfg : MoltbotConfig) : jsstring :=
  let ids := listFeishuAccountIds cfg in
  if bool_decide (DEFAULT_ACCOUNT_ID ∈ ids) then DEFAULT_ACCOUNT_ID
  else default DEFAULT_ACCOUNT_ID (head ids).

(** [feishu?.accounts?.[resolvedId]] *)
Definition account_entry (feishu : option FeishuChannelConfig)
    (resolvedId : jsstring) : option FeishuAccountConfig :=
  match feishu with
  | Some f =>
    match accounts f with
    | Some entries =>
      match List.find (λ e : jsstring * FeishuAccountConfig,
                         bool_decide (e.1 = resolvedId)) entries with
      | Some e => Some e.2
      | None => if inherited resolvedId then Some no_fields else None
      end
    | None => None
    end
  | None => None
  end.

(** [resolveFeishuAccount({ cfg, accountId })] *)
Definition resolveFeishuAccount (cfg : MoltbotConfig)
    (accountId : option jsstring) : ResolvedFeishuAccount :=
  let feishu := getFeishuConfig cfg in
  let resolvedId := default DEFAULT_ACCOUNT_ID accountId in
  let accountConfig := account_entry feishu resolvedId in
  let useTopLevel :=
    bool_decide (resolvedId = DEFAULT_ACCOUNT_ID)
    || negb (bool_decide (is_Some accountConfig)) in
  let baseConfig := if useTopLevel then top <$> feishu else accountConfig in
  let appId := trimmed_or_undefined (baseConfig ≫= appId) in
  let appSecret := trimmed_or_undefined (baseConfig ≫= appSecret) in
  {| account := {| Api.accountId := resolvedId;
                   Api.appId := appId; Api.appSecret := appSecret |};
     resolved_enabled :=
       negb (bool_decide (baseConfig ≫= enabled = Some false));
     config := {| enabled := baseConfig ≫= enabled;
                  appId := appId; appSecret := appSecret;
                  dmPolicy := baseConfig ≫= dmPolicy;
                  allowFrom := baseConfig ≫= allowFrom |} |}.

End WithSdk.

End Accounts.

(** ** Outbound adapter  ([channel.ts], [outbound]) *)

Module Outbound.

(** What [sendText] and [sendMedia] resolve to; [channel] is ["feishu"]. *)
Record Delivery := {
  channel : jsstring;
  messageId : option jsstring;
  ok : bool;
  error : option Api.Thrown
}.

Section WithTransport.

Variable net : Api.Transport.
Variable DEFAULT_ACCOUNT_ID : jsstring.
Variable inherited : jsstring → bool.

Definition deliver (result : Api.SendResult) : Delivery :=
  {| channel := js "feishu";
     messageId := Api.send_messageId result;
     ok := Api.send_success result;
     error := if JS.truthy_opt (Api.send_error result)
              then Some (Api.new_Error (Api.show_str (Api.send_error result)))
              else None |}.

(** [outbound.sendText({ to, text, accountId, cfg })] *)
Definition sendText (to text : jsstring) (accountId : option jsstring)
    (cfg : Accounts.MoltbotConfig) : Api.M Delivery :=
  let account :=
    Accounts.account
      (Accounts.resolveFeishuAccount DEFAULT_ACCOUNT_ID inherited cfg
         accountId) in
  Api.bind (Api.sendFeishuMessage net account to text (js "chat_id"))
    (λ result, Api.ret (deliver result)).

(** [outbound.sendMedia({ to, text, accountId, cfg })] *)
Definition sendMedia (to text : jsstring) (accountId : option jsstring)
    (cfg : Accounts.MoltbotConfig) : Api.M Delivery :=
  let account :=
    Accounts.account
      (Accounts.resolveFeishuAccount DEFAULT_ACCOUNT_ID inherited cfg
         accountId) in
  Api.bind
    (Api.sendFeishuMessage net account to
       (if JS.truthy text then text else js "[媒体消息暂不支持]")
       (js "chat_id"))
    (λ result, Api.ret (deliver result)).

End WithTransport.

End Outbound.

(** * Specification vocabulary

    The notions the stated properties are phrased with. *)

Module Spec.

Import Commands.

(** The literal prefixes in the order they are tried: by command type, and
    within a type by alias. *)
Definition prefix_table : list (CommandType * list N) :=
  [ (announcement, js "/公告"); (announcement, js "/announcement");
    (add_member, js "/拉人"); (add_member, js "/add");
    (remove_member, js "/踢人"); (remove_member, js "/kick");
    (remove_member, js "/remove");
    (list_members, js "/成员"); (list_members, js "/members") ].

Definition flatten_prefixes (entries : list (CommandType * list (list N)))
    : list (CommandType * list N) :=
  concat (map (λ e, map (pair e.1) e.2) entries).

(** What the parser builds once [p] matched the trimmed text [t]. *)
Definition built (ty : CommandType) (p t : list N) (ms : list Mention)
    : ParsedCommand :=
  mkParsed ty (JS.trim (drop (length p) t)) (extract_mentioned ms).

Definition first_match (tbl : list (CommandType * list N)) (t : list N)
    (i : nat) (ty : CommandType) (p : list N) : Prop :=
  tbl !! i = Some (ty, p) ∧ p `prefix_of` t
  ∧ ∀ j tp, (j < i)%nat → tbl !! j = Some tp → ¬ tp.2 `prefix_of` t.

Definition outcome_of (tbl : list (CommandType * list N)) (t : list N)
    (ms : list Mention) (r : option ParsedCommand) : Prop :=
  match r with
  | Some c => ∃ i ty p, first_match tbl t i ty p ∧ c = built ty p t ms
  | None => ∀ tp, tp ∈ tbl → ¬ tp.2 `prefix_of` t
  end.

(** The identifier prefixes of the allow-list normalisation. *)
Definition id_prefixes : list (list N) :=
  [js "feishu:"; js "user:"; js "ou_:"].

(** Two strings that differ at most in the case of their ASCII letters. *)
Definition same_ignoring_case (a b : list N) : Prop :=
  map AllowList.canonicalize a = map AllowList.canonicalize b.

(** [stripped s r]: [r] is [s] without its leading identifier prefix, one
    prefix at most; [r] is [s] itself when [s] starts with none. *)
Inductive stripped : list N → list N → Prop :=
  | stripped_prefix (p p' r : list N) :
      p ∈ id_prefixes → same_ignoring_case p' p → stripped (p' ++ r) r
  | stripped_nothing (s : list N) :
      (∀ p p' r, p ∈ id_prefixes → same_ignoring_case p' p → s ≠ p' ++ r) →
      stripped s s.

(** The account handle of an invocation and the registry key it uses. *)
Definition handle_of (account : Api.Account) : list N * list N :=
  (Api.accountId account, Api.show_str (Api.appId account)).

Definition key_of (handle : list N * list N) : list N :=
  Monitor.clientKey handle.1 handle.2.

(** [!account.appId || !account.appSecret] is false. *)
Definition credentials_complete (account : Api.Account) : Prop :=
  JS.truthy_opt (Api.appId account) = true
  ∧ JS.truthy_opt (Api.appSecret account) = true.

(** Every client that is started and not stopped is the one the registry
    holds under the key of its handle. *)
Definition registry_tracks_live (w : Monitor.World) : Prop :=
  ∀ i c, Monitor.sockets w !! i = Some c →
         Monitor.ws_status c = Monitor.Started →
         Monitor.activeClients w !! key_of (Monitor.ws_handle c) = Some i.

(** The client of an account is at hand: it is in [clientCache]. *)
Definition cached (account : Api.Account) (w : Api.World) : Prop :=
  Api.show_str (Api.appId account) ∈ Api.clientCache w.

(** A client can be had: it is cached, or the credentials to make one are
    there. *)
Definition client_available (account : Api.Account) (w : Api.World) : bool :=
  bool_decide (Api.show_str (Api.appId account) ∈ Api.clientCache w)
  || (JS.truthy_opt (Api.appId account)
      && JS.truthy_opt (Api.appSecret account)).

(** The world once [r] has been issued. *)
Definition after_request (r : Api.Request) (w : Api.World) : Api.World :=
  {| Api.clientCache := Api.clientCache w; Api.sent := Api.sent w ++ [r] |}.

(** The error [getFeishuClient] throws. *)
Definition credentials_error : Api.Thrown :=
  Api.new_Error (js "Feishu appId and appSecret are required").

(** The requests of the wrappers. *)
Definition send_request (chatId text : list N) : Api.Request :=
  Api.MessageCreate (js "chat_id") chatId (js "text") text.

Definition info_request (chatId : list N) : Api.Request :=
  Api.ClientRequest Api.GET
    {| Api.path := Api.chat_path chatId [];
       Api.query := [(js "user_id_type", js "open_id")] |} Api.NoPayload.

Definition managers_request (chatId : list N) : Api.Request :=
  Api.ClientRequest Api.GET
    {| Api.path := Api.chat_path chatId (js "/managers");
       Api.query := [(js "user_id_type", js "open_id")] |} Api.NoPayload.

Definition add_request (chatId : list N) (ids : list (list N)) : Api.Request :=
  Api.ClientRequest Api.POST
    {| Api.path := Api.chat_path chatId (js "/members");
       Api.query := [(js "member_id_type", js "open_id")] |} (Api.IdList ids).

(** An answer that lets the call succeed: resolved, with code 0. *)
Definition answer_ok (o : Api.Outcome) : bool :=
  match o with
  | Api.Resolved r => Api.code_is_zero r
  | Api.Rejected _ => false
  end.

(** The error text a failed send is reported with. *)
Definition send_failure_text (o : Api.Outcome) : list N :=
  match o with
  | Api.Resolved r => Api.api_error_text r
  | Api.Rejected e => default (js "Unknown error") (Api.catch_text e)
  end.

(** The destinations of a broadcast, each with the answer to its send; the
    sends are the requests number [k], [k + 1], ... of the run. *)
Fixpoint answers (net : Api.Transport) (k : nat) (text : list N)
    (groupIds : list (list N)) : list (list N * Api.Outcome) :=
  match groupIds with
  | [] => []
  | g :: rest =>
    (g, net k (send_request g text)) :: answers net (S k) text rest
  end.

(** Without a client every send ends with the credentials error and no
    request leaves. *)
Definition answers_of (net : Api.Transport) (account : Api.Account)
    (text : list N) (w : Api.World) (groupIds : list (list N))
    : list (list N * Api.Outcome) :=
  if client_available account w
  then answers net (length (Api.sent w)) text groupIds
  else map (λ g, (g, Api.Rejected credentials_error)) groupIds.

Section ApiVocabulary.

Import Api.

(** What [sendFeishuMessage] resolves to, given the answer to its request. *)
Definition send_result_of (o : Outcome) : SendResult :=
  match o with
  | Resolved r =>
    if code_is_zero r then
      {| send_messageId := match data r with
                           | Some d => message_id d | None => None end;
         send_success := true; send_error := None |}
    else
      {| send_messageId := None; send_success := false;
         send_error := Some (api_error_text r) |}
  | Rejected e =>
    {| send_messageId := None; send_success := false;
       send_error := catch_text e |}
  end.

Definition settled_of (x : list N * Outcome) : Settled SendResult :=
  Fulfilled (send_result_of x.2).

Definition failure_entry (x : list N * Outcome) : list N :=
  x.1 ++ js ": " ++ send_failure_text x.2.

End ApiVocabulary.

(** How a run of an [async] function can end. *)
Definition returns {A} (m : Api.M A) : Prop :=
  ∀ w, ∃ a w', m w = (Api.Val a, w').

Definition settles {A} (m : Api.M A) : Prop :=
  ∀ w, ∃ w', (∃ a, m w = (Api.Val a, w')) ∨ (∃ e, m w = (Api.Exn e, w')).

Definition never_throws {A} (m : Api.M A) : Prop :=
  ∀ w, ∃ w', (∃ a, m w = (Api.Val a, w')) ∨ m w = (Api.Pending, w').

(** The answer announces a further page of members. *)
Definition more_pages (o : Api.Outcome) : bool :=
  match o with
  | Api.Resolved r =>
    Api.code_is_zero r && JS.truthy_opt (Api.next_page_token r)
  | Api.Rejected _ => false
  end.

(** From the [n]-th request of the run on, no answer announces a further
    page. *)
Definition paging_ends_by (net : Api.Transport) (n : nat) : Prop :=
  ∀ i r, (n ≤ i)%nat → more_pages (net i r) = false.

(** The note on the identifiers the platform turned down when adding. *)
Definition rejected_ids (r : Api.Response) : list (list N) :=
  match Api.data r with
  | Some d => default [] (Api.invalid_id_list d)
              ++ default [] (Api.not_existed_id_list d)
  | None => []
  end.

Definition invalid_note (r : Api.Response) : list N :=
  match rejected_ids r with
  | [] => []
  | ids => js "（" ++ Commands.show_nat (length ids)
           ++ js " 个用户无效或已在群内）"
  end.

Definition no_permission_message : list N :=
  js "抱歉，只有群主或管理员才能执行此操作。".

Definition add_usage_message : list N :=
  js "请@要拉入群聊的用户。用法：/拉人 @用户1 @用户2".

(** [response.data?.owner_id] *)
Definition owner_of (r : Api.Response) : option (list N) :=
  match Api.data r with
  | Some d => Api.owner_id d
  | None => None
  end.

(** Every registry entry points at a client created for the handle the key
    belongs to. *)
Definition registry_keys_match (w : Monitor.World) : Prop :=
  ∀ k i, Monitor.activeClients w !! k = Some i →
         ∃ c, Monitor.sockets w !! i = Some c
              ∧ key_of (Monitor.ws_handle c) = k.

Definition registry_consistent (w : Monitor.World) : Prop :=
  registry_tracks_live w ∧ registry_keys_match w.

(** The entries a stop loop takes, for a selection [f] of keys. *)
Definition selected (f : list N → bool) (w : Monitor.World)
    : list (list N * nat) :=
  List.filter (λ entry, f entry.1) (map_to_list (Monitor.activeClients w)).

(** One turn of a stop loop whose [stop()] returns: the client is stopped,
    then its key deleted. *)
Definition stop_entry (w : Monitor.World) (entry : list N * nat)
    : Monitor.World :=
  Monitor.registry_delete entry.1 (Monitor.stopped entry.2 w).


(** The platform's answers name [userId] the owner of the chat, or one of
    its administrators; [k] is the number the group-info request has in
    the run, and the administrators are asked for right after it. *)
Definition named_owner (net : Api.Transport) (k : nat)
    (chatId userId : list N) : Prop :=
  ∃ info, net k (info_request chatId) = Api.Resolved info
          ∧ Api.code info = Some 0 ∧ owner_of info = Some userId.

Definition named_manager (net : Api.Transport) (k : nat)
    (chatId userId : list N) : Prop :=
  ∃ mgrs, net (S k) (managers_request chatId) = Api.Resolved mgrs
          ∧ Api.code mgrs = Some 0
          ∧ ∃ it, it ∈ Api.response_items mgrs
                  ∧ Api.manager_id it = Some userId.

(** A request that writes [content] into the announcement of a chat: the
    PATCH of the classic announcement or the POST of a block into the
    upgraded one. *)
Definition writes_content (q : Api.Request) (content : list N) : Prop :=
  match q with
  | Api.ClientRequest Api.PATCH _ (Api.AnnouncementPatch _ c) => c = content
  | Api.ClientRequest Api.POST _ (Api.BlockChildren c _) => c = content
  | _ => False
  end.

(** The requests [extra], issued from number [k] on, are reads followed by
    one write of [content], and the write was answered with code 0. *)
Definition write_confirmed (net : Api.Transport) (k : nat)
    (content : list N) (extra : list Api.Request) : Prop :=
  ∃ reads q resp,
    extra = reads ++ [q]
    ∧ Forall (λ r, Api.is_mutation r = false) reads
    ∧ writes_content q content
    ∧ net (k + length reads)%nat q = Api.Resolved resp
    ∧ Api.code resp = Some 0.

(** The request for one page of the member list. *)
Definition page_request (chatId : list N) (pageToken : option (list N))
    : Api.Request :=
  Api.ClientRequest Api.GET
    {| Api.path := Api.chat_path chatId (js "/members");
       Api.query :=
         [(js "member_id_type", js "open_id"); (js "page_size", js "100")]
         ++ (if JS.truthy_opt pageToken
             then [(js "page_token", Api.show_str pageToken)] else []) |}
    Api.NoPayload.

(** The pages [resps] are what the platform answers, from request number
    [k] and page token [tok] on: each with code 0 and announcing the next. *)
Fixpoint pages_answered (net : Api.Transport) (chatId : list N) (k : nat)
    (tok : option (list N)) (resps : list Api.Response) : Prop :=
  match resps with
  | [] => True
  | resp :: rest =>
    net k (page_request chatId tok) = Api.Resolved resp
    ∧ Api.code resp = Some 0
    ∧ JS.truthy_opt (Api.next_page_token resp) = true
    ∧ pages_answered net chatId (S k) (Api.next_page_token resp) rest
  end.

(** The token in hand after the pages [resps], and the requests that
    fetched them. *)
Definition token_after (tok : option (list N)) (resps : list Api.Response)
    : option (list N) :=
  foldl (λ _ r, Api.next_page_token r) tok resps.

Fixpoint page_requests (chatId : list N) (tok : option (list N))
    (resps : list Api.Response) : list Api.Request :=
  match resps with
  | [] => []
  | resp :: rest =>
    page_request chatId tok
    :: page_requests chatId (Api.next_page_token resp) rest
  end.

(** The members the pages [resps] list, in order. *)
Definition members_of (resps : list Api.Response) : list Api.GroupMember :=
  concat (map (λ r, Api.collect_members (Api.page_items r)) resps).

(** The error text a failed call is reported with. *)
Definition reported_error (o : Api.Outcome) : option (list N) :=
  match o with
  | Api.Resolved r => Some (Api.api_error_text r)
  | Api.Rejected e => Api.catch_text e
  end.

Definition is_page_request (chatId : list N) (q : Api.Request) : Prop :=
  ∃ tok, q = page_request chatId tok.

(** A string of white space only. *)
Definition blank (s : list N) : Prop :=
  Forall (λ c, JS.isWhiteSpace c = true) s.

(** The greeting a chat-entered event is answered with, the notification
    of a calendar event, and the users of a calendar event that can be
    notified: those with an open id. *)
Definition greeting_request (chatId : list N) : Api.Request :=
  Api.MessageCreate (js "chat_id") chatId (js "text")
    (js "你好！我是 Moltbot 助手，有什么可以帮助你的吗？").

Definition calendar_message (eventType : Handlers.CalendarEventType)
    : list N :=
  match eventType with
  | Handlers.calendar_changed => js "📅 日历已更新，请查看最新日程安排。"
  | Handlers.event_changed => js "📅 日程已变更，请注意时间调整。"
  end.

Definition notification (message userId : list N) : Api.Request :=
  Api.MessageCreate (js "open_id") userId (js "text") message.

Definition recipients (users : list Handlers.CalendarUser) : list (list N) :=
  map (λ u, Api.show_str (Handlers.cu_open_id u))
      (List.filter (λ u, JS.truthy_opt (Handlers.cu_open_id u)) users).

(** The event has been seen: its id is in the map. *)
Definition seen (eventId : option (list N)) (st : Handlers.State) : bool :=
  (Dedup.isEventProcessed 0 0 eventId (Handlers.processedEventIds st)).1.

(** The credentials a configuration entry gives, and those of a resolved
    account. *)
Definition credentials_in (c : Accounts.FeishuAccountConfig)
    : option (list N) * option (list N) :=
  (Accounts.trimmed_or_undefined (Accounts.appId c),
   Accounts.trimmed_or_undefined (Accounts.appSecret c)).

Definition credentials_of (r : Accounts.ResolvedFeishuAccount)
    : option (list N) * option (list N) :=
  (Api.appId (Accounts.account r), Api.appSecret (Accounts.account r)).

(** The request that removes members, and the note on the identifiers the
    platform turned down when removing. *)
Definition remove_request (chatId : list N) (ids : list (list N))
    : Api.Request :=
  Api.ClientRequest Api.DELETE
    {| Api.path := Api.chat_path chatId (js "/members");
       Api.query := [(js "member_id_type", js "open_id")] |} (Api.IdList ids).

Definition removal_note (r : Api.Response) : list N :=
  match Api.data r with
  | Some d =>
    match Api.invalid_id_list d with
    | Some (i :: ids) =>
      js "（" ++ Commands.show_nat (length (i :: ids))
        ++ js " 个用户无效或不在群内）"
    | _ => []
    end
  | None => []
  end.

Definition remove_usage_message : list N :=
  js "请@要移除的用户。用法：/踢人 @用户".

(** The answer to the last request a run issued, the run having taken the
    world from [w] to [w']; [None] when it issued none. *)
Definition last_outcome (net : Api.Transport) (w w' : Api.World)
    : option Api.Outcome :=
  match last (drop (length (Api.sent w)) (Api.sent w')) with
  | Some q => Some (net (length (Api.sent w') - 1)%nat q)
  | None => None
  end.

(** A run that could not get a client, or whose last request failed: it
    was rejected or answered with a code other than 0. *)
Definition ends_in_failure (net : Api.Transport) (account : Api.Account)
    (w w' : Api.World) : Prop :=
  client_available account w = false
  ∨ ∃ o, last_outcome net w w' = Some o ∧ answer_ok o = false.

(** The same, the failed request having left an error text that is not
    empty. *)
Definition ends_in_reported_failure (net : Api.Transport)
    (account : Api.Account) (w w' : Api.World) : Prop :=
  client_available account w = false
  ∨ ∃ o, last_outcome net w w' = Some o ∧ answer_ok o = false
         ∧ JS.truthy_opt (reported_error o) = true.
(** The users a message mentions: the open id of every entry of the
    mention list that has one which is not empty, in the order of the
    list. *)
Fixpoint mentioned_users (mentions : list Commands.Mention)
    : list (list N) :=
  match mentions with
  | [] => []
  | m :: rest =>
    match Commands.m_id m with
    | Some {| Commands.open_id := Some (c :: id) |} =>
      (c :: id) :: mentioned_users rest
    | _ => mentioned_users rest
    end
  end.

End Spec.

(** * Sample inputs

    Concrete caches, transports and worlds, used to run the definitions. *)

Module Samples.

(** A cache with one entry, recorded at time 0. *)
Definition stale_cache : gmap (list N) Z := {[ js "old" := 0 ]}.

(** Calls made after ["event-a"] was first seen at time 1000. *)
Definition sample_calls : list Dedup.call :=
  [ Dedup.Call (Some (js "event-b")) 2000 2000;
    Dedup.Call (Some (js "event-a")) 3000 3000;
    Dedup.Call None 4000 4000;
    Dedup.Call (Some (js "event-a")) 61000 61000 ].

(** An account with both credentials, and a registry holding one started
    client for it. *)
Definition acct : Api.Account :=
  {| Api.accountId := js "main"; Api.appId := Some (js "cli_test");
     Api.appSecret := Some (js "test_secret") |}.

Definition one_live : Monitor.World :=
  {| Monitor.activeClients := {[ js "main:cli_test" := 0%nat ]};
     Monitor.sockets :=
       [ {| Monitor.ws_handle := (js "main", js "cli_test");
            Monitor.ws_status := Monitor.Started |} ];
     Monitor.events := [] |}.

(** A fresh process: no client cached, nothing sent. *)
Definition w0 : Api.World := {| Api.clientCache := ∅; Api.sent := [] |}.

Definition ok_response : Api.Response :=
  {| Api.code := Some 0; Api.msg := None; Api.data := None |}.

(** Destination ["B"] is rejected by the platform, the others accept. *)
Definition net_B_rejects : Api.Transport :=
  λ _ r,
    match r with
    | Api.MessageCreate _ g _ _ =>
      if bool_decide (g = js "B") then
        Api.Resolved {| Api.code := Some 230002;
                        Api.msg := Some (js "bot not in chat");
                        Api.data := None |}
      else Api.Resolved ok_response
    | _ => Api.Resolved ok_response
    end.

Definition ctx : Commands.CommandContext :=
  {| Commands.chatId := js "oc_test_chat";
     Commands.senderId := js "ou_sender";
     Commands.messageId := js "msg_test";
     Commands.mentions := [] |}.

Definition no_data : Api.ResponseData :=
  {| Api.owner_id := None; Api.data_name := None; Api.items := None;
     Api.member_list := None; Api.page_token := None; Api.has_more := None;
     Api.invalid_id_list := None; Api.not_existed_id_list := None;
     Api.revision := None; Api.content := None; Api.message_id := None |}.

Definition owned_by (owner : list N) : Api.Response :=
  {| Api.code := Some 0; Api.msg := None;
     Api.data :=
       Some {| Api.owner_id := Some owner; Api.data_name := None;
               Api.items := None; Api.member_list := None;
               Api.page_token := None; Api.has_more := None;
               Api.invalid_id_list := None; Api.not_existed_id_list := None;
               Api.revision := None; Api.content := None;
               Api.message_id := None |} |}.

(** The chat belongs to someone else and has no administrators. *)
Definition net_denied : Api.Transport :=
  λ n _,
    match n with
    | O => Api.Resolved (owned_by (js "ou_owner"))
    | _ => Api.Resolved {| Api.code := Some 0; Api.msg := None;
                           Api.data := Some no_data |}
    end.

Definition one_turned_down : Api.Response :=
  {| Api.code := Some 0; Api.msg := None;
     Api.data :=
       Some {| Api.owner_id := None; Api.data_name := None;
               Api.items := None; Api.member_list := None;
               Api.page_token := None; Api.has_more := None;
               Api.invalid_id_list := Some [js "ou_gone"];
               Api.not_existed_id_list := None;
               Api.revision := None; Api.content := None;
               Api.message_id := None |} |}.

(** The sender owns the chat; adding members succeeds, one identifier is
    turned down. *)
Definition net_owner : Api.Transport :=
  λ n _,
    match n with
    | O => Api.Resolved (owned_by (js "ou_sender"))
    | _ => Api.Resolved one_turned_down
    end.

(** An add_member command naming two users, and the world the permission
    query of the owner leaves behind. *)
Definition add_two : Commands.ParsedCommand :=
  Commands.mkParsed Commands.add_member [] [js "ou_user1"; js "ou_gone"].

Definition admitted_world : Api.World :=
  (Api.isUserGroupAdmin net_owner acct (js "oc_test_chat") (js "ou_sender")
     w0).2.

(** Every page of the member list announces another page. *)
Definition net_endless : Api.Transport :=
  λ _ _,
    Api.Resolved
      {| Api.code := Some 0; Api.msg := None;
         Api.data :=
           Some {| Api.owner_id := None; Api.data_name := None;
                   Api.items := Some []; Api.member_list := None;
                   Api.page_token := Some (js "next");
                   Api.has_more := Some true;
                   Api.invalid_id_list := None;
                   Api.not_existed_id_list := None;
                   Api.revision := None; Api.content := None;
                   Api.message_id := None |} |}.

(** The sender owns the chat; every later request is rejected by the
    transport. *)
Definition net_breaks : Api.Transport :=
  λ n _,
    match n with
    | O => Api.Resolved (owned_by (js "ou_sender"))
    | _ => Api.Rejected (Api.new_Error (js "socket hang up"))
    end.

(** Every request is turned down with a non-zero code and an empty
    message text. *)
Definition net_mute_failure : Api.Transport :=
  λ _ _,
    Api.Resolved {| Api.code := Some 99991663; Api.msg := Some [];
                    Api.data := None |}.


(** The member list in two pages.  The first page has an entry without a
    member id and announces the second, which uses [member_list]. *)
Definition member_item (id name : option (list N)) : Api.Item :=
  {| Api.member_id := id; Api.item_name := name; Api.manager_id := None;
     Api.block_id := None; Api.block_type := None |}.

Definition first_page : Api.Response :=
  {| Api.code := Some 0; Api.msg := None;
     Api.data :=
       Some {| Api.owner_id := None; Api.data_name := None;
               Api.items :=
                 Some [ member_item (Some (js "ou_alice")) (Some (js "Alice"));
                        member_item None (Some (js "ghost")) ];
               Api.member_list := None;
               Api.page_token := Some (js "p2");
               Api.has_more := Some true;
               Api.invalid_id_list := None;
               Api.not_existed_id_list := None;
               Api.revision := None; Api.content := None;
               Api.message_id := None |} |}.

Definition last_page : Api.Response :=
  {| Api.code := Some 0; Api.msg := None;
     Api.data :=
       Some {| Api.owner_id := None; Api.data_name := None;
               Api.items := None;
               Api.member_list := Some [ member_item (Some (js "ou_bob")) None ];
               Api.page_token := None;
               Api.has_more := Some false;
               Api.invalid_id_list := None;
               Api.not_existed_id_list := None;
               Api.revision := None; Api.content := None;
               Api.message_id := None |} |}.

Definition net_two_pages : Api.Transport :=
  λ n _,
    match n with
    | O => Api.Resolved first_page
    | _ => Api.Resolved last_page
    end.

(** The second page is turned down. *)
Definition net_second_page_fails : Api.Transport :=
  λ n _,
    match n with
    | O => Api.Resolved first_page
    | _ => Api.Resolved {| Api.code := Some 99991400;
                           Api.msg := Some (js "request trigger frequency limit");
                           Api.data := None |}
    end.

(** What [getGroupMembers] makes of the two pages. *)
Definition two_page_result : Api.MembersResult :=
  {| Api.members :=
       [ {| Api.memberId := js "ou_alice"; Api.gm_name := Some (js "Alice") |};
         {| Api.memberId := js "ou_bob"; Api.gm_name := None |} ];
     Api.mr_error := None |}.

(** A user opens the chat with the bot; nothing has been seen so far. *)
Definition entered : Handlers.FeishuUserEnteredChatEvent :=
  {| Handlers.ue_event_id := Some (js "evt_entered_1");
     Handlers.ue_chat_id := Some (js "oc_p2p");
     Handlers.ue_open_id := Some (js "ou_visitor") |}.

Definition fresh_state : Handlers.State :=
  {| Handlers.processedEventIds := ∅; Handlers.lines := [] |}.

(** The default account id of the SDK, the members every plain object
    answers for, and a configuration with top-level credentials and one
    named account that has an app id only. *)
Definition sdk_default : list N := js "default".

Definition object_members (name : list N) : bool :=
  bool_decide (name ∈ [js "constructor"; js "__defineGetter__";
                       js "__defineSetter__"; js "hasOwnProperty";
                       js "__lookupGetter__"; js "__lookupSetter__";
                       js "isPrototypeOf"; js "propertyIsEnumerable";
                       js "toString"; js "valueOf"; js "__proto__";
                       js "toLocaleString"]).

Definition two_accounts_feishu : Accounts.FeishuChannelConfig :=
  {| Accounts.top :=
       {| Accounts.enabled := None;
          Accounts.appId := Some (js " cli_top ");
          Accounts.appSecret := Some (js "top_secret");
          Accounts.dmPolicy := None;
          Accounts.allowFrom := None |};
     Accounts.accounts :=
       Some [ (js "school",
               {| Accounts.enabled := None;
                  Accounts.appId := Some (js "cli_school");
                  Accounts.appSecret := Some (js "   ");
                  Accounts.dmPolicy := None;
                  Accounts.allowFrom := None |}) ] |}.

Definition two_accounts : Accounts.MoltbotConfig :=
  {| Accounts.channels_feishu := Some two_accounts_feishu |}.

(** Removing is answered with code 0; one identifier is turned down. *)
Definition net_removes : Api.Transport := λ _ _, Api.Resolved one_turned_down.
(** A fresh process: no client created, none registered.  The monitor the
    first start for [acct] returns, and the one a restart over [one_live]
    returns with the state it leaves. *)
Definition no_monitor : Monitor.World :=
  {| Monitor.activeClients := ∅; Monitor.sockets := [];
     Monitor.events := [] |}.

Definition first_monitor : Monitor.FeishuProviderMonitor :=
  {| Monitor.mon_account := acct; Monitor.mon_key := js "main:cli_test";
     Monitor.mon_client := 0 |}.

Definition second_monitor : Monitor.FeishuProviderMonitor :=
  {| Monitor.mon_account := acct; Monitor.mon_key := js "main:cli_test";
     Monitor.mon_client := 1 |}.

Definition restarted : Monitor.World :=
  (Monitor.monitorFeishuProvider true acct one_live).2.


(** The group-info request is turned down with an empty message text; the
    administrators request that follows lists the sender, and every later
    request is answered with code 0. *)
Definition lists_sender : Api.Response :=
  {| Api.code := Some 0; Api.msg := None;
     Api.data :=
       Some {| Api.owner_id := None; Api.data_name := None;
               Api.items :=
                 Some [ {| Api.member_id := None; Api.item_name := None;
                           Api.manager_id := Some (js "ou_sender");
                           Api.block_id := None; Api.block_type := None |} ];
               Api.member_list := None; Api.page_token := None;
               Api.has_more := None; Api.invalid_id_list := None;
               Api.not_existed_id_list := None; Api.revision := None;
               Api.content := None; Api.message_id := None |} |}.

Definition net_mute_then_admitted : Api.Transport :=
  λ n _,
    match n with
    | O => Api.Resolved {| Api.code := Some 99991663; Api.msg := Some [];
                           Api.data := None |}
    | S O => Api.Resolved lists_sender
    | _ => Api.Resolved ok_response
    end.

(** The sender owns the chat, whose announcement has been upgraded: the
    read of the classic announcement is rejected as the platform does for
    such a chat, the blocks of the upgraded one are listed with the root
    block, and the new block is accepted. *)
Definition docx_rejection : Api.Thrown :=
  {| Api.thrown_is_error := true; Api.thrown_is_object := true;
     Api.thrown_message := Some (js "Request failed with status code 400");
     Api.thrown_response_msg :=
       Some (js "the chat announcement is docx type");
     Api.thrown_response_code := Some 232097;
     Api.thrown_response_status := Some 400;
     Api.thrown_string := js "Error: Request failed with status code 400" |}.

Definition root_block : Api.Response :=
  {| Api.code := Some 0; Api.msg := None;
     Api.data :=
       Some {| Api.owner_id := None; Api.data_name := None;
               Api.items :=
                 Some [ {| Api.member_id := None; Api.item_name := None;
                           Api.manager_id := None;
                           Api.block_id := Some (js "blk_root");
                           Api.block_type := Some 1 |} ];
               Api.member_list := None; Api.page_token := None;
               Api.has_more := None; Api.invalid_id_list := None;
               Api.not_existed_id_list := None; Api.revision := None;
               Api.content := None; Api.message_id := None |} |}.

Definition net_docx : Api.Transport :=
  λ n _,
    match n with
    | O => Api.Resolved (owned_by (js "ou_sender"))
    | S O => Api.Rejected docx_rejection
    | S (S O) => Api.Resolved root_block
    | _ => Api.Resolved ok_response
    end.

(** A message that mentions Bob, someone without an id, someone without
    an open id, someone whose open id is empty, and Eve. *)
Definition mention (id : option Commands.MentionId) : Commands.Mention :=
  {| Commands.m_key := Some (js "@_user"); Commands.m_id := id;
     Commands.m_name := None |}.

Definition five_mentions : list Commands.Mention :=
  [ mention (Some {| Commands.open_id := Some (js "ou_bob") |});
    mention None;
    mention (Some {| Commands.open_id := None |});
    mention (Some {| Commands.open_id := Some [] |});
    mention (Some {| Commands.open_id := Some (js "ou_eve") |}) ].

(** Another user opens another chat, more than a minute later. *)
Definition entered_later : Handlers.FeishuUserEnteredChatEvent :=
  {| Handlers.ue_event_id := Some (js "evt_entered_2");
     Handlers.ue_chat_id := Some (js "oc_p2p_2");
     Handlers.ue_open_id := Some (js "ou_visitor_2") |}.

End Samples.

(** * Properties *)

Import Spec Samples.

(** ** Dedup cache *)

Section DedupFacts.

Import Dedup.

Implicit Types (m : gmap (list N) Z) (e k : list N) (c : call).

Lemma cleanup_lookup now m k ts :
  cleanupExpiredEventIds now m !! k = Some ts
  ↔ m !! k = Some ts ∧ now - ts ≤ EVENT_DEDUP_TTL.
Proof.
  unfold cleanupExpiredEventIds. rewrite map_lookup_filter_Some. simpl.
  split; intros [H1 H2]; split; auto; lia.
Qed.

Lemma isEventProcessed_new t_set t_sweep e m :
  e ≠ [] → m !! e = None →
  isEventProcessed t_set t_sweep (Some e) m
  = (false, cleanupExpiredEventIds t_sweep (<[e := t_set]> m)).
Proof.
  intros He Hm. unfold isEventProcessed.
  destruct e as [|a e']; [congruence|]. simpl.
  destruct (decide (is_Some (m !! (a :: e')))) as [[x Hx]|_]; [congruence|done].
Qed.

Lemma isEventProcessed_present t_set t_sweep e m :
  e ≠ [] → is_Some (m !! e) →
  isEventProcessed t_set t_sweep (Some e) m = (true, m).
Proof.
  intros He Hm. unfold isEventProcessed.
  destruct e as [|a e']; [congruence|]. simpl.
  destruct (decide (is_Some (m !! (a :: e')))); [done|contradiction].
Qed.

Lemma isEventProcessed_absent_id t_set t_sweep eventId m :
  JS.truthy_opt eventId = false →
  isEventProcessed t_set t_sweep eventId m = (false, m).
Proof. intros H. unfold isEventProcessed. by rewrite H. Qed.

(** An entry recorded at [t0] survives every call whose sweep reads the
    clock no later than [t0 + EVENT_DEDUP_TTL]. *)
Lemma do_call_keeps e t0 c m :
  m !! e = Some t0 →
  call_sweep c - t0 ≤ EVENT_DEDUP_TTL →
  (do_call c m).2 !! e = Some t0.
Proof.
  intros Hm Hc. unfold do_call, isEventProcessed.
  destruct (negb (JS.truthy_opt (call_id c))); [done|].
  destruct (call_id c) as [e'|]; [|done].
  destruct (decide (is_Some (m !! e'))) as [|Hno]; [done|]. simpl.
  apply cleanup_lookup. split; [|done].
  rewrite lookup_insert_ne; [done|].
  intros ->. apply Hno. by rewrite Hm.
Qed.

Lemma run_calls_answers e t0 cs : ∀ m,
  e ≠ [] →
  m !! e = Some t0 →
  Forall (λ c, call_sweep c - t0 ≤ EVENT_DEDUP_TTL) cs →
  ∀ i c, cs !! i = Some c → call_id c = Some e →
         (run_calls cs m).1 !! i = Some true.
Proof.
  induction cs as [|c0 cs IH]; intros m He Hm Hall i c Hi Hid.
  - by rewrite lookup_nil in Hi.
  - apply Forall_cons in Hall as [Hc0 Hall]. simpl.
    pose proof (do_call_keeps e t0 c0 m Hm Hc0) as Hkeep.
    destruct (do_call c0 m) as [r m1] eqn:Hdo.
    destruct (run_calls cs m1) as [rs m2] eqn:Hrun. simpl in *.
    destruct i as [|i]; simpl in *.
    + inversion Hi; subst c0.
      unfold do_call in Hdo. rewrite Hid in Hdo.
      rewrite isEventProcessed_present in Hdo; [|done|by rewrite Hm].
      by inversion Hdo.
    + specialize (IH m1 He Hkeep Hall i c Hi Hid).
      by rewrite Hrun in IH.
Qed.

(** C1.  A non-empty identifier [e] that the cache does not hold is answered
    [false] and recorded; every later call for [e] is answered [true], as
    long as the calls made in between (for any identifiers) read the clock
    within [EVENT_DEDUP_TTL] = 60000 ms of the recorded timestamp. *)
Theorem first_call_false_later_calls_true
    (e : list N) (m : gmap (list N) Z) (t0 t0' : Z) (cs : list call) :
  e ≠ [] →
  m !! e = None →
  t0' - t0 ≤ EVENT_DEDUP_TTL →
  Forall (λ c, call_sweep c - t0 ≤ EVENT_DEDUP_TTL) cs →
  (isEventProcessed t0 t0' (Some e) m).1 = false
  ∧ ∀ i c, cs !! i = Some c → call_id c = Some e →
      (run_calls cs (isEventProcessed t0 t0' (Some e) m).2).1 !! i
      = Some true.
Proof.
  intros He Hm Ht Hall.
  rewrite isEventProcessed_new by done. split; [done|]. simpl.
  apply (run_calls_answers e t0); try done.
  apply cleanup_lookup. split; [apply lookup_insert_eq | lia].
Qed.

(** C2, as amended.  The sweep belongs to the recording path only: a call
    with a non-empty identifier the cache does not hold leaves exactly the
    entries (the new one included) whose age at the sweep is at most
    [EVENT_DEDUP_TTL]; a call with an absent or empty identifier, or with an
    identifier the cache already holds, leaves the cache as it was. *)
Theorem sweep_only_when_recording (t_set t_sweep : Z) (m : gmap (list N) Z) :
  (∀ e, e ≠ [] → m !! e = None →
     ∀ k ts, (isEventProcessed t_set t_sweep (Some e) m).2 !! k = Some ts
             ↔ <[e := t_set]> m !! k = Some ts
               ∧ t_sweep - ts ≤ EVENT_DEDUP_TTL)
  ∧ (∀ eventId,
       eventId = None ∨ eventId = Some []
       ∨ (∃ e, eventId = Some e ∧ is_Some (m !! e)) →
       (isEventProcessed t_set t_sweep eventId m).2 = m).
Proof.
  split.
  - intros e He Hm k ts. rewrite isEventProcessed_new by done.
    apply cleanup_lookup.
  - intros eventId [->|[->|(e & -> & He)]]; [done|done|].
    destruct e as [|a e']; [done|].
    by rewrite isEventProcessed_present.
Qed.

(** C9.  An absent identifier ([undefined] or the empty string) is answered
    [false] and the cache is returned as it was. *)
Theorem absent_id_false_cache_unchanged
    (t_set t_sweep : Z) (m : gmap (list N) Z) :
  isEventProcessed t_set t_sweep None m = (false, m)
  ∧ isEventProcessed t_set t_sweep (Some []) m = (false, m).
Proof. split; reflexivity. Qed.

End DedupFacts.

(** C2, as stated, fails: a call for an identifier the cache holds returns
    before the sweep, and so does a call without identifier; the entry of
    age 100000 ms stays. *)
Lemma sweep_skipped_on_hit_and_on_absent_id :
  ¬ (∀ k ts,
       (Dedup.isEventProcessed 100000 100000 (Some (js "old")) stale_cache).2
         !! k = Some ts →
       100000 - ts ≤ Dedup.EVENT_DEDUP_TTL)
  ∧ ¬ (∀ k ts,
         (Dedup.isEventProcessed 100000 100000 None stale_cache).2 !! k
         = Some ts →
         100000 - ts ≤ Dedup.EVENT_DEDUP_TTL).
Proof.
  split; intros H; specialize (H (js "old") 0);
    (assert (100000 - 0 ≤ Dedup.EVENT_DEDUP_TTL) as Hle
       by (apply H; vm_compute; reflexivity));
    unfold Dedup.EVENT_DEDUP_TTL in Hle; lia.
Qed.

Lemma first_call_false_later_calls_true_witness :
  (Dedup.isEventProcessed 1000 1000 (Some (js "event-a")) ∅).1 = false
  ∧ ∀ i c, sample_calls !! i = Some c →
      Dedup.call_id c = Some (js "event-a") →
      (Dedup.run_calls sample_calls
         (Dedup.isEventProcessed 1000 1000 (Some (js "event-a")) ∅).2).1 !! i
      = Some true.
Proof.
  apply (first_call_false_later_calls_true (js "event-a") ∅ 1000 1000
           sample_calls).
  - vm_compute. discriminate.
  - apply lookup_empty.
  - unfold Dedup.EVENT_DEDUP_TTL. lia.
  - unfold sample_calls, Dedup.EVENT_DEDUP_TTL.
    repeat constructor; simpl; lia.
Defined.

Lemma sweep_only_when_recording_witness :
  (∀ k ts,
     (Dedup.isEventProcessed 100000 100000 (Some (js "new")) stale_cache).2
       !! k = Some ts
     ↔ <[js "new" := 100000]> stale_cache !! k = Some ts
       ∧ 100000 - ts ≤ Dedup.EVENT_DEDUP_TTL)
  ∧ (Dedup.isEventProcessed 100000 100000 (Some (js "old")) stale_cache).2
    = stale_cache.
Proof.
  destruct (sweep_only_when_recording 100000 100000 stale_cache) as [H1 H2].
  split.
  - apply H1; [vm_compute; discriminate | vm_compute; reflexivity].
  - apply H2. right. right. exists (js "old").
    split; [reflexivity | exists 0; vm_compute; reflexivity].
Defined.

(** ** Command parser *)

Section ParserFacts.

Import Commands.

Lemma prefix_table_flat : prefix_table = flatten_prefixes COMMAND_PREFIXES.
Proof. reflexivity. Qed.

Lemma startsWith_prefix (s p : list N) :
  JS.startsWith s p = true ↔ p `prefix_of` s.
Proof.
  revert s. induction p as [|a p IH]; intros s.
  - destruct s; simpl; (split; [intros _; apply prefix_nil | done]).
  - destruct s as [|b s]; simpl.
    + split; [done|]. intros [k Hk]. discriminate.
    + rewrite andb_true_iff, N.eqb_eq, IH. split.
      * intros [-> Hp]. by apply prefix_cons.
      * intros [k Hk]. simplify_eq/=. split; [done|]. by exists k.
Qed.

Lemma startsWith_not_prefix (s p : list N) :
  JS.startsWith s p = false ↔ ¬ p `prefix_of` s.
Proof. rewrite <- startsWith_prefix. by destruct (JS.startsWith s p). Qed.

Lemma try_prefixes_outcome ty ps t ms :
  outcome_of (map (pair ty) ps) t ms (try_prefixes ty ps t ms).
Proof.
  induction ps as [|p ps IH]; simpl.
  - intros tp Htp. by apply elem_of_nil in Htp.
  - destruct (JS.startsWith t p) eqn:Hsw.
    + exists 0%nat, ty, p. split; [|done].
      split; [done|]. split; [by apply startsWith_prefix|]. intros; lia.
    + apply startsWith_not_prefix in Hsw.
      destruct (try_prefixes ty ps t ms) as [c|]; simpl in *.
      * destruct IH as (i & ty' & p' & (Hi & Hp & Hmin) & ->).
        exists (S i), ty', p'. split; [|done].
        split; [done|]. split; [done|].
        intros [|j] tp Hj Htp; simpl in Htp.
        -- by inversion Htp.
        -- apply (Hmin j); [lia|done].
      * intros tp [->|Htp]%elem_of_cons; [done|by apply IH].
Qed.

Lemma scan_commands_outcome entries t ms :
  outcome_of (flatten_prefixes entries) t ms (scan_commands entries t ms).
Proof.
  induction entries as [|[ty ps] entries IH]; simpl.
  - intros tp Htp. by apply elem_of_nil in Htp.
  - pose proof (try_prefixes_outcome ty ps t ms) as Hin.
    unfold flatten_prefixes. simpl. fold (flatten_prefixes entries).
    destruct (try_prefixes ty ps t ms) as [c|]; simpl in *.
    + destruct Hin as (i & ty' & p' & (Hi & Hp & Hmin) & ->).
      exists i, ty', p'. split; [|done].
      split; [by apply lookup_app_l_Some|]. split; [done|].
      intros j tp Hj Htp. apply (Hmin j tp Hj).
      rewrite lookup_app_l in Htp; [done|].
      apply lookup_lt_Some in Hi. lia.
    + destruct (scan_commands entries t ms) as [c|]; simpl in *.
      * destruct IH as (i & ty' & p' & (Hi & Hp & Hmin) & ->).
        exists (length (map (pair ty) ps) + i)%nat, ty', p'.
        split; [|done].
        split; [by rewrite lookup_app_r, Nat.add_comm, Nat.add_sub by lia|].
        split; [done|].
        intros j tp Hj Htp.
        destruct (decide (j < length (map (pair ty) ps))%nat) as [Hlt|Hge].
        -- rewrite lookup_app_l in Htp by done.
           apply Hin. by eapply list_elem_of_lookup_2.
        -- rewrite lookup_app_r in Htp by lia.
           apply (Hmin (j - length (map (pair ty) ps))%nat); [lia|done].
      * intros tp [Htp|Htp]%elem_of_app; [by apply Hin | by apply IH].
Qed.

Lemma parseCommand_outcome text ms :
  outcome_of prefix_table (JS.trim text) ms (parseCommand text ms).
Proof. rewrite prefix_table_flat. apply scan_commands_outcome. Qed.

Lemma first_match_unique tbl t i ty p i' ty' p' :
  first_match tbl t i ty p → first_match tbl t i' ty' p' →
  ty = ty' ∧ p = p'.
Proof.
  intros (Hi & Hp & Hmin) (Hi' & Hp' & Hmin').
  destruct (lt_eq_lt_dec i i') as [[Hlt| ->]|Hgt].
  - exfalso. by apply (Hmin' i (ty, p) Hlt Hi).
  - rewrite Hi in Hi'. by inversion Hi'.
  - exfalso. by apply (Hmin i' (ty', p') Hgt Hi').
Qed.

(** C3.  [parseCommand] answers with a command exactly when the trimmed
    text starts, at position 0, with one of the nine literal prefixes; the
    first prefix of the table that matches gives the type, and [args] is the
    rest of the trimmed text, trimmed again.  No word boundary is asked
    for: ["/公告世界"] is an announcement with args ["世界"], and a prefix
    that is not at position 0 (["公告内容"], ["请/公告 x"]) gives [null]. *)
Theorem parseCommand_prefix_anchored :
  (∀ text ms,
     is_Some (parseCommand text ms)
     ↔ ∃ ty p, (ty, p) ∈ prefix_table ∧ p `prefix_of` JS.trim text)
  ∧ (∀ text ms i ty p rest,
       prefix_table !! i = Some (ty, p) →
       JS.trim text = p ++ rest →
       (∀ j tp, (j < i)%nat → prefix_table !! j = Some tp →
                ¬ tp.2 `prefix_of` JS.trim text) →
       parseCommand text ms
       = Some (mkParsed ty (JS.trim rest) (extract_mentioned ms)))
  ∧ parseCommand (js "/公告世界") []
    = Some (mkParsed announcement (js "世界") [])
  ∧ parseCommand (js "/公告 text") []
    = Some (mkParsed announcement (js "text") [])
  ∧ parseCommand (js "公告内容") [] = None
  ∧ parseCommand (js "请/公告 x") [] = None.
Proof.
  split; [|split; [|by vm_compute]].
  - intros text ms. pose proof (parseCommand_outcome text ms) as H.
    destruct (parseCommand text ms) as [c|]; simpl in H.
    + split; [|by eauto]. intros _.
      destruct H as (i & ty & p & (Hi & Hp & _) & _).
      exists ty, p. split; [by eapply list_elem_of_lookup_2 | done].
    + split; [by intros [? ?]|].
      intros (ty & p & Hin & Hp). exfalso. by apply (H (ty, p)).
  - intros text ms i ty p rest Hi Ht Hmin.
    assert (first_match prefix_table (JS.trim text) i ty p) as Hfm.
    { split; [done|]. split; [|done]. rewrite Ht. by apply prefix_app_r. }
    pose proof (parseCommand_outcome text ms) as H.
    destruct (parseCommand text ms) as [c|]; simpl in H.
    + destruct H as (i' & ty' & p' & Hfm' & ->).
      destruct (first_match_unique _ _ _ _ _ _ _ _ Hfm Hfm') as [<- <-].
      unfold built. by rewrite Ht, drop_app_length.
    + exfalso. destruct Hfm as (_ & Hp & _).
      apply (H (ty, p)); [by eapply list_elem_of_lookup_2 | done].
Qed.

End ParserFacts.

(** ** Sender allow-list *)

Section AllowListFacts.

Import AllowList.

Lemma match_literal_i_Some (pat s r : list N) :
  match_literal_i pat s = Some r
  ↔ ∃ p', s = p' ++ r ∧ same_ignoring_case p' pat.
Proof.
  unfold same_ignoring_case. revert s.
  induction pat as [|a pat IH]; intros s.
  - destruct s; simpl.
    + split.
      * intros [= <-]. by exists [].
      * intros ([|??] & Hs & Hp); simplify_eq/=. done.
    + split.
      * intros [= <-]. by exists [].
      * intros ([|??] & Hs & Hp); simplify_eq/=. done.
  - destruct s as [|c s]; simpl.
    + split; [done|]. intros ([|??] & Hs & Hp); simplify_eq/=.
    + destruct (N.eqb_spec (canonicalize a) (canonicalize c)) as [Heq|Hne].
      * rewrite IH. split.
        -- intros (p' & -> & Hp). exists (c :: p'). simpl.
           split; [done|]. by rewrite Heq, Hp.
        -- intros ([|c' p'] & Hs & Hp); simplify_eq/=. by exists p'.
      * split; [done|].
        intros ([|c' p'] & Hs & Hp); simplify_eq/=.
Qed.

Lemma match_alternatives_Some alts s r :
  match_alternatives alts s = Some r →
  ∃ alt p', alt ∈ alts ∧ s = p' ++ r ∧ same_ignoring_case p' (alt ++ js ":").
Proof.
  induction alts as [|alt alts IH]; simpl; [done|].
  destruct (match_literal_i (alt ++ js ":") s) as [r'|] eqn:Hm.
  - intros [= ->]. apply match_literal_i_Some in Hm as (p' & -> & Hp).
    exists alt, p'. split; [apply list_elem_of_here|done].
  - intros (alt' & p' & Hin & Hs & Hp)%IH.
    exists alt', p'. split; [by apply list_elem_of_further|done].
Qed.

Lemma match_alternatives_None alts s :
  match_alternatives alts s = None →
  ∀ alt, alt ∈ alts → match_literal_i (alt ++ js ":") s = None.
Proof.
  induction alts as [|alt0 alts IH]; simpl; intros H alt Hin.
  - by apply elem_of_nil in Hin.
  - destruct (match_literal_i (alt0 ++ js ":") s) eqn:Hm; [done|].
    apply elem_of_cons in Hin as [->|Hin]; [done|by apply IH].
Qed.

Lemma id_prefixes_alternatives (p : list N) :
  p ∈ id_prefixes ↔ ∃ alt, alt ∈ prefix_alternatives ∧ p = alt ++ js ":".
Proof.
  unfold id_prefixes, prefix_alternatives. split.
  - rewrite !elem_of_cons, elem_of_nil.
    intros [->|[->|[->|[]]]];
      [exists (js "feishu")|exists (js "user")|exists (js "ou_")];
      (split; [|reflexivity]); rewrite !elem_of_cons; auto.
  - intros (alt & Hin & ->). revert Hin. rewrite !elem_of_cons, elem_of_nil.
    intros [->|[->|[->|[]]]]; auto.
Qed.

(** A string that starts like one prefix does not start like another: the
    first letters f, u and o differ. *)
Lemma head_decides (p q p' q' r r' : list N) :
  p ∈ id_prefixes → q ∈ id_prefixes →
  same_ignoring_case p' p → same_ignoring_case q' q →
  p' ++ r = q' ++ r' → p = q.
Proof.
  unfold id_prefixes, same_ignoring_case.
  rewrite !elem_of_cons, !elem_of_nil.
  intros [->|[->|[->|[]]]] [->|[->|[->|[]]]] Hp Hq Heq; try reflexivity;
    destruct p' as [|c p']; try discriminate Hp;
    destruct q' as [|d q']; try discriminate Hq;
    simpl in Heq; injection Heq as <- _;
    vm_compute in Hp; vm_compute in Hq;
    injection Hp as Hp _; injection Hq as Hq _; congruence.
Qed.

Lemma stripped_replace (s r : list N) :
  stripped s r ↔ replace_id_prefix s = r.
Proof.
  unfold replace_id_prefix. split.
  - intros [p p' r0 Hin Hci | s0 Hnone].
    + destruct (match_alternatives prefix_alternatives (p' ++ r0))
        as [r1|] eqn:Hm.
      * apply match_alternatives_Some in Hm as (alt & q' & Halt & Hs & Hq).
        assert (p = alt ++ js ":") as ->.
        { eapply (head_decides _ _ p' q'); eauto.
          apply id_prefixes_alternatives. eauto. }
        apply app_inj_1 in Hs as [_ ->]; [done|].
        unfold same_ignoring_case in *.
        rewrite <- (length_map canonicalize p'), Hci, <- Hq.
        by rewrite length_map.
      * apply id_prefixes_alternatives in Hin as (alt & Halt & ->).
        pose proof (match_alternatives_None _ _ Hm alt Halt) as Hno.
        assert (match_literal_i (alt ++ js ":") (p' ++ r0) = Some r0) as Hyes
          by (apply match_literal_i_Some; eauto).
        congruence.
    + destruct (match_alternatives prefix_alternatives s0) as [r1|] eqn:Hm;
        [|done].
      apply match_alternatives_Some in Hm as (alt & q' & Halt & Hs & Hq).
      exfalso. eapply (Hnone (alt ++ js ":") q' r1); eauto.
      apply id_prefixes_alternatives. eauto.
  - intros <-.
    destruct (match_alternatives prefix_alternatives s) as [r1|] eqn:Hm.
    + apply match_alternatives_Some in Hm as (alt & q' & Halt & -> & Hq).
      apply (stripped_prefix (alt ++ js ":")); [|done].
      apply id_prefixes_alternatives. eauto.
    + apply stripped_nothing. intros p p' r0 Hin Hci ->.
      apply id_prefixes_alternatives in Hin as (alt & Halt & ->).
      pose proof (match_alternatives_None _ _ Hm alt Halt) as Hno.
      assert (match_literal_i (alt ++ js ":") (p' ++ r0) = Some r0) as Hyes
        by (apply match_literal_i_Some; eauto).
      congruence.
Qed.

(** C10.  Whatever the sender, an undefined or empty allow-list admits it;
    otherwise the sender is admitted exactly when some entry of the list and
    the sender id, both lowercased and both without their leading
    ["feishu:"], ["user:"] or ["ou_:"] prefix (one prefix at most, matched
    without regard to case), are the same string. *)
Theorem isSenderAllowed_normalised_membership
    (toLowerCase : list N → list N) (senderId : list N)
    (allowFrom : option (list (list N))) :
  isSenderAllowed toLowerCase senderId None = true
  ∧ isSenderAllowed toLowerCase senderId (Some []) = true
  ∧ (isSenderAllowed toLowerCase senderId allowFrom = true
     ↔ allowFrom = None ∨ allowFrom = Some []
       ∨ ∃ l entry r,
           allowFrom = Some l ∧ entry ∈ l
           ∧ stripped (toLowerCase entry) r
           ∧ stripped (toLowerCase senderId) r).
Proof.
  split; [done|]. split; [done|].
  destruct allowFrom as [[|e0 l]|]; simpl.
  - split; auto.
  - rewrite orb_true_iff, !bool_decide_eq_true.
    fold (existsb (λ entry,
            bool_decide (normalizeId toLowerCase entry
                         = normalizeId toLowerCase senderId)) l).
    rewrite existsb_exists. unfold normalizeId. split.
    + intros H. right. right.
      destruct H as [H|(entry & Hin & H)].
      * exists (e0 :: l), e0, (replace_id_prefix (toLowerCase senderId)).
        split; [done|]. split; [apply list_elem_of_here|].
        by rewrite !stripped_replace.
      * apply bool_decide_eq_true in H.
        exists (e0 :: l), entry, (replace_id_prefix (toLowerCase senderId)).
        split; [done|].
        split; [by apply list_elem_of_further, list_elem_of_In|].
        by rewrite !stripped_replace.
    + intros [?|[?|(l' & entry & r & [= <-] & Hin & He & Hs)]]; try done.
      apply stripped_replace in He, Hs.
      apply elem_of_cons in Hin as [->|Hin].
      * left. congruence.
      * right. exists entry. split; [by apply list_elem_of_In|].
        apply bool_decide_eq_true. congruence.
  - split; auto.
Qed.

(** The cases of [monitor.test.ts]. *)
Example isSenderAllowed_tests :
  isSenderAllowed ascii_toLowerCase (js "ou_ABC123") (Some [js "ou_abc123"])
  = true
  ∧ isSenderAllowed ascii_toLowerCase (js "OU_abc123") (Some [js "ou_ABC123"])
    = true
  ∧ isSenderAllowed ascii_toLowerCase (js "ou_123456")
      (Some [js "feishu:ou_123456"]) = true
  ∧ isSenderAllowed ascii_toLowerCase (js "user:ou_123456")
      (Some [js "ou_123456"]) = true
  ∧ isSenderAllowed ascii_toLowerCase (js "ou_123456")
      (Some [js "ou_111111"; js "ou_222222"]) = false
  ∧ isSenderAllowed ascii_toLowerCase (js "feishu:user:x") (Some [js "x"])
    = false.
Proof. by vm_compute. Qed.

End AllowListFacts.

(** ** WebSocket client registry *)

Section MonitorFacts.

Import Monitor.

Lemma filter_all_false {A} (f : A → bool) (l : list A) :
  (∀ x, x ∈ l → f x = false) → List.filter f l = [].
Proof.
  induction l as [|a l IH]; intros H; simpl; [done|].
  rewrite (H a) by apply list_elem_of_here.
  apply IH. intros x Hx. apply H. by apply list_elem_of_further.
Qed.

Lemma filter_seq_singleton (f : nat → bool) (n x : nat) :
  (x < n)%nat →
  (∀ i, (i < n)%nat → f i = true ↔ i = x) →
  List.filter f (seq 0 n) = [x].
Proof.
  intros Hx Hf.
  assert (seq 0 n = seq 0 x ++ [x] ++ seq (S x) (n - S x)) as ->.
  { replace n with (x + S (n - S x))%nat at 1 by lia.
    by rewrite seq_app. }
  rewrite !List.filter_app. simpl.
  assert (f x = true) as -> by (by apply Hf).
  rewrite !filter_all_false; [done| |].
  - intros i Hi. apply elem_of_seq in Hi.
    destruct (f i) eqn:E; [|done]. apply Hf in E; lia.
  - intros i Hi. apply elem_of_seq in Hi.
    destruct (f i) eqn:E; [|done]. apply Hf in E; lia.
Qed.

Lemma live_for_singleton (h : list N * list N) (w : World) (x : nat) :
  (x < length (sockets w))%nat →
  (∀ i c, sockets w !! i = Some c →
          (ws_handle c = h ∧ ws_status c = Started) ↔ i = x) →
  live_for h w = [x].
Proof.
  intros Hx H. unfold live_for. apply filter_seq_singleton; [done|].
  intros i Hi. destruct (lookup_lt_is_Some_2 _ _ Hi) as [c Hc].
  rewrite Hc, bool_decide_eq_true. by apply H.
Qed.

(** With incomplete credentials the call throws before it touches the
    registry. *)
Lemma monitor_fails_fast has_stop (account : Api.Account) (w : World) :
  ¬ credentials_complete account →
  ∃ e, monitorFeishuProvider has_stop account w = (inr e, w).
Proof.
  intros H. unfold monitorFeishuProvider, credentials_complete in *.
  destruct (JS.truthy_opt (Api.appId account)),
           (JS.truthy_opt (Api.appSecret account)); simpl; eauto.
  exfalso. by apply H.
Qed.

(** A restart with an SDK whose [stop()] returns, for a handle whose
    started client is the registered one: that client is stopped and taken
    out of the registry, and only then the new client is created,
    registered and started; the new client is then the one live connection
    of the handle. *)
Lemma restart_stops_then_starts
    (account : Api.Account) (w : World) (existing : nat) (c : WSClient) :
  credentials_complete account →
  registry_tracks_live w →
  sockets w !! existing = Some c →
  ws_handle c = handle_of account →
  ws_status c = Started →
  ∃ mon w',
    monitorFeishuProvider true account w = (inl mon, w')
    ∧ mon_client mon = length (sockets w)
    ∧ events w'
      = events w
        ++ [ EvStop existing; EvDelete (key_of (handle_of account));
             EvNew (length (sockets w));
             EvSet (key_of (handle_of account)) (length (sockets w));
             EvStart (length (sockets w));
             EvOnAbort (key_of (handle_of account)) (length (sockets w)) ]
    ∧ activeClients w' !! key_of (handle_of account)
      = Some (length (sockets w))
    ∧ ws_status <$> sockets w' !! existing = Some Stopped
    ∧ live_for (handle_of account) w = [existing]
    ∧ live_for (handle_of account) w' = [length (sockets w)]
    ∧ registry_tracks_live w'.
Proof.
  intros [Hid Hsec] Htr Hex Hh Hst.
  pose proof (Htr existing c Hex Hst) as Hreg. rewrite Hh in Hreg.
  pose proof (lookup_lt_Some _ _ _ Hex) as Hlt.
  unfold monitorFeishuProvider. rewrite Hid, Hsec. simpl.
  change (clientKey (Api.accountId account) (Api.show_str (Api.appId account)))
    with (key_of (handle_of account)).
  rewrite Hreg. simpl. rewrite length_alter.
  assert (∀ i, alter (set_status Started) (length (sockets w))
                 (alter (set_status Stopped) existing (sockets w)
                  ++ [{| ws_handle := (Api.accountId account,
                                       Api.show_str (Api.appId account));
                         ws_status := Created |}]) !! i
               = if decide (i = length (sockets w)) then
                   Some {| ws_handle := handle_of account;
                           ws_status := Started |}
                 else if decide (i = existing) then
                   Some (set_status Stopped c)
                 else sockets w !! i) as Hsock.
  { intros i. rewrite alter_app_r_alt by (rewrite length_alter; lia).
    rewrite length_alter, Nat.sub_diag. simpl.
    destruct (decide (i = length (sockets w))) as [->|Hn].
    - rewrite lookup_app_r by (rewrite length_alter; lia).
      by rewrite length_alter, Nat.sub_diag.
    - destruct (decide (i < length (sockets w))%nat) as [Hi|Hi].
      + rewrite lookup_app_l by (rewrite length_alter; lia).
        destruct (decide (i = existing)) as [->|He].
        * by rewrite list_lookup_alter_eq, Hex.
        * by rewrite list_lookup_alter_ne.
      + rewrite lookup_app_r by (rewrite length_alter; lia).
        rewrite length_alter.
        destruct (decide (i = existing)) as [->|He]; [lia|].
        destruct (i - length (sockets w))%nat as [|k] eqn:Hk; [lia|]. simpl.
        symmetry. apply lookup_ge_None_2. lia. }
  eexists _, _. split; [reflexivity|]. simpl.
  split; [done|]. split; [by rewrite <- !app_assoc|].
  split; [by rewrite lookup_insert_eq|].
  split.
  { rewrite Hsock. destruct (decide (existing = length (sockets w))); [lia|].
    destruct (decide (existing = existing)); [done|congruence]. }
  split.
  { apply live_for_singleton; [done|]. intros i c' Hi. split.
    - intros [Hh' Hst']. pose proof (Htr i c' Hi Hst') as Hreg'.
      rewrite Hh' in Hreg'. congruence.
    - intros ->. rewrite Hex in Hi. inversion Hi; subst c'. by split. }
  split.
  { apply live_for_singleton; simpl.
    - rewrite length_alter, length_app, length_alter. simpl. lia.
    - intros i c' Hi. rewrite Hsock in Hi.
      destruct (decide (i = length (sockets w))) as [->|Hn].
      + inversion Hi; subst c'. simpl. split; auto.
      + destruct (decide (i = existing)) as [->|He].
        * inversion Hi; subst c'. simpl. split; [|done].
          intros [_ [=]].
        * split; [|done]. intros [Hh' Hst'].
          pose proof (Htr i c' Hi Hst') as Hreg'.
          rewrite Hh' in Hreg'. congruence. }
  intros i c' Hi Hst'. simpl in *. rewrite Hsock in Hi.
  destruct (decide (i = length (sockets w))) as [->|Hn].
  - inversion Hi; subst c'. simpl. by rewrite lookup_insert_eq.
  - destruct (decide (i = existing)) as [->|He].
    + inversion Hi; subst c'. by simpl in Hst'.
    + pose proof (Htr i c' Hi Hst') as Hreg'.
      destruct (decide (key_of (ws_handle c') = key_of (handle_of account)))
        as [Hk|Hk].
      * rewrite Hk in Hreg'. congruence.
      * rewrite lookup_insert_ne by done. by rewrite lookup_delete_ne.
Qed.

End MonitorFacts.


(** ** Outbound API wrappers *)

Section ApiFacts.

Import Api.

Variable net : Transport.

Implicit Types (w : World) (account : Account).

Lemma getFeishuClient_cached account w :
  cached account w → getFeishuClient account w = (Val tt, w).
Proof.
  intros H. unfold getFeishuClient.
  destruct (decide (show_str (appId account) ∈ clientCache w)); done.
Qed.

Lemma getFeishuClient_available account w :
  client_available account w = true →
  ∃ w1, getFeishuClient account w = (Val tt, w1)
        ∧ sent w1 = sent w ∧ cached account w1.
Proof.
  unfold client_available, cached, getFeishuClient. intros H.
  destruct (decide (show_str (appId account) ∈ clientCache w)) as [Hc|Hc].
  - eauto.
  - rewrite bool_decide_eq_false_2 in H by done. simpl in H.
    apply andb_true_iff in H as [-> ->]. simpl.
    eexists. split; [reflexivity|]. simpl. split; [done|]. set_solver.
Qed.

Lemma getFeishuClient_unavailable account w :
  client_available account w = false →
  getFeishuClient account w = (Exn credentials_error, w).
Proof.
  unfold client_available, cached, getFeishuClient. intros H.
  apply orb_false_iff in H as [Hc H].
  apply bool_decide_eq_false in Hc.
  destruct (decide (show_str (appId account) ∈ clientCache w)); [done|].
  apply andb_false_iff in H as [-> | ->]; simpl; [done|].
  by rewrite orb_true_r.
Qed.

Lemma available_of_cached account w :
  cached account w → client_available account w = true.
Proof.
  intros H. unfold client_available. by rewrite bool_decide_eq_true_2.
Qed.

(** *** Broadcast *)

Lemma sendFeishuMessage_cached account chatId text w :
  cached account w →
  sendFeishuMessage net account chatId text (js "chat_id") w
  = (Val (send_result_of (net (length (sent w)) (send_request chatId text))),
     after_request (send_request chatId text) w).
Proof.
  intros Hc. unfold sendFeishuMessage, try_catch, bind.
  rewrite getFeishuClient_cached by done.
  unfold request. fold (send_request chatId text).
  destruct (net (length (sent w)) (send_request chatId text)) as [r|e];
    simpl; [|done].
  by destruct (code_is_zero r).
Qed.

Lemma sendFeishuMessage_available account chatId text w :
  client_available account w = true →
  ∃ w1, sendFeishuMessage net account chatId text (js "chat_id") w
        = (Val (send_result_of
                  (net (length (sent w)) (send_request chatId text))), w1)
        ∧ sent w1 = sent w ++ [send_request chatId text]
        ∧ cached account w1.
Proof.
  intros Ha. destruct (getFeishuClient_available _ _ Ha) as (w1 & E & Hs & Hc).
  unfold sendFeishuMessage, try_catch, bind. rewrite E.
  unfold request. fold (send_request chatId text). rewrite Hs.
  destruct (net (length (sent w)) (send_request chatId text)) as [r|e];
    simpl.
  - destruct (code_is_zero r); simpl;
      (eexists; split; [reflexivity|]; simpl; split; [done|exact Hc]).
  - eexists; split; [reflexivity|]; simpl; split; [done|exact Hc].
Qed.

Lemma sendFeishuMessage_unavailable account chatId text w :
  client_available account w = false →
  sendFeishuMessage net account chatId text (js "chat_id") w
  = (Val (send_result_of (Rejected credentials_error)), w).
Proof.
  intros Ha. unfold sendFeishuMessage, try_catch, bind.
  by rewrite getFeishuClient_unavailable.
Qed.

Lemma send_each_cached account text gs : ∀ w,
  cached account w →
  ∃ w', send_each net account gs text w
        = (Val (map settled_of (answers net (length (sent w)) text gs)), w')
        ∧ sent w' = sent w ++ map (λ g, send_request g text) gs.
Proof.
  induction gs as [|g gs IH]; intros w Hc; simpl.
  - exists w. by rewrite app_nil_r.
  - unfold bind, settle. rewrite sendFeishuMessage_cached by done.
    destruct (IH (after_request (send_request g text) w)) as (w' & E & Hs);
      [done|].
    simpl in E, Hs. rewrite length_app in E. simpl in E.
    rewrite Nat.add_1_r in E. rewrite E. simpl.
    exists w'. split; [done|]. by rewrite Hs, <- app_assoc.
Qed.

Lemma send_each_available account text gs w :
  client_available account w = true →
  ∃ w', send_each net account gs text w
        = (Val (map settled_of (answers net (length (sent w)) text gs)), w')
        ∧ sent w' = sent w ++ map (λ g, send_request g text) gs.
Proof.
  intros Ha. destruct gs as [|g gs]; simpl.
  - exists w. by rewrite app_nil_r.
  - destruct (sendFeishuMessage_available account g text w Ha)
      as (w1 & E & Hs & Hc).
    unfold bind, settle. rewrite E.
    destruct (send_each_cached account text gs w1 Hc) as (w' & E' & Hs').
    rewrite Hs, length_app in E'. simpl in E'. rewrite Nat.add_1_r in E'.
    rewrite E'. simpl. exists w'. split; [done|].
    by rewrite Hs', Hs, <- app_assoc.
Qed.

Lemma send_each_unavailable account text gs w :
  client_available account w = false →
  send_each net account gs text w
  = (Val (map settled_of
            (map (λ g, (g, Rejected credentials_error)) gs)), w).
Proof.
  intros Ha. induction gs as [|g gs IH]; simpl; [done|].
  unfold bind, settle. rewrite sendFeishuMessage_unavailable by done.
  by rewrite IH.
Qed.

Lemma tally_counts (outs : list (list N * Outcome)) : ∀ pre acc,
  tally (pre ++ map fst outs) (map settled_of outs) (length pre) acc
  = {| successCount :=
         successCount acc
         + length (List.filter (λ x, answer_ok x.2) outs);
       failedCount :=
         failedCount acc
         + length (List.filter (λ x, negb (answer_ok x.2)) outs);
       errors :=
         errors acc
         ++ map failure_entry
              (List.filter (λ x, negb (answer_ok x.2)) outs) |}.
Proof.
  induction outs as [|[g o] outs IH]; intros pre acc; simpl.
  - rewrite !Nat.add_0_r, app_nil_r. by destruct acc.
  - rewrite list_lookup_middle by done.
    replace (pre ++ g :: map fst outs) with ((pre ++ [g]) ++ map fst outs)
      by (by rewrite <- app_assoc).
    replace (S (length pre)) with (length (pre ++ [g]))
      by (rewrite length_app; simpl; lia).
    destruct o as [r|e]; simpl.
    + destruct (code_is_zero r); simpl; rewrite IH; simpl.
      * f_equal; lia.
      * f_equal; [lia|]. by rewrite <- app_assoc.
    + rewrite IH. simpl. f_equal; [lia|].
      rewrite <- app_assoc. simpl. unfold failure_entry at 2. simpl.
      by destruct (catch_text e).
Qed.

Lemma answers_destinations k text gs :
  map fst (answers net k text gs) = gs.
Proof.
  revert k. induction gs as [|g gs IH]; intros k; simpl; [done|].
  by rewrite IH.
Qed.

Lemma filter_split_length {A} (f : A → bool) (l : list A) :
  (length (List.filter f l) + length (List.filter (λ x, negb (f x)) l))%nat
  = length l.
Proof.
  induction l as [|a l IH]; simpl; [done|].
  destruct (f a); simpl; lia.
Qed.

End ApiFacts.

(** C7.  [broadcastToGroups] makes one send per destination, in the order
    of the list, whatever the answers to the other sends are; it returns
    the number of sends that succeeded, the number that failed, and one
    ["<destination>: <error>"] entry per failed destination.  For the
    destinations A, B, C with only B rejected: 2 successes, 1 failure and
    the one entry for B. *)
Theorem broadcast_counts_every_destination :
  (∀ (net : Api.Transport) (account : Api.Account)
     (groupIds : list (list N)) (text : list N) (w : Api.World),
     ∃ w',
       Api.broadcastToGroups net account groupIds text w
       = (Api.Val
            {| Api.successCount :=
                 length (List.filter (λ x, answer_ok x.2)
                           (answers_of net account text w groupIds));
               Api.failedCount :=
                 length (List.filter (λ x, negb (answer_ok x.2))
                           (answers_of net account text w groupIds));
               Api.errors :=
                 map failure_entry
                   (List.filter (λ x, negb (answer_ok x.2))
                      (answers_of net account text w groupIds)) |}, w')
       ∧ map fst (answers_of net account text w groupIds) = groupIds
       ∧ Api.sent w'
         = Api.sent w
           ++ (if client_available account w
               then map (λ g, send_request g text) groupIds else [])
       ∧ (length (List.filter (λ x, answer_ok x.2)
                    (answers_of net account text w groupIds))
          + length (List.filter (λ x, negb (answer_ok x.2))
                      (answers_of net account text w groupIds)))%nat
         = length groupIds)
  ∧ (Api.broadcastToGroups net_B_rejects acct [js "A"; js "B"; js "C"]
       (js "hello") w0).1
    = Api.Val {| Api.successCount := 2; Api.failedCount := 1;
                 Api.errors := [js "B: bot not in chat"] |}.
Proof.
  split; [|by vm_compute].
  intros net account groupIds text w.
  assert (map fst (answers_of net account text w groupIds) = groupIds) as Hd.
  { unfold answers_of. destruct (client_available account w).
    - apply answers_destinations.
    - rewrite map_map. simpl. apply map_id. }
  unfold Api.broadcastToGroups, Api.bind, answers_of in *.
  destruct (client_available account w) eqn:Ha.
  - destruct (send_each_available net account text groupIds w Ha)
      as (w' & E & Hs).
    rewrite E. exists w'. unfold Api.ret.
    pose proof (tally_counts
                  (answers net (length (Api.sent w)) text groupIds) []
                  {| Api.successCount := 0; Api.failedCount := 0;
                     Api.errors := [] |}) as Ht.
    simpl in Ht. rewrite Hd in Ht. rewrite Ht.
    split; [done|]. split; [done|]. split; [done|].
    rewrite filter_split_length.
    by rewrite <- (length_map fst), Hd.
  - rewrite send_each_unavailable by done.
    exists w. unfold Api.ret.
    pose proof (tally_counts
                  (map (λ g, (g, Api.Rejected credentials_error)) groupIds)
                  []
                  {| Api.successCount := 0; Api.failedCount := 0;
                     Api.errors := [] |}) as Ht.
    simpl in Ht. rewrite Hd in Ht. rewrite Ht.
    split; [done|]. split; [done|]. split; [by rewrite app_nil_r|].
    rewrite filter_split_length. by rewrite length_map.
Qed.

(** ** How the wrappers end *)

Section Endings.

Import Api.

Lemma returns_ret {A} (a : A) : returns (ret a).
Proof. intros w. by exists a, w. Qed.

Lemma returns_bind {A B} (m : M A) (k : A → M B) :
  returns m → (∀ a, returns (k a)) → returns (bind m k).
Proof.
  intros Hm Hk w. destruct (Hm w) as (a & w1 & E).
  unfold bind. rewrite E. apply Hk.
Qed.

Lemma returns_settles {A} (m : M A) : returns m → settles m.
Proof. intros H w. destruct (H w) as (a & w' & E). exists w'. eauto. Qed.

Lemma returns_never_throws {A} (m : M A) : returns m → never_throws m.
Proof. intros H w. destruct (H w) as (a & w' & E). exists w'. eauto. Qed.

Lemma settles_ret {A} (a : A) : settles (ret a).
Proof. apply returns_settles, returns_ret. Qed.

Lemma settles_bind {A B} (m : M A) (k : A → M B) :
  settles m → (∀ a, settles (k a)) → settles (bind m k).
Proof.
  intros Hm Hk w. unfold bind.
  destruct (Hm w) as (w1 & [[a E]|[e E]]); rewrite E.
  - apply Hk.
  - exists w1. eauto.
Qed.

Lemma settles_getFeishuClient account : settles (getFeishuClient account).
Proof.
  intros w. unfold getFeishuClient.
  destruct (decide _); [eauto|].
  destruct (_ || _); eauto.
Qed.

Lemma settles_request net r : settles (request net r).
Proof.
  intros w. unfold request. destruct (net _ _); eauto.
Qed.

Lemma returns_try_catch {A} (body : M A) (handler : Thrown → M A) :
  settles body → (∀ e, returns (handler e)) →
  returns (try_catch body handler).
Proof.
  intros Hb Hh w. unfold try_catch.
  destruct (Hb w) as (w1 & [[a E]|[e E]]); rewrite E; [eauto|apply Hh].
Qed.

Lemma never_throws_try_catch {A} (body : M A) (handler : Thrown → M A) :
  (∀ e, returns (handler e)) → never_throws (try_catch body handler).
Proof.
  intros Hh w. unfold try_catch.
  destruct (body w) as [[a|e|] w1]; [eauto| |eauto].
  destruct (Hh e w1) as (a & w' & E). rewrite E. eauto.
Qed.

Lemma never_throws_bind {A B} (m : M A) (k : A → M B) :
  never_throws m → (∀ a, never_throws (k a)) → never_throws (bind m k).
Proof.
  intros Hm Hk w. unfold bind.
  destruct (Hm w) as (w1 & [[a E]|E]); rewrite E; [apply Hk|eauto].
Qed.

End Endings.

(** One step of the case analysis on a wrapper body. *)
Ltac settle_step :=
  first
    [ apply settles_ret
    | apply settles_getFeishuClient
    | apply settles_request
    | apply settles_bind; [|intros ?]
    | match goal with
      | |- settles (if ?b then _ else _) => destruct b
      | |- settles (match ?x with _ => _ end) => destruct x
      end ].

Ltac returns_step :=
  first
    [ apply returns_ret
    | apply returns_bind; [|intros ?]
    | apply returns_try_catch; [repeat settle_step | intros ?]
    | match goal with
      | |- returns (if ?b then _ else _) => destruct b
      | |- returns (match ?x with _ => _ end) => destruct x
      end ].

Section WrapperEndings.

Import Api.

Variable net : Transport.

Lemma getGroupInfo_returns account chatId :
  returns (getGroupInfo net account chatId).
Proof. unfold getGroupInfo. repeat returns_step. Qed.

Lemma isUserGroupAdmin_returns account chatId userId :
  returns (isUserGroupAdmin net account chatId userId).
Proof.
  unfold isUserGroupAdmin. apply returns_try_catch; [|intros; apply returns_ret].
  apply settles_bind; [apply returns_settles, getGroupInfo_returns|].
  intros gi. repeat settle_step.
Qed.

Lemma addMembersToGroup_returns account chatId memberIds :
  returns (addMembersToGroup net account chatId memberIds).
Proof. unfold addMembersToGroup. repeat returns_step. Qed.

Lemma removeMembersFromGroup_returns account chatId memberIds :
  returns (removeMembersFromGroup net account chatId memberIds).
Proof. unfold removeMembersFromGroup. repeat returns_step. Qed.

End WrapperEndings.

Section AnnouncementEndings.

Import Api.

Variable net : Transport.

(** The credentials error is not mistaken for the marker of an upgraded
    (docx) announcement. *)
Lemma credentials_error_not_docx :
  JS.includes (extractFeishuError credentials_error) (js "docx type")
  || JS.includes (extractFeishuError credentials_error) (js "232097")
  = false.
Proof. by vm_compute. Qed.

(** [getGroupAnnouncement] always returns; when it reports the docx type,
    a client has been obtained and is cached. *)
Lemma getGroupAnnouncement_returns account chatId w :
  ∃ a w', getGroupAnnouncement net account chatId w = (Val a, w')
          ∧ (an_isDocxType a = true → cached account w').
Proof.
  unfold getGroupAnnouncement, try_catch, bind.
  destruct (client_available account w) eqn:Ha.
  - destruct (getFeishuClient_available _ _ Ha) as (w1 & E & Hs & Hc).
    rewrite E. unfold request.
    destruct (net _ _) as [r|e]; simpl.
    + destruct (code_is_zero r); simpl;
        (eexists _, _; split; [reflexivity|]; done).
    + destruct (_ || _); simpl;
        (eexists _, _; split; [reflexivity|]; intros _; exact Hc).
  - rewrite getFeishuClient_unavailable by done.
    rewrite credentials_error_not_docx. simpl.
    eexists _, _; split; [reflexivity|]; done.
Qed.

Lemma updateDocxAnnouncement_returns account chatId content w :
  cached account w →
  ∃ r w', updateDocxAnnouncement net account chatId content w = (Val r, w').
Proof.
  intros Hc. unfold updateDocxAnnouncement.
  unfold bind at 1. rewrite getFeishuClient_cached by done.
  apply returns_try_catch; [|intros; apply returns_ret].
  repeat settle_step.
Qed.

Lemma updateGroupAnnouncement_returns account chatId content :
  returns (updateGroupAnnouncement net account chatId content).
Proof.
  intros w. unfold updateGroupAnnouncement.
  destruct (negb _); [by eexists _, _|].
  destruct (getGroupAnnouncement_returns account chatId w)
    as (a & w1 & E & Hpost).
  unfold bind at 1. rewrite E.
  destruct (an_isDocxType a) eqn:Hd.
  - by apply updateDocxAnnouncement_returns, Hpost.
  - destruct (_ && _); [by eexists _, _|].
    apply returns_try_catch; [|intros; apply returns_ret].
    repeat settle_step.
Qed.

(** *** The member list *)

Lemma getGroupMembers_never_throws fuel account chatId :
  never_throws (getGroupMembers net fuel account chatId).
Proof.
  unfold getGroupMembers. apply never_throws_try_catch.
  intros; apply returns_ret.
Qed.

Lemma members_pages_settles n (Hend : paging_ends_by net n) fuel :
  ∀ chatId acc pageToken w,
    (n - length (sent w) < fuel)%nat →
    ∃ w', (∃ a, members_pages net fuel chatId acc pageToken w = (Val a, w'))
          ∨ (∃ e, members_pages net fuel chatId acc pageToken w = (Exn e, w')).
Proof.
  induction fuel as [|fuel IH]; intros chatId acc pageToken w Hn.
  - lia.
  - simpl. unfold bind, request.
    set (req := ClientRequest GET _ NoPayload).
    destruct (net (length (sent w)) req) as [r|e] eqn:Hnet; [|eauto].
    destruct (code_is_zero r) eqn:Hz; simpl; [|unfold ret; eauto].
    destruct (JS.truthy_opt (next_page_token r)) eqn:Hmore;
      [|unfold ret; eauto].
    destruct (decide (n ≤ length (sent w))%nat) as [Hle|Hgt].
    + pose proof (Hend (length (sent w)) req Hle) as H.
      rewrite Hnet in H. simpl in H. rewrite Hz, Hmore in H. discriminate.
    + apply IH. simpl. rewrite length_app. simpl. lia.
Qed.

Lemma getGroupMembers_returns n fuel account chatId :
  paging_ends_by net n → (n < fuel)%nat →
  returns (getGroupMembers net fuel account chatId).
Proof.
  intros Hend Hn. unfold getGroupMembers.
  apply returns_try_catch; [|intros; apply returns_ret].
  apply settles_bind; [apply settles_getFeishuClient|].
  intros _ w. apply (members_pages_settles n Hend). lia.
Qed.

End AnnouncementEndings.

(** ** Command executor *)

Section ExecutorFacts.

Import Api Commands.

Variable net : Transport.

Lemma executeAnnouncementCommand_returns account chatId content :
  returns (executeAnnouncementCommand net account chatId content).
Proof.
  unfold executeAnnouncementCommand.
  destruct (negb _); [apply returns_ret|].
  apply returns_bind; [apply updateGroupAnnouncement_returns|].
  intros r. destruct (up_success r); apply returns_ret.
Qed.

Lemma executeAddMemberCommand_returns account chatId memberIds :
  returns (executeAddMemberCommand net account chatId memberIds).
Proof.
  unfold executeAddMemberCommand.
  destruct (_ =? _)%nat; [apply returns_ret|].
  apply returns_bind; [apply addMembersToGroup_returns|].
  intros r. destruct (mo_success r); apply returns_ret.
Qed.

Lemma executeRemoveMemberCommand_returns account chatId memberIds :
  returns (executeRemoveMemberCommand net account chatId memberIds).
Proof.
  unfold executeRemoveMemberCommand.
  destruct (_ =? _)%nat; [apply returns_ret|].
  apply returns_bind; [apply removeMembersFromGroup_returns|].
  intros r. destruct (mo_success r); apply returns_ret.
Qed.

Lemma list_members_reply_returns (result : MembersResult) :
  returns
    (if JS.truthy_opt (mr_error result) then
       ret (mkResult false
              (js "获取成员列表失败：" ++ show_str (mr_error result)))
     else
       if (length (members result) =? 0)%nat then
         ret (mkResult true (js "群内暂无成员信息。"))
       else
         ret (mkResult true
                (js "群成员列表：" ++ [10%N]
                 ++ join [10%N]
                      (imap (λ i m,
                               show_nat (i + 1) ++ js ". "
                               ++ default (memberId m) (gm_name m))
                            (take 50 (members result)))
                 ++ (if (50 <? length (members result))%nat then
                       [10%N] ++ js "... 共 "
                       ++ show_nat (length (members result)) ++ js " 人"
                     else
                       [10%N] ++ js "共 "
                       ++ show_nat (length (members result)) ++ js " 人")))).
Proof.
  destruct (JS.truthy_opt _); [apply returns_ret|].
  destruct (_ =? _)%nat; apply returns_ret.
Qed.

Lemma executeListMembersCommand_never_throws fuel account chatId :
  never_throws (executeListMembersCommand net fuel account chatId).
Proof.
  unfold executeListMembersCommand.
  apply never_throws_bind; [apply getGroupMembers_never_throws|].
  intros result. apply returns_never_throws, list_members_reply_returns.
Qed.

Lemma executeListMembersCommand_returns n fuel account chatId :
  paging_ends_by net n → (n < fuel)%nat →
  returns (executeListMembersCommand net fuel account chatId).
Proof.
  intros Hend Hn. unfold executeListMembersCommand.
  apply returns_bind; [by apply (getGroupMembers_returns net n)|].
  intros result. apply list_members_reply_returns.
Qed.

Lemma run_action_returns fuel account command context :
  type command ≠ list_members →
  returns (run_action net fuel account command context).
Proof.
  intros H. unfold run_action. destruct (type command); [..|done].
  - apply executeAnnouncementCommand_returns.
  - apply executeAddMemberCommand_returns.
  - apply executeRemoveMemberCommand_returns.
Qed.

Lemma run_action_never_throws fuel account command context :
  never_throws (run_action net fuel account command context).
Proof.
  destruct (decide (type command = list_members)) as [E|E].
  - unfold run_action. rewrite E.
    apply executeListMembersCommand_never_throws.
  - by apply returns_never_throws, run_action_returns.
Qed.

Lemma run_action_returns_paged n fuel account command context :
  paging_ends_by net n → (n < fuel)%nat →
  returns (run_action net fuel account command context).
Proof.
  intros Hend Hn.
  destruct (decide (type command = list_members)) as [E|E].
  - unfold run_action. rewrite E.
    by apply (executeListMembersCommand_returns n).
  - by apply run_action_returns.
Qed.

(** The permission gate passes a property of the action on to the whole
    command. *)
Lemma gate_preserves (P : M CommandResult → Prop)
    fuel account command context :
  (∀ a, P (ret a)) →
  (∀ (m : M AdminCheck) k, returns m → (∀ a, P (k a)) → P (bind m k)) →
  P (run_action net fuel account command context) →
  P (executeCommand net fuel account command context).
Proof.
  intros Hret Hbind Hact. unfold executeCommand.
  destruct (requiresAdminPermission _); [|done].
  apply Hbind; [apply isUserGroupAdmin_returns|].
  intros perm. destruct (JS.truthy_opt _); [apply Hret|].
  destruct (_ && _); [apply Hret|done].
Qed.

Lemma executeCommand_no_exception fuel account command context :
  never_throws (executeCommand net fuel account command context).
Proof.
  apply (gate_preserves never_throws).
  - intros a. apply returns_never_throws, returns_ret.
  - intros m k Hm Hk. apply never_throws_bind; [|done].
    by apply returns_never_throws.
  - apply run_action_never_throws.
Qed.

Lemma executeCommand_returns fuel account command context :
  type command ≠ list_members →
  returns (executeCommand net fuel account command context).
Proof.
  intros H. apply (gate_preserves returns).
  - apply @returns_ret.
  - intros m k. apply returns_bind.
  - by apply run_action_returns.
Qed.

Lemma executeCommand_returns_paged n fuel account command context :
  paging_ends_by net n → (n < fuel)%nat →
  returns (executeCommand net fuel account command context).
Proof.
  intros Hend Hn. apply (gate_preserves returns).
  - apply @returns_ret.
  - intros m k. apply returns_bind.
  - by apply (run_action_returns_paged n).
Qed.

End ExecutorFacts.

(** With a member list that announces a further page on every answer the
    paging loop uses up any number of steps. *)
Lemma endless_pages_pending (fuel : nat) :
  ∀ chatId acc pageToken w,
    (Api.members_pages net_endless fuel chatId acc pageToken w).1
    = Api.Pending.
Proof.
  induction fuel as [|fuel IH]; intros chatId acc pageToken w; [done|].
  simpl. unfold Api.bind, Api.request. simpl. apply IH.
Qed.

Lemma endless_members_pending (fuel : nat) (w : Api.World) :
  (Api.getGroupMembers net_endless fuel acct (js "oc_test_chat") w).1
  = Api.Pending.
Proof.
  unfold Api.getGroupMembers, Api.try_catch, Api.bind.
  destruct (getFeishuClient_available acct w) as (w1 & E1 & _).
  { unfold client_available. by rewrite orb_true_r. }
  rewrite E1.
  pose proof (endless_pages_pending fuel (js "oc_test_chat") [] None w1) as H.
  by destruct (Api.members_pages _ _ _ _ _ _) as [[a|e|] w2].
Qed.

(** For the member-list command and a remote side whose every page
    announces another one, no number of steps brings [executeCommand] to
    a [CommandResult]. *)
Lemma list_members_endless_paging_never_returns :
  ¬ ∃ fuel r w',
      Commands.executeCommand net_endless fuel acct
        (Commands.mkParsed Commands.list_members [] []) ctx w0
      = (Api.Val r, w').
Proof.
  intros (fuel & r & w' & E).
  change (Commands.executeCommand net_endless fuel acct
            (Commands.mkParsed Commands.list_members [] []) ctx w0)
    with (Commands.executeListMembersCommand net_endless fuel acct
            (js "oc_test_chat") w0) in E.
  unfold Commands.executeListMembersCommand, Api.bind in E.
  pose proof (endless_members_pending fuel w0) as H.
  destruct (Api.getGroupMembers _ _ _ _ _) as [[a|e|] w2];
    simpl in H; congruence.
Qed.

(** ** Permission gate *)

Section GateFacts.

Import Api Commands.

Variable net : Transport.

Lemma code_zero (r : Response) : code r = Some 0 → code_is_zero r = true.
Proof. intros H. unfold code_is_zero. by rewrite H. Qed.

Lemma no_manager_matches (userId : list N) (l : list Item) :
  (∀ it, it ∈ l → manager_id it ≠ Some userId) →
  existsb (λ m, bool_decide (manager_id m = Some userId)) l = false.
Proof.
  induction l as [|a l IH]; intros H; simpl; [done|].
  rewrite bool_decide_eq_false_2 by (apply H, list_elem_of_here). simpl.
  apply IH. intros it Hit. apply H. by apply list_elem_of_further.
Qed.

(** The permission query of a sender who is neither the owner nor among
    the administrators: two reads, and the answer "neither". *)
Lemma isUserGroupAdmin_neither account chatId userId w info mgrs :
  client_available account w = true →
  net (length (sent w)) (info_request chatId) = Resolved info →
  code info = Some 0 →
  owner_of info ≠ Some userId →
  net (S (length (sent w))) (managers_request chatId) = Resolved mgrs →
  code mgrs = Some 0 →
  (∀ it, it ∈ response_items mgrs → manager_id it ≠ Some userId) →
  ∃ w', isUserGroupAdmin net account chatId userId w
        = (Val {| isAdmin := false; isOwner := false; ac_error := None |}, w')
        ∧ sent w' = sent w ++ [info_request chatId; managers_request chatId].
Proof.
  intros Ha Hinfo Hc1 Hown Hmgrs Hc2 Hnone.
  destruct (getFeishuClient_available _ _ Ha) as (w1 & E & Hs & Hc).
  unfold isUserGroupAdmin, getGroupInfo, try_catch, bind.
  rewrite E. unfold request. rewrite Hs.
  fold (info_request chatId). rewrite Hinfo.
  rewrite (code_zero _ Hc1). simpl.
  fold (owner_of info). rewrite bool_decide_eq_false_2 by done.
  rewrite getFeishuClient_cached by exact Hc. simpl.
  rewrite length_app. simpl. rewrite Nat.add_1_r.
  fold (managers_request chatId). rewrite Hmgrs.
  rewrite (code_zero _ Hc2). simpl.
  rewrite no_manager_matches by done.
  eexists. split; [reflexivity|]. simpl. by rewrite <- app_assoc.
Qed.

Lemma gated_types (ty : CommandType) :
  ty ∈ [announcement; add_member; remove_member] →
  requiresAdminPermission ty = true.
Proof.
  rewrite !elem_of_cons, elem_of_nil. by intros [->|[->|[->|[]]]].
Qed.

End GateFacts.

(** C4.  A command of type announcement, add_member or remove_member sent
    by someone who is neither the owner of the chat nor in its list of
    administrators, the two permission reads having succeeded, is answered
    with [success: false] and the fixed no-permission message.  The run
    issues the two reads and nothing else: no announcement update, no
    membership add, no membership remove. *)
Theorem non_admin_command_refused
    (net : Api.Transport) (fuel : nat) (account : Api.Account)
    (command : Commands.ParsedCommand) (context : Commands.CommandContext)
    (w : Api.World) (info mgrs : Api.Response) :
  Commands.type command
    ∈ [Commands.announcement; Commands.add_member; Commands.remove_member] →
  client_available account w = true →
  net (length (Api.sent w)) (info_request (Commands.chatId context))
  = Api.Resolved info →
  Api.code info = Some 0 →
  owner_of info ≠ Some (Commands.senderId context) →
  net (S (length (Api.sent w))) (managers_request (Commands.chatId context))
  = Api.Resolved mgrs →
  Api.code mgrs = Some 0 →
  (∀ it, it ∈ Api.response_items mgrs →
         Api.manager_id it ≠ Some (Commands.senderId context)) →
  ∃ w',
    Commands.executeCommand net fuel account command context w
    = (Api.Val (Commands.mkResult false no_permission_message), w')
    ∧ Api.sent w'
      = Api.sent w ++ [ info_request (Commands.chatId context);
                        managers_request (Commands.chatId context) ]
    ∧ Forall (λ r, Api.is_mutation r = false)
             (drop (length (Api.sent w)) (Api.sent w')).
Proof.
  intros Hty Ha Hinfo Hc1 Hown Hmgrs Hc2 Hnone.
  destruct (isUserGroupAdmin_neither net account (Commands.chatId context)
              (Commands.senderId context) w info mgrs)
    as (w' & E & Hs); try assumption.
  exists w'. unfold Commands.executeCommand.
  rewrite gated_types by done. unfold Api.bind. rewrite E.
  cbn [JS.truthy_opt Api.ac_error Api.isAdmin Api.isOwner negb andb].
  unfold Api.ret, no_permission_message.
  split; [reflexivity|]. split; [exact Hs|].
  rewrite Hs, drop_app_length.
  repeat constructor.
Qed.

Lemma non_admin_command_refused_witness :
  ∃ w',
    Commands.executeCommand net_denied 0 acct
      (Commands.mkParsed Commands.announcement (js "测试公告") []) ctx w0
    = (Api.Val (Commands.mkResult false no_permission_message), w')
    ∧ Api.sent w'
      = Api.sent w0 ++ [ info_request (Commands.chatId ctx);
                         managers_request (Commands.chatId ctx) ]
    ∧ Forall (λ r, Api.is_mutation r = false)
             (drop (length (Api.sent w0)) (Api.sent w')).
Proof.
  apply (non_admin_command_refused net_denied 0 acct
           (Commands.mkParsed Commands.announcement (js "测试公告") []) ctx w0
           (owned_by (js "ou_owner"))
           {| Api.code := Some 0; Api.msg := None; Api.data := Some no_data |}).
  - simpl. apply list_elem_of_here.
  - reflexivity.
  - reflexivity.
  - reflexivity.
  - vm_compute. discriminate.
  - reflexivity.
  - reflexivity.
  - intros it Hit. vm_compute in Hit. by apply elem_of_nil in Hit.
Defined.

(** ** The add-member command *)

Section AddMemberFacts.

Import Api Commands.

Variable net : Transport.

Lemma credentials_error_truthy :
  JS.truthy_opt (catch_text credentials_error) = true.
Proof. by vm_compute. Qed.

(** The permission query always returns, issues reads only, and leaves a
    cached client behind whenever it admits the sender. *)
Lemma isUserGroupAdmin_run account chatId userId w :
  ∃ perm w' extra,
    isUserGroupAdmin net account chatId userId w = (Val perm, w')
    ∧ sent w' = sent w ++ extra
    ∧ Forall (λ r, is_mutation r = false) extra
    ∧ (JS.truthy_opt (ac_error perm) = false →
       isAdmin perm || isOwner perm = true → cached account w').
Proof.
  unfold isUserGroupAdmin, getGroupInfo, try_catch, bind.
  destruct (client_available account w) eqn:Ha.
  - destruct (getFeishuClient_available _ _ Ha) as (w1 & E & Hs & Hc).
    rewrite E. unfold request. rewrite Hs.
    repeat
      (cbn [gi_error gi_ownerId gi_name JS.truthy_opt ret sent clientCache];
       match goal with
       | |- context [getFeishuClient account ?w2] =>
         rewrite (getFeishuClient_cached account w2) by exact Hc
       | |- context [match net ?n ?r with _ => _ end] =>
         destruct (net n r) as [?|?]
       | |- context [if ?b then _ else _] => destruct b
       | |- context [match catch_text ?e with _ => _ end] =>
         destruct (catch_text e) as [?|]
       end);
      (eexists _, _, _; split; [reflexivity|];
       cbn [sent]; rewrite <- ?app_assoc;
       split; [reflexivity|]; split; [repeat constructor|];
       intros _ _; exact Hc).
  - rewrite getFeishuClient_unavailable by done.
    cbn [gi_error ret]. rewrite credentials_error_truthy.
    exists {| isAdmin := false; isOwner := false;
              ac_error := catch_text credentials_error |}, w, [].
    split; [reflexivity|]. split; [by rewrite app_nil_r|].
    split; [constructor|]. cbn [ac_error].
    rewrite credentials_error_truthy. discriminate.
Qed.

Lemma invalid_note_matches (resp : Response) :
  match (if (0 <? length (rejected_ids resp))%nat
         then Some (rejected_ids resp) else None) with
  | Some ids =>
    if (0 <? length ids)%nat then
      js "（" ++ show_nat (length ids) ++ js " 个用户无效或已在群内）"
    else []
  | None => []
  end = invalid_note resp.
Proof.
  unfold invalid_note. destruct (rejected_ids resp) as [|i ids]; reflexivity.
Qed.

(** The add command behind the gate: usage hint for an empty list. *)
Lemma executeAddMemberCommand_usage account chatId w :
  executeAddMemberCommand net account chatId [] w
  = (Val (mkResult false add_usage_message), w).
Proof. unfold add_usage_message. reflexivity. Qed.

(** The add command behind the gate: a successful call reports the count
    of the listed users and notes the identifiers turned down. *)
Lemma executeAddMemberCommand_success account chatId memberIds w resp :
  cached account w →
  memberIds ≠ [] →
  net (length (sent w)) (add_request chatId memberIds) = Resolved resp →
  code resp = Some 0 →
  executeAddMemberCommand net account chatId memberIds w
  = (Val (mkResult true
            (js "已拉入 " ++ show_nat (length memberIds) ++ js " 个用户"
             ++ invalid_note resp)),
     after_request (add_request chatId memberIds) w).
Proof.
  intros Hc Hne Hnet Hcode.
  unfold executeAddMemberCommand, addMembersToGroup.
  destruct memberIds as [|m ms]; [done|].
  cbn [length Nat.eqb]. unfold try_catch, bind.
  rewrite getFeishuClient_cached by done. unfold request.
  fold (add_request chatId (m :: ms)). rewrite Hnet.
  rewrite (code_zero _ Hcode). cbn [negb mo_success mo_invalidIds].
  fold (rejected_ids resp). unfold ret. cbv beta iota.
  cbn [mo_success mo_invalidIds]. rewrite invalid_note_matches.
  reflexivity.
Qed.

End AddMemberFacts.

(** C6, as amended.  For an add_member command with no mentioned user,
    [executeCommand] fails without any request that changes the group,
    whoever the sender is; once the permission gate has admitted the
    sender (owner or administrator, the query having succeeded) the
    failure carries the usage hint.  With N >= 1 mentioned users, an
    admitted sender and a membership call answered with code 0, the result
    is [success: true] and its message carries N, followed by a note on
    the identifiers the platform turned down, if any. *)
Theorem add_member_usage_and_count :
  (∀ net fuel account command context w,
     Commands.type command = Commands.add_member →
     Commands.mentionedUserIds command = [] →
     ∃ r w' extra,
       Commands.executeCommand net fuel account command context w
       = (Api.Val r, w')
       ∧ Commands.success r = false
       ∧ Api.sent w' = Api.sent w ++ extra
       ∧ Forall (λ q, Api.is_mutation q = false) extra
       ∧ (∀ perm w1,
            Api.isUserGroupAdmin net account (Commands.chatId context)
              (Commands.senderId context) w = (Api.Val perm, w1) →
            JS.truthy_opt (Api.ac_error perm) = false →
            Api.isAdmin perm || Api.isOwner perm = true →
            r = Commands.mkResult false add_usage_message ∧ w' = w1))
  ∧ (∀ net fuel account command context w perm w1 resp,
       Commands.type command = Commands.add_member →
       Api.isUserGroupAdmin net account (Commands.chatId context)
         (Commands.senderId context) w = (Api.Val perm, w1) →
       JS.truthy_opt (Api.ac_error perm) = false →
       Api.isAdmin perm || Api.isOwner perm = true →
       Commands.mentionedUserIds command ≠ [] →
       net (length (Api.sent w1))
         (add_request (Commands.chatId context)
            (Commands.mentionedUserIds command))
       = Api.Resolved resp →
       Api.code resp = Some 0 →
       ∃ w2,
         Commands.executeCommand net fuel account command context w
         = (Api.Val
              (Commands.mkResult true
                 (js "已拉入 "
                  ++ Commands.show_nat
                       (length (Commands.mentionedUserIds command))
                  ++ js " 个用户" ++ invalid_note resp)), w2)
         ∧ Api.sent w2
           = Api.sent w1
             ++ [add_request (Commands.chatId context)
                   (Commands.mentionedUserIds command)]).
Proof.
  split.
  - intros net fuel account command context w Hty Hids.
    destruct (isUserGroupAdmin_run net account (Commands.chatId context)
                (Commands.senderId context) w)
      as (perm & w1 & extra & E & Hs & Hget & _).
    unfold Commands.executeCommand, Commands.run_action.
    rewrite Hty, Hids.
    change (Commands.requiresAdminPermission Commands.add_member) with true.
    cbv iota. unfold Api.bind. rewrite E. cbv beta iota.
    destruct (JS.truthy_opt (Api.ac_error perm)) eqn:Herr.
    + eexists _, w1, extra. split; [reflexivity|].
      split; [done|]. split; [done|]. split; [done|].
      intros perm' w1' [= <- <-] Herr'. congruence.
    + destruct (negb (Api.isAdmin perm) && negb (Api.isOwner perm)) eqn:Hadm.
      * eexists _, w1, extra. split; [reflexivity|].
        split; [done|]. split; [done|]. split; [done|].
        intros perm' w1' [= <- <-] _ Hok.
        destruct (Api.isAdmin perm), (Api.isOwner perm); discriminate.
      * rewrite executeAddMemberCommand_usage.
        eexists _, w1, extra. split; [reflexivity|].
        split; [done|]. split; [done|]. split; [done|].
        intros perm' w1' [= <- <-] _ _. done.
  - intros net fuel account command context w perm w1 resp
      Hty E Herr Hok Hids Hnet Hcode.
    destruct (isUserGroupAdmin_run net account (Commands.chatId context)
                (Commands.senderId context) w)
      as (perm' & w1' & extra & E' & _ & _ & Hcached).
    rewrite E in E'. injection E' as <- <-.
    specialize (Hcached Herr Hok).
    unfold Commands.executeCommand, Commands.run_action. rewrite Hty.
    change (Commands.requiresAdminPermission Commands.add_member) with true.
    cbv iota. unfold Api.bind. rewrite E. cbv beta iota. rewrite Herr.
    assert (negb (Api.isAdmin perm) && negb (Api.isOwner perm) = false)
      as -> by (destruct (Api.isAdmin perm), (Api.isOwner perm);
                done || discriminate).
    rewrite (executeAddMemberCommand_success net account _ _ w1 resp)
      by done.
    eexists. split; [reflexivity|]. done.
Qed.

(** C6, as stated, fails for a sender the permission gate turns away: the
    add_member command without mentioned users is then answered with the
    no-permission message, not with the usage hint. *)
Lemma add_member_hint_hidden_by_gate :
  (Commands.executeCommand net_denied 0 acct
     (Commands.mkParsed Commands.add_member [] []) ctx w0).1
  = Api.Val (Commands.mkResult false no_permission_message)
  ∧ ¬ ∃ w',
        Commands.executeCommand net_denied 0 acct
          (Commands.mkParsed Commands.add_member [] []) ctx w0
        = (Api.Val (Commands.mkResult false add_usage_message), w').
Proof.
  split; [by vm_compute|].
  intros (w' & E). apply (f_equal fst) in E. vm_compute in E. discriminate.
Qed.

Lemma add_member_usage_and_count_witness :
  ∃ w2,
    Commands.executeCommand net_owner 0 acct add_two ctx w0
    = (Api.Val
         (Commands.mkResult true
            (js "已拉入 "
             ++ Commands.show_nat (length (Commands.mentionedUserIds add_two))
             ++ js " 个用户" ++ invalid_note one_turned_down)), w2)
    ∧ Api.sent w2
      = Api.sent admitted_world
        ++ [add_request (Commands.chatId ctx)
              (Commands.mentionedUserIds add_two)].
Proof.
  apply (proj2 add_member_usage_and_count net_owner 0%nat acct add_two ctx w0
           {| Api.isAdmin := true; Api.isOwner := true;
              Api.ac_error := None |}
           admitted_world one_turned_down).
  - reflexivity.
  - vm_compute. reflexivity.
  - reflexivity.
  - reflexivity.
  - discriminate.
  - vm_compute. reflexivity.
  - reflexivity.
Defined.

(** The message of the run above, spelled out. *)
Example add_two_message :
  (Commands.executeCommand net_owner 0 acct add_two ctx w0).1
  = Api.Val (Commands.mkResult true
               (js "已拉入 2 个用户（1 个用户无效或已在群内）")).
Proof. by vm_compute. Qed.

(** ["/kick"] is the sixth prefix of the table; none of the five before it
    starts the text. *)
Lemma parseCommand_prefix_anchored_witness :
  Commands.parseCommand (js "  /kick @_user_1 ") []
  = Some (Commands.mkParsed Commands.remove_member
            (JS.trim (js " @_user_1")) (Commands.extract_mentioned [])).
Proof.
  destruct parseCommand_prefix_anchored as (_ & H & _).
  apply (H (js "  /kick @_user_1 ") [] 5%nat Commands.remove_member
           (js "/kick") (js " @_user_1")).
  - reflexivity.
  - vm_compute. reflexivity.
  - intros j tp Hj Htp.
    do 5 (destruct j as [|j];
          [ injection Htp as <-; apply startsWith_not_prefix;
            vm_compute; reflexivity | ]).
    lia.
Defined.

(** A member-list request turned down with an empty message text leaves
    [getGroupMembers] with the error text [""], which the command reads as
    "no error": the answer is the empty-group message. *)
Example list_members_empty_error_text :
  (Commands.executeCommand net_mute_failure 1 acct
     (Commands.mkParsed Commands.list_members [] []) ctx w0).1
  = Api.Val (Commands.mkResult true (js "群内暂无成员信息。")).
Proof. by vm_compute. Qed.

(** * Further properties *)

(** ** Dedup cache: beyond the first and the repeated call *)

Section DedupMore.

Import Dedup.

Implicit Types (m : gmap (list N) Z) (e : list N) (c : call).

Lemma do_call_other_absent e c m :
  call_id c ≠ Some e → m !! e = None → (do_call c m).2 !! e = None.
Proof.
  intros Hid Hm. unfold do_call, isEventProcessed.
  destruct (negb (JS.truthy_opt (call_id c))); [done|].
  destruct (call_id c) as [e'|]; [|done].
  destruct (decide (is_Some (m !! e'))); [done|]. simpl.
  apply eq_None_not_Some. intros [ts Hts].
  apply cleanup_lookup in Hts as [Hts _].
  rewrite lookup_insert_ne in Hts by congruence. congruence.
Qed.

(** X1.  Calls for other identifiers never mark an identifier: after any
    sequence of calls none of which is for [e], an [e] the cache did not
    hold is still answered [false]. *)
Theorem other_ids_never_mark (e : list N) (cs : list call)
    (m : gmap (list N) Z) (t t' : Z) :
  e ≠ [] →
  m !! e = None →
  Forall (λ c, call_id c ≠ Some e) cs →
  (run_calls cs m).2 !! e = None
  ∧ (isEventProcessed t t' (Some e) (run_calls cs m).2).1 = false.
Proof.
  intros He Hm Hcs.
  assert ((run_calls cs m).2 !! e = None) as Hnone.
  { revert m Hm. induction Hcs as [|c cs Hc Hcs IH]; intros m Hm; [done|].
    simpl. pose proof (do_call_other_absent e c m Hc Hm) as H1.
    destruct (do_call c m) as [r m1]. simpl in H1.
    specialize (IH m1 H1). by destruct (run_calls cs m1). }
  split; [done|]. by rewrite isEventProcessed_new.
Qed.

(** X2.  An entry leaves the cache through the sweep of a recording call:
    once a new identifier is recorded at a time more than
    [EVENT_DEDUP_TTL] after [e] was, [e] is gone and its next delivery is
    answered [false] and recorded afresh. *)
Theorem expired_id_is_new_again (e e' : list N) (m : gmap (list N) Z)
    (ts t_set t_sweep t t' : Z) :
  e ≠ [] → e' ≠ [] →
  m !! e = Some ts →
  m !! e' = None →
  EVENT_DEDUP_TTL < t_sweep - ts →
  t' - t ≤ EVENT_DEDUP_TTL →
  (isEventProcessed t_set t_sweep (Some e') m).2 !! e = None
  ∧ (isEventProcessed t t' (Some e)
       (isEventProcessed t_set t_sweep (Some e') m).2).1 = false
  ∧ (isEventProcessed t t' (Some e)
       (isEventProcessed t_set t_sweep (Some e') m).2).2 !! e = Some t.
Proof.
  intros He He' Hm Hm' Hold Hnow.
  assert (e ≠ e') as Hne by congruence.
  rewrite (isEventProcessed_new t_set t_sweep e') by done. simpl.
  assert (cleanupExpiredEventIds t_sweep (<[e' := t_set]> m) !! e = None)
    as Hgone.
  { apply eq_None_not_Some. intros [x Hx].
    apply cleanup_lookup in Hx as [Hx Hage].
    rewrite lookup_insert_ne in Hx by done. rewrite Hm in Hx.
    injection Hx as <-. lia. }
  split; [done|]. rewrite isEventProcessed_new by done. simpl.
  split; [done|]. apply cleanup_lookup.
  split; [apply lookup_insert_eq | lia].
Qed.

(** X3.  The age of an entry is not looked at when an identifier is
    looked up: as long as every call is for an identifier the cache holds,
    or carries none, nothing is swept, the cache stays as it is and every
    call with an identifier is answered [true], whatever the clock
    reads. *)
Theorem duplicates_never_age_the_cache (cs : list call)
    (m : gmap (list N) Z) :
  Forall (λ c, JS.truthy_opt (call_id c) = false
               ∨ ∃ e, call_id c = Some e ∧ is_Some (m !! e)) cs →
  run_calls cs m = (map (λ c, JS.truthy_opt (call_id c)) cs, m).
Proof.
  induction 1 as [|c cs Hc _ IH]; [done|]. simpl.
  assert (do_call c m = (JS.truthy_opt (call_id c), m)) as ->.
  { unfold do_call. destruct Hc as [Hc|(e & Hc & Hin)].
    - by rewrite isEventProcessed_absent_id, Hc.
    - rewrite Hc. destruct e as [|a e].
      + done.
      + by rewrite isEventProcessed_present. }
  by rewrite IH.
Qed.

(** X4.  [clearProcessedEventIds] forgets everything: right after it every
    identifier is new, and one recorded before the clearing is recorded
    again. *)
Theorem clear_forgets_everything (e : list N) (m : gmap (list N) Z)
    (t t' : Z) :
  e ≠ [] →
  t' - t ≤ EVENT_DEDUP_TTL →
  isEventProcessed t t' (Some e) (clearProcessedEventIds m)
  = (false, {[ e := t ]}).
Proof.
  intros He Ht. unfold clearProcessedEventIds.
  rewrite isEventProcessed_new by (done || apply lookup_empty).
  f_equal. apply map_eq. intros k.
  apply option_eq. intros x. rewrite cleanup_lookup.
  rewrite insert_empty, !lookup_singleton_Some. split.
  - intros [[-> ->] _]. done.
  - intros [-> ->]. split; [done|lia].
Qed.

End DedupMore.

Lemma other_ids_never_mark_witness :
  (Dedup.run_calls sample_calls ∅).2 !! js "event-c" = None
  ∧ (Dedup.isEventProcessed 5000 5000 (Some (js "event-c"))
       (Dedup.run_calls sample_calls ∅).2).1 = false.
Proof.
  apply (other_ids_never_mark (js "event-c") sample_calls ∅ 5000 5000).
  - by vm_compute.
  - apply lookup_empty.
  - unfold sample_calls. repeat constructor; by vm_compute.
Defined.

Lemma expired_id_is_new_again_witness :
  (Dedup.isEventProcessed 100000 100000 (Some (js "new")) stale_cache).2
    !! js "old" = None
  ∧ (Dedup.isEventProcessed 100001 100002 (Some (js "old"))
       (Dedup.isEventProcessed 100000 100000 (Some (js "new"))
          stale_cache).2).1 = false
  ∧ (Dedup.isEventProcessed 100001 100002 (Some (js "old"))
       (Dedup.isEventProcessed 100000 100000 (Some (js "new"))
          stale_cache).2).2 !! js "old" = Some 100001.
Proof.
  apply (expired_id_is_new_again (js "old") (js "new") stale_cache 0
           100000 100000 100001 100002).
  - by vm_compute.
  - by vm_compute.
  - by vm_compute.
  - by vm_compute.
  - unfold Dedup.EVENT_DEDUP_TTL. lia.
  - unfold Dedup.EVENT_DEDUP_TTL. lia.
Defined.

Lemma duplicates_never_age_the_cache_witness :
  Dedup.run_calls
    [ Dedup.Call (Some (js "old")) 900000 900000;
      Dedup.Call None 900001 900001;
      Dedup.Call (Some (js "old")) 900002 900002 ] stale_cache
  = ([true; false; true], stale_cache).
Proof.
  apply (duplicates_never_age_the_cache
           [ Dedup.Call (Some (js "old")) 900000 900000;
             Dedup.Call None 900001 900001;
             Dedup.Call (Some (js "old")) 900002 900002 ] stale_cache).
  apply Forall_cons. split.
  { right. exists (js "old"). split; [done|]. exists 0. by vm_compute. }
  apply Forall_cons. split; [by left|].
  apply Forall_cons. split; [|by apply Forall_nil].
  right. exists (js "old"). split; [done|]. exists 0. by vm_compute.
Defined.

Lemma clear_forgets_everything_witness :
  Dedup.isEventProcessed 7 7 (Some (js "old"))
    (Dedup.clearProcessedEventIds stale_cache)
  = (false, {[ js "old" := 7 ]}).
Proof.
  apply (clear_forgets_everything (js "old") stale_cache 7 7).
  - by vm_compute.
  - unfold Dedup.EVENT_DEDUP_TTL. lia.
Defined.

(** ** Registry: starting and stopping monitors *)

Section LifecycleFacts.

Import Monitor Lifecycle.

Implicit Types (w : World) (h : list N * list N).

Lemma set_status_twice st c :
  set_status st (set_status st c) = set_status st c.
Proof. done. Qed.

(** Nothing is live for a handle when no client of the handle is
    started. *)
Lemma live_for_none h w :
  (∀ i c, sockets w !! i = Some c → ws_handle c = h →
          ws_status c ≠ Started) →
  live_for h w = [].
Proof.
  intros H. unfold live_for. apply filter_all_false. intros i _.
  destruct (sockets w !! i) as [c|] eqn:Hc; [|done].
  apply bool_decide_eq_false. intros [Hh Hst]. by apply (H i c).
Qed.

(** The live connections of a handle are read off the clients alone. *)
Lemma live_for_ext h w w' :
  length (sockets w') = length (sockets w) →
  (∀ i c, sockets w !! i = Some c → ws_handle c = h →
          sockets w' !! i = Some c) →
  (∀ i c', sockets w' !! i = Some c' → ws_handle c' = h →
           ws_status c' = Started → sockets w !! i = Some c') →
  live_for h w' = live_for h w.
Proof.
  intros Hlen H1 H2. unfold live_for. rewrite Hlen.
  apply List.filter_ext_in. intros i _.
  destruct (sockets w !! i) as [c|] eqn:Hc.
  - destruct (decide (ws_handle c = h)) as [Hh|Hh].
    + by rewrite (H1 i c Hc Hh).
    + destruct (sockets w' !! i) as [c'|] eqn:Hc'.
      * rewrite (bool_decide_eq_false_2 (ws_handle c = h ∧ _))
          by (by intros [? _]).
        apply bool_decide_eq_false. intros [Hh' Hst'].
        specialize (H2 i c' Hc' Hh' Hst'). congruence.
      * by rewrite bool_decide_eq_false_2 by (by intros [? _]).
  - destruct (sockets w' !! i) as [c'|] eqn:Hc'; [|done].
    apply bool_decide_eq_false. intros [Hh' Hst'].
    specialize (H2 i c' Hc' Hh' Hst'). congruence.
Qed.

Lemma live_for_iff h w w' :
  length (sockets w') = length (sockets w) →
  (∀ i, (∃ c, sockets w' !! i = Some c ∧ ws_handle c = h
              ∧ ws_status c = Started)
        ↔ (∃ c, sockets w !! i = Some c ∧ ws_handle c = h
                ∧ ws_status c = Started)) →
  live_for h w' = live_for h w.
Proof.
  intros Hlen H. unfold live_for. rewrite Hlen.
  apply List.filter_ext_in. intros i _. specialize (H i).
  apply eq_true_iff_eq.
  destruct (sockets w' !! i) as [c'|], (sockets w !! i) as [c|];
    rewrite ?bool_decide_eq_true; split; try done.
  - intros Hc'. destruct H as [H _].
    destruct H as (c0 & [= <-] & ?); [by exists c'|done].
  - intros Hc. destruct H as [_ H].
    destruct H as (c0 & [= <-] & ?); [by exists c|done].
  - intros Hc'. destruct H as [H _].
    destruct H as (c0 & [=] & ?). by exists c'.
  - intros Hc. destruct H as [_ H].
    destruct H as (c0 & [=] & ?). by exists c.
Qed.

(** *** The stop loops *)

Lemma stop_entries_registry (l : list (list N * nat)) : ∀ w k,
  activeClients (foldl stop_entry w l) !! k
  = if decide (k ∈ l.*1) then None else activeClients w !! k.
Proof.
  induction l as [|[k0 i0] l IH]; intros w k.
  - simpl. destruct (decide (k ∈ [])) as [Hin|]; [|done].
    by apply elem_of_nil in Hin.
  - cbn [foldl fmap list_fmap fst]. rewrite IH. simpl.
    destruct (decide (k ∈ k0 :: l.*1)) as [H1|H1],
             (decide (k ∈ l.*1)) as [H2|H2]; try done.
    + apply elem_of_cons in H1 as [->|H1]; [|done].
      apply lookup_delete_eq.
    + exfalso. apply H1. by apply list_elem_of_further.
    + apply lookup_delete_ne. intros ->. apply H1, list_elem_of_here.
Qed.

Lemma stop_entries_sockets (l : list (list N * nat)) : ∀ w i,
  sockets (foldl stop_entry w l) !! i
  = if decide (i ∈ l.*2) then set_status Stopped <$> sockets w !! i
    else sockets w !! i.
Proof.
  induction l as [|[k0 i0] l IH]; intros w i.
  - simpl. destruct (decide (i ∈ [])) as [Hin|]; [|done].
    by apply elem_of_nil in Hin.
  - cbn [foldl fmap list_fmap snd]. rewrite IH. simpl.
    rewrite list_lookup_alter.
    destruct (decide (i ∈ i0 :: l.*2)) as [H1|H1],
             (decide (i ∈ l.*2)) as [H2|H2],
             (decide (i0 = i)) as [H3|H3]; subst; try done.
    + by destruct (sockets w !! i).
    + apply elem_of_cons in H1 as [->|H1]; done.
    + exfalso. apply H1. by apply list_elem_of_further.
    + exfalso. apply H1. by apply list_elem_of_further.
    + exfalso. apply H1, list_elem_of_here.
Qed.

Lemma stop_entries_length (l : list (list N * nat)) : ∀ w,
  length (sockets (foldl stop_entry w l)) = length (sockets w).
Proof.
  induction l as [|x l IH]; intros w; simpl; [done|].
  rewrite IH. simpl. apply length_alter.
Qed.

Lemma elem_of_selected f w k i :
  (k, i) ∈ selected f w ↔ activeClients w !! k = Some i ∧ f k = true.
Proof.
  unfold selected. rewrite list_elem_of_In, List.filter_In.
  by rewrite <- list_elem_of_In, elem_of_map_to_list.
Qed.

Lemma selected_keys f w k :
  k ∈ (selected f w).*1 ↔ is_Some (activeClients w !! k) ∧ f k = true.
Proof.
  rewrite list_elem_of_fmap. split.
  - intros ([k' i] & -> & [H1 H2]%elem_of_selected). eauto.
  - intros [[i Hi] Hf]. exists (k, i). split; [done|].
    by apply elem_of_selected.
Qed.

Lemma selected_clients f w i :
  i ∈ (selected f w).*2
  ↔ ∃ k, activeClients w !! k = Some i ∧ f k = true.
Proof.
  rewrite list_elem_of_fmap. split.
  - intros ([k i'] & -> & H%elem_of_selected). eauto.
  - intros (k & Hk & Hf). exists (k, i). split; [done|].
    by apply elem_of_selected.
Qed.

(** What a stop loop over the keys selected by [f] leaves behind. *)
Lemma stop_selected_registry f w k :
  activeClients (foldl stop_entry w (selected f w)) !! k
  = if f k then None else activeClients w !! k.
Proof.
  rewrite stop_entries_registry.
  destruct (decide (k ∈ (selected f w).*1)) as [Hin|Hin].
  - apply selected_keys in Hin as [_ ->]. done.
  - destruct (f k) eqn:Hf; [|done].
    destruct (activeClients w !! k) as [i|] eqn:Hk; [|done].
    exfalso. apply Hin, selected_keys. eauto.
Qed.

Lemma stop_selected_consistent f w :
  registry_consistent w →
  registry_consistent (foldl stop_entry w (selected f w)).
Proof.
  intros [Hlive Hkeys]. split.
  - intros i c Hc Hst. rewrite stop_entries_sockets in Hc.
    destruct (decide (i ∈ (selected f w).*2)) as [Hin|Hin].
    + destruct (sockets w !! i); simplify_eq/=.
    + pose proof (Hlive i c Hc Hst) as Hreg.
      rewrite stop_selected_registry.
      destruct (f (key_of (ws_handle c))) eqn:Hf; [|done].
      exfalso. apply Hin, selected_clients. eauto.
  - intros k i Hk. rewrite stop_selected_registry in Hk.
    destruct (f k); [done|].
    destruct (Hkeys k i Hk) as (c & Hc & Hkey).
    rewrite stop_entries_sockets.
    destruct (decide (i ∈ (selected f w).*2)).
    + exists (set_status Stopped c). by rewrite Hc.
    + eauto.
Qed.

Lemma stop_selected_none_live f w h :
  registry_consistent w →
  f (key_of h) = true →
  live_for h (foldl stop_entry w (selected f w)) = [].
Proof.
  intros Hcons Hf.
  destruct (stop_selected_consistent f w Hcons) as [Hlive' _].
  apply live_for_none. intros i c Hc Hh Hst.
  pose proof (Hlive' i c Hc Hst) as Hreg.
  rewrite stop_selected_registry, Hh, Hf in Hreg. done.
Qed.

Lemma stop_selected_frame f w h :
  registry_consistent w →
  f (key_of h) = false →
  live_for h (foldl stop_entry w (selected f w)) = live_for h w.
Proof.
  intros [Hlive Hkeys] Hf.
  assert (∀ i c, sockets w !! i = Some c → ws_handle c = h →
                 i ∉ (selected f w).*2) as Hnot.
  { intros i c Hc Hh (k & Hk & Hfk)%selected_clients.
    destruct (Hkeys k i Hk) as (c' & Hc' & Hkey).
    rewrite Hc in Hc'. injection Hc' as <-. congruence. }
  apply live_for_ext.
  - apply stop_entries_length.
  - intros i c Hc Hh. rewrite stop_entries_sockets.
    by rewrite decide_False by (by apply (Hnot i c)).
  - intros i c' Hc' Hh' Hst'. rewrite stop_entries_sockets in Hc'.
    destruct (decide (i ∈ (selected f w).*2)); [|done].
    destruct (sockets w !! i); simplify_eq/=.
Qed.

Lemma stop_selected_again f w :
  selected f (foldl stop_entry w (selected f w)) = [].
Proof.
  unfold selected at 1. apply filter_all_false.
  intros [k i] Hin. apply elem_of_map_to_list in Hin.
  rewrite stop_selected_registry in Hin. simpl.
  by destruct (f k).
Qed.

End LifecycleFacts.

Section LifecycleTheorems.

Import Monitor Lifecycle.

Implicit Types (w : World) (h : list N * list N).

Lemma startsWith_app (p r : list N) : JS.startsWith (p ++ r) p = true.
Proof. apply startsWith_prefix. by exists r. Qed.

(** The key of every handle of an account starts with the account id and
    a colon. *)
Lemma key_of_account_prefix (accountId appId : list N) :
  JS.startsWith (key_of (accountId, appId)) (accountId ++ js ":") = true.
Proof.
  unfold key_of, clientKey. cbn [fst snd].
  rewrite (app_assoc accountId). apply startsWith_app.
Qed.

(** *** The stop loops, by the SDK in use *)

Lemma stop_loop_returns (l : list (list N * nat)) : ∀ w,
  stop_loop true l w = (None, foldl stop_entry w l).
Proof.
  induction l as [|x l IH]; intros w; [done|].
  cbn [stop_loop foldl ws_stop]. by rewrite IH.
Qed.

Lemma stop_loop_throws (l : list (list N * nat)) w :
  l ≠ [] →
  stop_loop false l w = (Some (not_a_function (js "client.stop")), w).
Proof. by destruct l. Qed.

Lemma selected_all w :
  selected (λ _, true) w = map_to_list (activeClients w).
Proof.
  unfold selected. induction (map_to_list (activeClients w)) as [|x l IH];
    simpl; [done|]. by rewrite IH.
Qed.

Lemma selected_nil f w :
  selected f w = [] ↔ ∀ k i, activeClients w !! k = Some i → f k = false.
Proof.
  split.
  - intros Hnil k i Hk. destruct (f k) eqn:Hf; [|done].
    assert ((k, i) ∈ selected f w) as Hin by (by apply elem_of_selected).
    rewrite Hnil in Hin. by apply elem_of_nil in Hin.
  - intros H. unfold selected. apply filter_all_false.
    intros [k i] Hin. apply elem_of_map_to_list in Hin. by apply (H k i).
Qed.

(** X5.  [stopFeishuMonitor(accountId)], by the SDK in use.  When the
    [stop()] of the SDK's client returns, the call returns, removes from
    the registry exactly the keys that start with the account id and a
    colon, creates no client, and a second call changes nothing; if the
    registry was consistent, then no handle with such a key, so no handle
    of the account, has a live connection afterwards, the live connections
    of all other handles are untouched and the registry stays consistent.
    When the client has no [stop] method, the call throws a [TypeError] at
    the first entry of the account and changes nothing; it returns without
    a change only when the registry has no entry of the account. *)
Theorem stopFeishuMonitor_stops_the_account (accountId : list N) (w : World) :
  (∃ w',
     stopFeishuMonitor true accountId w = (None, w')
     ∧ (∀ k, activeClients w' !! k
             = if JS.startsWith k (accountId ++ js ":") then None
               else activeClients w !! k)
     ∧ length (sockets w') = length (sockets w)
     ∧ stopFeishuMonitor true accountId w' = (None, w')
     ∧ (registry_consistent w →
        (∀ appId, live_for (accountId, appId) w' = [])
        ∧ (∀ h, JS.startsWith (key_of h) (accountId ++ js ":") = true →
                live_for h w' = [])
        ∧ (∀ h, JS.startsWith (key_of h) (accountId ++ js ":") = false →
                live_for h w' = live_for h w)
        ∧ registry_consistent w'))
  ∧ ((∃ k i, activeClients w !! k = Some i
             ∧ JS.startsWith k (accountId ++ js ":") = true) →
     stopFeishuMonitor false accountId w
     = (Some (not_a_function (js "client.stop")), w))
  ∧ ((∀ k i, activeClients w !! k = Some i →
             JS.startsWith k (accountId ++ js ":") = false) →
     stopFeishuMonitor false accountId w = (None, w)).
Proof.
  set (f := λ k : list N, JS.startsWith k (accountId ++ js ":")).
  assert (∀ b w0, stopFeishuMonitor b accountId w0
                  = stop_loop b (selected f w0) w0) as Hdef by done.
  split; [|split].
  - exists (foldl stop_entry w (selected f w)).
    split; [by rewrite Hdef, stop_loop_returns|].
    split; [intros k; apply (stop_selected_registry f)|].
    split; [apply stop_entries_length|].
    split.
    { by rewrite Hdef, stop_loop_returns, stop_selected_again. }
    intros Hcons.
    split.
    { intros appId. apply (stop_selected_none_live f); [done|].
      apply key_of_account_prefix. }
    split; [intros h Hh; by apply (stop_selected_none_live f)|].
    split; [intros h Hh; by apply (stop_selected_frame f)|].
    by apply (stop_selected_consistent f).
  - intros (k & i & Hk & Hf). rewrite Hdef. apply stop_loop_throws.
    intros Hnil.
    pose proof (proj1 (selected_nil f w) Hnil k i Hk) as Hfk.
    unfold f in Hfk. congruence.
  - intros Hnone. rewrite Hdef.
    by rewrite (proj2 (selected_nil f w)).
Qed.

(** X6.  [stopAllFeishuMonitors()], by the SDK in use.  When the [stop()]
    of the SDK's client returns, the call returns, empties the registry
    and creates no client; if the registry was consistent, no handle has a
    live connection afterwards.  When the client has no [stop] method, the
    call throws a [TypeError] at the first entry and changes nothing,
    unless the registry is empty. *)
Theorem stopAll_leaves_nothing_live (w : World) :
  (∃ w',
     stopAllFeishuMonitors true w = (None, w')
     ∧ activeClients w' = ∅
     ∧ length (sockets w') = length (sockets w)
     ∧ (registry_consistent w →
        (∀ h, live_for h w' = []) ∧ registry_consistent w'))
  ∧ (activeClients w ≠ ∅ →
     stopAllFeishuMonitors false w
     = (Some (not_a_function (js "client.stop")), w))
  ∧ (activeClients w = ∅ → stopAllFeishuMonitors false w = (None, w)).
Proof.
  unfold stopAllFeishuMonitors. split; [|split].
  - rewrite stop_loop_returns, <- selected_all.
    eexists. split; [reflexivity|].
    split.
    { apply map_eq. intros k.
      by rewrite (stop_selected_registry (λ _, true)), lookup_empty. }
    split; [apply stop_entries_length|].
    intros Hcons.
    split; [intros h; by apply (stop_selected_none_live (λ _, true))|].
    by apply (stop_selected_consistent (λ _, true)).
  - intros Hne. apply stop_loop_throws.
    intros Hnil. by apply map_to_list_empty_iff in Hnil.
  - intros ->. by rewrite map_to_list_empty.
Qed.

End LifecycleTheorems.

Section StartTheorems.

Import Monitor Lifecycle.

Implicit Types (w : World) (h : list N * list N).

(** What a start with complete credentials does to the registry and to
    the clients, when the [stop()] it may have to call returns: the SDK's
    client has the method, or no client is registered for the key. *)
Lemma monitor_start has_stop (account : Api.Account) (w : World) :
  credentials_complete account →
  has_stop = true ∨ activeClients w !! key_of (handle_of account) = None →
  ∃ mon w',
    monitorFeishuProvider has_stop account w = (inl mon, w')
    ∧ mon_key mon = key_of (handle_of account)
    ∧ mon_client mon = length (sockets w)
    ∧ activeClients w'
      = <[key_of (handle_of account) := length (sockets w)]>
          (activeClients w)
    ∧ length (sockets w') = S (length (sockets w))
    ∧ ∀ i, sockets w' !! i
           = if decide (i = length (sockets w)) then
               Some {| ws_handle := handle_of account;
                       ws_status := Started |}
             else if decide (activeClients w !! key_of (handle_of account)
                             = Some i) then
               set_status Stopped <$> sockets w !! i
             else sockets w !! i.
Proof.
  intros [Hid Hsec] Hsdk. unfold monitorFeishuProvider.
  rewrite Hid, Hsec. simpl.
  change (clientKey (Api.accountId account) (Api.show_str (Api.appId account)))
    with (key_of (handle_of account)).
  destruct (activeClients w !! key_of (handle_of account)) as [ex|] eqn:Hreg.
  - assert (has_stop = true) as -> by (by destruct Hsdk). simpl.
    eexists _, _. split; [reflexivity|]. simpl.
    rewrite !length_alter.
    split; [done|]. split; [done|].
    split; [by rewrite insert_delete_eq|].
    split; [rewrite length_app, length_alter; simpl; lia|].
    intros i. rewrite alter_app_r_alt by (rewrite length_alter; lia).
    rewrite length_alter, Nat.sub_diag. simpl.
    destruct (decide (i = length (sockets w))) as [->|Hn].
    + rewrite lookup_app_r by (rewrite length_alter; lia).
      by rewrite length_alter, Nat.sub_diag.
    + destruct (decide (i < length (sockets w))%nat) as [Hi|Hi].
      * rewrite lookup_app_l by (rewrite length_alter; lia).
        rewrite list_lookup_alter.
        destruct (decide (ex = i)) as [->|He].
        -- by rewrite decide_True.
        -- by rewrite decide_False by congruence.
      * rewrite lookup_app_r by (rewrite length_alter; lia).
        rewrite length_alter.
        destruct (i - length (sockets w))%nat as [|k] eqn:Hk; [lia|]. simpl.
        rewrite (lookup_ge_None_2 (sockets w) i) by lia.
        by destruct (decide (Some ex = Some i)).
  - simpl. eexists _, _. split; [reflexivity|]. simpl.
    split; [done|]. split; [done|]. split; [done|].
    split; [rewrite length_alter, length_app; simpl; lia|].
    intros i. rewrite alter_app_r_alt by lia.
    rewrite Nat.sub_diag. simpl.
    destruct (decide (i = length (sockets w))) as [->|Hn].
    + rewrite lookup_app_r by lia. by rewrite Nat.sub_diag.
    + destruct (decide (i < length (sockets w))%nat) as [Hi|Hi].
      * by rewrite lookup_app_l by lia.
      * rewrite lookup_app_r by lia.
        destruct (i - length (sockets w))%nat as [|k] eqn:Hk; [lia|]. simpl.
        by rewrite (lookup_ge_None_2 (sockets w) i) by lia.
Qed.

(** A restart over a registered client whose [stop] method is missing
    throws at [existingClient.stop()]: nothing is stopped, deleted or
    created. *)
Lemma restart_throws_without_stop (account : Api.Account) (w : World)
    (existing : nat) :
  credentials_complete account →
  activeClients w !! key_of (handle_of account) = Some existing →
  monitorFeishuProvider false account w
  = (inr (not_a_function (js "existingClient.stop")), w).
Proof.
  intros [Hid Hsec] Hreg. unfold monitorFeishuProvider.
  rewrite Hid, Hsec. cbn [negb orb].
  change (clientKey (Api.accountId account) (Api.show_str (Api.appId account)))
    with (key_of (handle_of account)).
  cbv zeta. by rewrite Hreg.
Qed.

(** In a consistent registry every entry points below the next fresh
    client. *)
Lemma registered_below (w : World) k i :
  registry_keys_match w → activeClients w !! k = Some i →
  (i < length (sockets w))%nat.
Proof.
  intros Hkeys Hk. destruct (Hkeys k i Hk) as (c & Hc & _).
  by eapply lookup_lt_Some.
Qed.

(** What a start leaves behind in a consistent registry. *)
Lemma start_effect has_stop (account : Api.Account) (w : World) :
  credentials_complete account →
  has_stop = true ∨ activeClients w !! key_of (handle_of account) = None →
  registry_consistent w →
  ∃ mon w',
    monitorFeishuProvider has_stop account w = (inl mon, w')
    ∧ mon_client mon = length (sockets w)
    ∧ activeClients w' !! key_of (handle_of account)
      = Some (length (sockets w))
    ∧ live_for (handle_of account) w' = [length (sockets w)]
    ∧ registry_consistent w'
    ∧ (∀ k, k ≠ key_of (handle_of account) →
            activeClients w' !! k = activeClients w !! k)
    ∧ (∀ h, key_of h ≠ key_of (handle_of account) →
            live_for h w' = live_for h w).
Proof.
  intros Hcred Hsdk [Hlive Hkeys].
  destruct (monitor_start has_stop account w Hcred Hsdk)
    as (mon & w' & E & Hkey & Hcl & Hreg & Hlen & Hsock).
  exists mon, w'. split; [done|]. split; [done|].
  split; [by rewrite Hreg, lookup_insert_eq|].
  assert (∀ i c, sockets w' !! i = Some c → ws_status c = Started →
                 i ≠ length (sockets w) →
                 sockets w !! i = Some c
                 ∧ activeClients w !! key_of (handle_of account) ≠ Some i)
    as Hold.
  { intros i c Hc Hst Hn. rewrite Hsock in Hc.
    rewrite decide_False in Hc by done.
    destruct (decide (activeClients w !! key_of (handle_of account) = Some i)).
    - destruct (sockets w !! i); simplify_eq/=.
    - done. }
  split.
  { apply live_for_singleton; [lia|]. intros i c Hc. split.
    - intros [Hh Hst]. destruct (decide (i = length (sockets w))); [done|].
      destruct (Hold i c Hc Hst) as [Hc0 Hne]; [done|].
      exfalso. apply Hne. rewrite <- Hh. by apply Hlive.
    - intros ->. rewrite Hsock, decide_True in Hc by done.
      by injection Hc as <-. }
  split.
  { split.
    - intros i c Hc Hst. rewrite Hreg.
      destruct (decide (i = length (sockets w))) as [->|Hn].
      + rewrite Hsock, decide_True in Hc by done. injection Hc as <-.
        simpl. apply lookup_insert_eq.
      + destruct (Hold i c Hc Hst Hn) as [Hc0 Hne].
        pose proof (Hlive i c Hc0 Hst) as Hr.
        rewrite lookup_insert_ne; [done|]. intros Heq.
        rewrite <- Heq in Hr. done.
    - intros k i Hk. rewrite Hreg in Hk.
      apply lookup_insert_Some in Hk as [[<- <-]|[Hne Hk]].
      + rewrite Hsock, decide_True by done. eauto.
      + destruct (Hkeys k i Hk) as (c & Hc & Hkc).
        pose proof (lookup_lt_Some _ _ _ Hc) as Hlt.
        rewrite Hsock, decide_False by lia.
        destruct (decide (_ = Some i)).
        * exists (set_status Stopped c). by rewrite Hc.
        * eauto. }
  split.
  { intros k Hk. by rewrite Hreg, lookup_insert_ne. }
  intros h Hh. unfold live_for. rewrite Hlen, seq_S, List.filter_app.
  simpl. rewrite Hsock, decide_True by done.
  rewrite bool_decide_eq_false_2 by (simpl; intros [<- _]; done).
  rewrite app_nil_r. apply List.filter_ext_in. intros i Hi.
  apply in_seq in Hi. rewrite Hsock, decide_False by lia.
  destruct (decide (_ = Some i)) as [Hex|Hex]; [|done].
  destruct (Hkeys _ _ Hex) as (c & Hc & Hkc). rewrite Hc. simpl.
  rewrite !bool_decide_eq_false_2; [done| |];
    intros [Hh' _]; apply Hh; by rewrite <- Hh', Hkc.
Qed.

(** X7.  Starting a monitor for an account with both credentials, when the
    [stop()] the start may have to call returns (the SDK's client has the
    method, or no client is registered under the key of the handle).  The
    call returns a monitor whose client is new and started, registered
    under the key of the handle in place of the client that was there;
    one client is created and no other key changes.  If the registry was
    consistent, the new client is then the one live connection of the
    handle, the registry stays consistent, and the live connections of
    handles with another key are as before. *)
Theorem start_registers_one_connection has_stop (account : Api.Account)
    (w : World) :
  credentials_complete account →
  has_stop = true ∨ activeClients w !! key_of (handle_of account) = None →
  ∃ mon w',
    monitorFeishuProvider has_stop account w = (inl mon, w')
    ∧ mon_client mon = length (sockets w)
    ∧ activeClients w'
      = <[key_of (handle_of account) := length (sockets w)]>
          (activeClients w)
    ∧ sockets w' !! length (sockets w)
      = Some {| ws_handle := handle_of account; ws_status := Started |}
    ∧ length (sockets w') = S (length (sockets w))
    ∧ (registry_consistent w →
       live_for (handle_of account) w' = [length (sockets w)]
       ∧ registry_consistent w'
       ∧ (∀ h, key_of h ≠ key_of (handle_of account) →
               live_for h w' = live_for h w)).
Proof.
  intros Hcred Hsdk.
  destruct (monitor_start has_stop account w Hcred Hsdk)
    as (mon & w' & E & _ & Hcl & Hreg & Hlen & Hsock).
  exists mon, w'. split; [done|]. split; [done|]. split; [done|].
  split; [by rewrite Hsock, decide_True|]. split; [done|].
  intros Hcons.
  destruct (start_effect has_stop account w Hcred Hsdk Hcons)
    as (mon1 & w1 & E1 & _ & _ & Hone & Hcons' & _ & Hframe).
  rewrite E in E1. injection E1 as <- <-. done.
Qed.

(** X8.  The [stop] closure a start returned, called in the state the
    start left, by the SDK in use.  With an SDK whose [stop()] returns,
    the closure returns, its client is stopped and the key of the handle
    leaves the registry, other keys untouched; a second call changes
    neither the registry nor any client.  If the registry was consistent
    before the start, the handle has no live connection after the closure
    ran and the registry is consistent.  With a client that has no [stop]
    method the closure throws a [TypeError] and changes nothing: the
    client stays started and registered. *)
Theorem stop_after_start has_stop (account : Api.Account) (w : World)
    (mon : FeishuProviderMonitor) (w' : World) :
  credentials_complete account →
  monitorFeishuProvider has_stop account w = (inl mon, w') →
  (has_stop = true →
   ∃ w'',
     stop has_stop mon w' = (None, w'')
     ∧ activeClients w'' = delete (key_of (handle_of account))
                             (activeClients w)
     ∧ ws_status <$> sockets w'' !! mon_client mon = Some Stopped
     ∧ (∃ w3, stop has_stop mon w'' = (None, w3)
              ∧ activeClients w3 = activeClients w''
              ∧ sockets w3 = sockets w'')
     ∧ (registry_consistent w →
        live_for (handle_of account) w'' = []
        ∧ registry_consistent w''))
  ∧ (has_stop = false →
     stop has_stop mon w'
     = (Some (not_a_function (js "wsClient.stop")), w')).
Proof.
  intros Hcred E0. split; [intros ->|by intros ->].
  destruct (monitor_start true account w Hcred (or_introl eq_refl))
    as (mon'' & w2 & E' & Hkey & Hcl & Hreg & Hlen & Hsock).
  rewrite E0 in E'. injection E' as <- <-.
  exists (registry_delete (mon_key mon) (stopped (mon_client mon) w')).
  split; [reflexivity|]. simpl. rewrite Hkey, Hcl.
  split; [by rewrite Hreg, delete_insert_eq|].
  split.
  { rewrite list_lookup_alter_eq, Hsock, decide_True by done. done. }
  split.
  { eexists. split; [reflexivity|]. simpl.
    split; [by rewrite Hkey, delete_delete_eq|].
    rewrite Hcl. apply list_eq. intros i. rewrite !list_lookup_alter.
    destruct (decide (length (sockets w) = i)) as [<-|]; [|done].
    rewrite decide_True by done.
    by destruct (sockets w' !! length (sockets w)). }
  intros Hcons.
  destruct (start_effect true account w Hcred (or_introl eq_refl) Hcons)
    as (mon' & w1 & E & _ & _ & Hone & [Hlive' Hkeys'] & _ & _).
  rewrite E0 in E. injection E as <- <-.
  assert (∀ i c, alter (set_status Stopped) (length (sockets w))
                   (sockets w') !! i = Some c →
                 ws_status c = Started →
                 i ≠ length (sockets w) ∧ sockets w' !! i = Some c) as Hrun.
  { intros i c Hc Hst. rewrite list_lookup_alter in Hc.
    destruct (decide (length (sockets w) = i)) as [<-|Hn].
    - destruct (sockets w' !! _); simplify_eq/=.
    - split; [congruence|done]. }
  split.
  { apply live_for_none. simpl. intros i c Hc Hh Hst.
    destruct (Hrun i c Hc Hst) as [Hn Hc'].
    pose proof (Hlive' i c Hc' Hst) as Hr.
    rewrite Hh, Hreg, lookup_insert_eq in Hr. congruence. }
  split.
  - intros i c Hc Hst. simpl in *.
    destruct (Hrun i c Hc Hst) as [Hn Hc'].
    pose proof (Hlive' i c Hc' Hst) as Hr.
    rewrite lookup_delete_ne; [done|]. intros Heq.
    rewrite <- Heq, Hreg, lookup_insert_eq in Hr. congruence.
  - intros k i Hk. simpl in *.
    apply lookup_delete_Some in Hk as [Hne Hk].
    destruct (Hkeys' k i Hk) as (c & Hc & Hkc).
    rewrite list_lookup_alter.
    destruct (decide (length (sockets w) = i)) as [<-|].
    + exists (set_status Stopped c). by rewrite Hc.
    + eauto.
Qed.

(** X9.  The [stop] closure of a monitor that has been replaced, with an
    SDK whose [stop()] returns and a registry that was consistent when the
    replacement was started over the started, registered client of the
    handle.  The closure stops its own, already stopped client, and
    deletes the registry entry of the replacement without stopping it:
    the replacement stays live but is no longer registered, and
    [stopFeishuMonitor] for the account does not reach it any more. *)
Theorem stale_stop_orphans_successor
    (account : Api.Account) (w : World) (existing : nat) (c : WSClient) :
  credentials_complete account →
  registry_consistent w →
  sockets w !! existing = Some c →
  ws_handle c = handle_of account →
  ws_status c = Started →
  ∃ mon w' w'' w3,
    monitorFeishuProvider true account w = (inl mon, w')
    ∧ stop true {| mon_account := account;
                   mon_key := key_of (handle_of account);
                   mon_client := existing |} w' = (None, w'')
    ∧ activeClients w'' !! key_of (handle_of account) = None
    ∧ live_for (handle_of account) w'' = [mon_client mon]
    ∧ ¬ registry_tracks_live w''
    ∧ stopFeishuMonitor true (Api.accountId account) w'' = (None, w3)
    ∧ live_for (handle_of account) w3 = [mon_client mon].
Proof.
  intros Hcred Hcons Hex Hh Hst. pose proof Hcons as [Hlive Hkeys].
  destruct (start_effect true account w Hcred (or_introl eq_refl) Hcons)
    as (mon & w' & E & Hcl & Hnew & Hone & [Hlive' Hkeys'] & Hother & _).
  destruct (monitor_start true account w Hcred (or_introl eq_refl))
    as (mon'' & w2 & E' & _ & _ & Hreg & Hlen & Hsock).
  rewrite E in E'. injection E' as <- <-.
  set (f := λ k : list N, JS.startsWith k (Api.accountId account ++ js ":")).
  set (w1 := registry_delete (key_of (handle_of account))
               (stopped existing w')).
  exists mon, w', w1, (foldl stop_entry w1 (selected f w1)).
  split; [done|]. split; [reflexivity|]. rewrite Hcl.
  pose proof (lookup_lt_Some _ _ _ Hex) as Hlt.
  assert (activeClients w !! key_of (handle_of account) = Some existing)
    as Hregd by (rewrite <- Hh; by apply Hlive).
  assert (sockets w1 = sockets w') as Hsame.
  { unfold w1. simpl. apply list_eq. intros i. rewrite list_lookup_alter.
    destruct (decide (existing = i)) as [<-|]; [|done].
    rewrite Hsock, decide_False, decide_True by (done || lia).
    by rewrite Hex. }
  assert (live_for (handle_of account) w1 = [length (sockets w)]) as Hstill.
  { rewrite <- Hone. apply live_for_ext.
    - by rewrite Hsame.
    - intros i c' Hc' _. by rewrite Hsame.
    - intros i c' Hc' _ _. by rewrite <- Hsame. }
  split; [unfold w1; simpl; apply lookup_delete_eq|].
  split; [done|].
  split.
  { intros Htr.
    assert (sockets w' !! length (sockets w)
            = Some {| ws_handle := handle_of account;
                      ws_status := Started |}) as Hn
      by (by rewrite Hsock, decide_True).
    rewrite <- Hsame in Hn. specialize (Htr _ _ Hn eq_refl).
    unfold w1 in Htr. simpl in Htr. by rewrite lookup_delete_eq in Htr. }
  split.
  { change (stopFeishuMonitor true (Api.accountId account) w1)
      with (stop_loop true (selected f w1) w1).
    apply stop_loop_returns. }
  rewrite <- Hstill.
  (* a client the loop selects was created for a handle with another key *)
  assert (∀ i c', i ∈ (selected f w1).*2 → sockets w1 !! i = Some c' →
                  ws_handle c' ≠ handle_of account) as Hforeign.
  { intros i c' (k & Hk & _)%selected_clients Hc' Hh'.
    unfold w1 at 1 in Hk. simpl in Hk.
    apply lookup_delete_Some in Hk as [Hne Hk].
    rewrite Hother in Hk by done.
    pose proof (registered_below w k i Hkeys Hk) as Hi.
    destruct (Hkeys k i Hk) as (c1 & Hc1 & Hk1).
    rewrite Hsame, Hsock, decide_False, Hc1 in Hc' by lia.
    apply Hne. rewrite <- Hk1, <- Hh'.
    destruct (decide (_ = Some i)); simplify_eq/=; done. }
  apply live_for_iff; [apply stop_entries_length|].
  intros i. rewrite stop_entries_sockets.
  destruct (decide (i ∈ (selected f w1).*2)) as [Hin|]; [|done].
  split.
  - intros (c' & Hc' & Hh' & Hst').
    destruct (sockets w1 !! i); simplify_eq/=.
  - intros (c' & Hc' & Hh' & _). by destruct (Hforeign i c' Hin Hc').
Qed.

(** X10.  The gateway adapter.  [startAccount] throws, without touching
    registry or clients, when the account lacks a credential.  For an
    account with both, a consistent registry and an SDK whose [stop()]
    returns, it starts the monitor, which is then the one live connection
    of the handle, and a following [stopAccount] returns and leaves the
    account without live connection and without registry key, the registry
    consistent.  With a client that has no [stop] method, a [stopAccount]
    that follows a start throws a [TypeError] and changes nothing: the
    connection stays live and registered. *)
Theorem gateway_start_then_stop (account : Api.Account) (w : World) :
  (isFeishuAccountConfigured account = false →
   ∀ has_stop, ∃ e, startAccount has_stop account w = (inr e, w))
  ∧ (isFeishuAccountConfigured account = true →
     registry_consistent w →
     ∃ mon w' w'',
       startAccount true account w = (inl mon, w')
       ∧ live_for (handle_of account) w' = [mon_client mon]
       ∧ stopAccount true account w' = (None, w'')
       ∧ live_for (handle_of account) w'' = []
       ∧ (∀ k, JS.startsWith k (Api.accountId account ++ js ":") = true →
               activeClients w'' !! k = None)
       ∧ registry_consistent w'')
  ∧ (∀ mon w',
       startAccount false account w = (inl mon, w') →
       stopAccount false account w'
       = (Some (not_a_function (js "client.stop")), w')).
Proof.
  unfold startAccount, stopAccount. split; [|split].
  - intros Hc has_stop. rewrite Hc. simpl. eauto.
  - intros Hc Hcons. rewrite Hc. simpl. apply andb_true_iff in Hc.
    destruct (start_effect true account w Hc (or_introl eq_refl) Hcons)
      as (mon & w' & E & Hcl & _ & Hone & Hcons' & _ & _).
    set (f := λ k : list N,
                JS.startsWith k (Api.accountId account ++ js ":")).
    exists mon, w', (foldl stop_entry w' (selected f w')).
    split; [done|]. split; [by rewrite Hcl|].
    split.
    { change (stopFeishuMonitor true (Api.accountId account) w')
        with (stop_loop true (selected f w') w').
      apply stop_loop_returns. }
    split.
    { apply (stop_selected_none_live f); [done|].
      apply key_of_account_prefix. }
    split.
    { intros k Hk. rewrite (stop_selected_registry f). unfold f.
      by rewrite Hk. }
    by apply (stop_selected_consistent f).
  - intros mon w' E.
    destruct (isFeishuAccountConfigured account) eqn:Hc; [|done].
    simpl in E. apply andb_true_iff in Hc.
    destruct (activeClients w !! key_of (handle_of account)) as [ex|]
      eqn:Hreg.
    { by rewrite (restart_throws_without_stop account w ex) in E. }
    destruct (monitor_start false account w Hc (or_intror Hreg))
      as (mon1 & w1 & E1 & _ & _ & Hreg1 & _).
    rewrite E in E1. injection E1 as <- <-.
    set (f := λ k : list N,
                JS.startsWith k (Api.accountId account ++ js ":")).
    change (stopFeishuMonitor false (Api.accountId account) w')
      with (stop_loop false (selected f w') w').
    apply stop_loop_throws. intros Hnil.
    pose proof (proj1 (selected_nil f w') Hnil
                  (key_of (handle_of account)) (length (sockets w))) as Hf.
    rewrite Hreg1, lookup_insert_eq in Hf. specialize (Hf eq_refl).
    unfold f, handle_of in Hf.
    pose proof (key_of_account_prefix (Api.accountId account)
                  (Api.show_str (Api.appId account))) as Hp.
    congruence.
Qed.

End StartTheorems.


(** C8, at its failing inputs.  Starting twice for the same account does
    not do what the claim says, whichever SDK is in use.  With a client
    that has no [stop] method the second start throws at
    [existingClient.stop()]: the first client stays started and
    registered and no new client is created.  With a client whose
    [stop()] returns, the [stop] closure of the first monitor, called
    after the restart, deletes the registry entry of the second client
    without stopping it, and the start that follows finds no registered
    client to stop: the handle then has two live connections. *)
Theorem restart_can_break_the_registry :
  (∃ w1,
     Monitor.monitorFeishuProvider false acct no_monitor
     = (inl first_monitor, w1)
     ∧ Monitor.monitorFeishuProvider false acct w1
       = (inr (Monitor.not_a_function (js "existingClient.stop")), w1)
     ∧ Monitor.live_for (handle_of acct) w1 = [0%nat]
     ∧ length (Monitor.sockets w1) = 1%nat)
  ∧ (∃ w1 mon2 w2 w3 mon3 w4,
       Monitor.monitorFeishuProvider true acct no_monitor
       = (inl first_monitor, w1)
       ∧ Monitor.monitorFeishuProvider true acct w1 = (inl mon2, w2)
       ∧ Monitor.live_for (handle_of acct) w2 = [1%nat]
       ∧ Monitor.stop true first_monitor w2 = (None, w3)
       ∧ Monitor.live_for (handle_of acct) w3 = [1%nat]
       ∧ Monitor.activeClients w3 !! key_of (handle_of acct) = None
       ∧ Monitor.monitorFeishuProvider true acct w3 = (inl mon3, w4)
       ∧ Monitor.live_for (handle_of acct) w4 = [1%nat; 2%nat]
       ∧ Monitor.activeClients w4 !! key_of (handle_of acct) = Some 2%nat).
Proof.
  split.
  - eexists. split; [by vm_compute|]. by vm_compute.
  - eexists _, _, _, _, _, _.
    split; [by vm_compute|]. split; [by vm_compute|].
    split; [by vm_compute|]. split; [by vm_compute|].
    split; [by vm_compute|]. split; [by vm_compute|].
    split; [by vm_compute|]. by vm_compute.
Qed.

(** The sample registry is consistent. *)
Lemma one_live_consistent : registry_consistent one_live.
Proof.
  split.
  - intros i c Hi Hst. destruct i as [|i]; simpl in Hi.
    + injection Hi as <-. by vm_compute.
    + by rewrite lookup_nil in Hi.
  - intros k i Hk. unfold one_live in Hk. simpl in Hk.
    apply lookup_singleton_Some in Hk as [<- <-].
    eexists. split; [reflexivity|]. by vm_compute.
Qed.

Lemma stopFeishuMonitor_stops_the_account_witness :
  (∃ w', Lifecycle.stopFeishuMonitor true (js "main") one_live = (None, w')
         ∧ Monitor.live_for (js "main", js "cli_test") w' = []
         ∧ registry_consistent w')
  ∧ Lifecycle.stopFeishuMonitor false (js "main") one_live
    = (Some (Monitor.not_a_function (js "client.stop")), one_live).
Proof.
  destruct (stopFeishuMonitor_stops_the_account (js "main") one_live)
    as ((w' & E & _ & _ & _ & H) & Hthrow & _).
  destruct (H one_live_consistent) as (Hnone & _ & _ & Hcons).
  split; [exists w'; split; [exact E|split; [apply Hnone|exact Hcons]]|].
  apply Hthrow. exists (js "main:cli_test"), 0%nat.
  split; [apply lookup_singleton_eq | by vm_compute].
Defined.

Lemma stopAll_leaves_nothing_live_witness :
  (∃ w', Lifecycle.stopAllFeishuMonitors true one_live = (None, w')
         ∧ Monitor.activeClients w' = ∅
         ∧ Monitor.live_for (js "main", js "cli_test") w' = [])
  ∧ Lifecycle.stopAllFeishuMonitors false one_live
    = (Some (Monitor.not_a_function (js "client.stop")), one_live).
Proof.
  destruct (stopAll_leaves_nothing_live one_live)
    as ((w' & E & Hreg & _ & H) & Hthrow & _).
  destruct (H one_live_consistent) as (Hnone & _).
  split; [exists w'; split; [exact E|split; [exact Hreg|apply Hnone]]|].
  apply Hthrow. intros Hempty.
  assert (Monitor.activeClients one_live !! js "main:cli_test" = None)
    as Hno by (by rewrite Hempty).
  unfold one_live in Hno. cbn [Monitor.activeClients] in Hno.
  rewrite lookup_singleton_eq in Hno. discriminate.
Defined.

Lemma start_registers_one_connection_witness :
  (∃ mon w',
     Monitor.monitorFeishuProvider false acct no_monitor = (inl mon, w')
     ∧ Monitor.mon_client mon = 0%nat
     ∧ Monitor.activeClients w' = {[ js "main:cli_test" := 0%nat ]}
     ∧ length (Monitor.sockets w') = 1%nat)
  ∧ (∃ mon w',
       Monitor.monitorFeishuProvider true acct one_live = (inl mon, w')
       ∧ Monitor.mon_client mon = 1%nat
       ∧ Monitor.live_for (handle_of acct) w' = [1%nat]
       ∧ registry_consistent w').
Proof.
  split.
  - destruct (start_registers_one_connection false acct no_monitor)
      as (mon & w' & E & Hcl & Hreg & _ & Hlen & _).
    + split; reflexivity.
    + right. apply lookup_empty.
    + exists mon, w'. split; [exact E|]. split; [exact Hcl|].
      split; [|exact Hlen]. rewrite Hreg. apply insert_empty.
  - destruct (start_registers_one_connection true acct one_live)
      as (mon & w' & E & Hcl & _ & _ & _ & H).
    + split; reflexivity.
    + left. reflexivity.
    + destruct (H one_live_consistent) as (Hone & Hcons & _).
      exists mon, w'. split; [exact E|]. split; [exact Hcl|].
      split; [exact Hone | exact Hcons].
Defined.

Lemma stop_after_start_witness :
  Monitor.stop false first_monitor
    (Monitor.monitorFeishuProvider false acct no_monitor).2
  = (Some (Monitor.not_a_function (js "wsClient.stop")),
     (Monitor.monitorFeishuProvider false acct no_monitor).2)
  ∧ ∃ w'',
      Monitor.stop true second_monitor restarted = (None, w'')
      ∧ Monitor.live_for (handle_of acct) w'' = [].
Proof.
  split.
  - destruct (stop_after_start false acct no_monitor first_monitor
                (Monitor.monitorFeishuProvider false acct no_monitor).2)
      as (_ & Hthrow).
    + split; reflexivity.
    + by vm_compute.
    + by apply Hthrow.
  - destruct (stop_after_start true acct one_live second_monitor restarted)
      as (H & _).
    + split; reflexivity.
    + by vm_compute.
    + destruct (H eq_refl) as (w'' & E & _ & _ & _ & Hc).
      destruct (Hc one_live_consistent) as (Hnone & _).
      exists w''. split; [exact E | exact Hnone].
Defined.

Lemma stale_stop_orphans_successor_witness :
  ∃ mon w' w'' w3,
    Monitor.monitorFeishuProvider true acct one_live = (inl mon, w')
    ∧ Monitor.stop true first_monitor w' = (None, w'')
    ∧ Monitor.live_for (handle_of acct) w'' = [Monitor.mon_client mon]
    ∧ Lifecycle.stopFeishuMonitor true (Api.accountId acct) w'' = (None, w3)
    ∧ Monitor.live_for (handle_of acct) w3 = [Monitor.mon_client mon].
Proof.
  destruct (stale_stop_orphans_successor acct one_live 0
              {| Monitor.ws_handle := (js "main", js "cli_test");
                 Monitor.ws_status := Monitor.Started |})
    as (mon & w' & w'' & w3 & E & Es & _ & Hlive & _ & Ef & H).
  - split; reflexivity.
  - exact one_live_consistent.
  - reflexivity.
  - reflexivity.
  - reflexivity.
  - exists mon, w', w'', w3. split; [exact E|]. split; [exact Es|].
    split; [exact Hlive|]. split; [exact Ef | exact H].
Defined.

Lemma gateway_start_then_stop_witness :
  (∃ mon w' w'',
     Lifecycle.startAccount true acct one_live = (inl mon, w')
     ∧ Lifecycle.stopAccount true acct w' = (None, w'')
     ∧ Monitor.live_for (handle_of acct) w'' = [])
  ∧ Lifecycle.stopAccount false acct
      (Lifecycle.startAccount false acct no_monitor).2
    = (Some (Monitor.not_a_function (js "client.stop")),
       (Lifecycle.startAccount false acct no_monitor).2).
Proof.
  destruct (gateway_start_then_stop acct one_live) as (_ & H & _).
  destruct (H eq_refl one_live_consistent)
    as (mon & w' & w'' & E & _ & Es & Hnone & _).
  split; [exists mon, w', w''; split; [exact E|split; [exact Es|exact Hnone]]|].
  destruct (gateway_start_then_stop acct no_monitor) as (_ & _ & Hf).
  apply (Hf first_monitor). by vm_compute.
Defined.

(** ** Client cache, send and probe *)

Section ClientFacts.

Import Api Status.

Variable net : Transport.

Implicit Types (w : World) (account : Account).

(** X11.  The client cache.  A cached client is handed out without a look
    at the credentials.  After [clearFeishuClientCache(appId)] for the
    application of an account, no client is cached for it: the next
    [getFeishuClient] makes and caches one when both credentials are there
    and throws otherwise; the clients of other applications stay cached.
    [clearFeishuClientCache()] leaves no client cached at all. *)
Theorem clear_then_get account w :
  JS.truthy_opt (appId account) = true →
  (cached account w → getFeishuClient account w = (Val tt, w))
  ∧ ¬ cached account (clearFeishuClientCache (appId account) w)
  ∧ (credentials_complete account →
     ∃ w', getFeishuClient account
             (clearFeishuClientCache (appId account) w) = (Val tt, w')
           ∧ cached account w' ∧ sent w' = sent w)
  ∧ (¬ credentials_complete account →
     getFeishuClient account (clearFeishuClientCache (appId account) w)
     = (Exn credentials_error,
        clearFeishuClientCache (appId account) w))
  ∧ (∀ other, show_str (appId other) ≠ show_str (appId account) →
              cached other w →
              cached other (clearFeishuClientCache (appId account) w))
  ∧ (∀ other, ¬ cached other (clearFeishuClientCache None w)).
Proof.
  intros Hid. destruct (appId account) as [a|] eqn:Ha; [|done].
  simpl in Hid.
  assert (¬ cached account (clearFeishuClientCache (Some a) w)) as Hgone.
  { unfold cached, clearFeishuClientCache. rewrite Hid, Ha. simpl.
    intros [_ Hin]%elem_of_difference. apply Hin.
    by apply elem_of_singleton. }
  split; [apply getFeishuClient_cached|].
  split; [done|].
  split.
  { intros Hcred.
    destruct (getFeishuClient_available account
                (clearFeishuClientCache (Some a) w)) as (w' & E & Hs & Hc).
    - unfold client_available. destruct Hcred as [-> ->].
      apply orb_true_r.
    - exists w'. split; [done|]. split; [done|].
      rewrite Hs. unfold clearFeishuClientCache. by rewrite Hid. }
  split.
  { intros Hcred. apply getFeishuClient_unavailable.
    unfold client_available.
    rewrite bool_decide_eq_false_2 by exact Hgone. simpl.
    unfold credentials_complete in Hcred.
    destruct (JS.truthy_opt (appId account)),
             (JS.truthy_opt (appSecret account)); try done.
    exfalso. by apply Hcred. }
  split.
  { intros other Hne Hc. unfold cached, clearFeishuClientCache in *.
    rewrite Hid. simpl. simpl in Hne. set_solver. }
  intros other. unfold cached. simpl. set_solver.
Qed.

(** X12.  [sendFeishuMessage] never throws and issues one request at most.
    It reports success exactly when a client could be had and the
    platform answered the request with code 0. *)
Theorem send_reports_the_answer account chatId text receiveIdType w :
  ∃ r w',
    sendFeishuMessage net account chatId text receiveIdType w = (Val r, w')
    ∧ (send_success r = true
       ↔ client_available account w = true
         ∧ answer_ok (net (length (sent w))
                        (MessageCreate receiveIdType chatId (js "text") text))
           = true)
    ∧ sent w'
      = sent w
        ++ (if client_available account w
            then [MessageCreate receiveIdType chatId (js "text") text]
            else []).
Proof.
  unfold sendFeishuMessage, try_catch, bind.
  destruct (client_available account w) eqn:Ha.
  - destruct (getFeishuClient_available _ _ Ha) as (w1 & E & Hs & Hc).
    rewrite E. unfold request. rewrite Hs.
    destruct (net _ _) as [resp|e]; simpl.
    + destruct (code_is_zero resp); simpl;
        (eexists _, _; split; [reflexivity|]; simpl; split; [|done]).
      * by split.
      * by split; [|intros [_ ?]].
    + eexists _, _; split; [reflexivity|]; simpl; split; [|done].
      by split; [|intros [_ ?]].
  - rewrite getFeishuClient_unavailable by done.
    eexists _, _; split; [reflexivity|]; simpl.
    split; [by split; [|intros [? _]] | by rewrite app_nil_r].
Qed.

(** X13.  The probe.  [probeFeishu] never throws and reports [ok] exactly
    when a client could be had and the bot-info request was answered with
    code 0.  [probeAccount] answers an account that lacks a credential
    with [ok: false] without any request, even when a client of its
    application is cached. *)
Theorem probe_reports_the_answer account w :
  (∃ r w',
     probeFeishu net account w = (Val r, w')
     ∧ (probe_ok r = true
        ↔ client_available account w = true
          ∧ answer_ok
              (net (length (sent w))
                 (ClientRequest GET
                    {| path := js "/open-apis/bot/v3/info"; query := [] |}
                    NoPayload)) = true))
  ∧ (Lifecycle.isFeishuAccountConfigured account = false →
     probeAccount net account w
     = (Val {| probe_ok := false;
               probe_error := Some (js "missing appId or appSecret") |}, w))
  ∧ (Lifecycle.isFeishuAccountConfigured account = true →
     probeAccount net account w = probeFeishu net account w).
Proof.
  split; [|split].
  - unfold probeFeishu, try_catch, bind.
    destruct (client_available account w) eqn:Ha.
    + destruct (getFeishuClient_available _ _ Ha) as (w1 & E & Hs & Hc).
      rewrite E. unfold request. rewrite Hs.
      destruct (net _ _) as [resp|e]; simpl.
      * destruct (code_is_zero resp); simpl;
          (eexists _, _; split; [reflexivity|]; simpl).
        -- by split.
        -- by split; [|intros [_ ?]].
      * eexists _, _; split; [reflexivity|]; simpl.
        by split; [|intros [_ ?]].
    + rewrite getFeishuClient_unavailable by done.
      eexists _, _; split; [reflexivity|]; simpl.
      by split; [|intros [? _]].
  - intros Hc. unfold probeAccount. by rewrite Hc.
  - intros Hc. unfold probeAccount. by rewrite Hc.
Qed.

End ClientFacts.

(** ** The permission query and the gate, for any answers *)

Section GateSoundness.

Import Api Commands.

Variable net : Transport.

Lemma code_is_zero_true (r : Response) :
  code_is_zero r = true → code r = Some 0.
Proof. unfold code_is_zero. apply bool_decide_eq_true_1. Qed.

Lemma manager_listed (userId : list N) (l : list Item) :
  existsb (λ m, bool_decide (manager_id m = Some userId)) l = true →
  ∃ it, it ∈ l ∧ manager_id it = Some userId.
Proof.
  intros H. apply existsb_exists in H as (it & Hin & Hit).
  exists it. split; [by apply list_elem_of_In|].
  by apply bool_decide_eq_true_1 in Hit.
Qed.

(** Whom the permission query admits. *)
Lemma isUserGroupAdmin_sound account chatId userId w perm w' :
  isUserGroupAdmin net account chatId userId w = (Val perm, w') →
  (isOwner perm = true →
   isAdmin perm = true ∧ named_owner net (length (sent w)) chatId userId)
  ∧ (isAdmin perm = true → isOwner perm = false →
     named_manager net (length (sent w)) chatId userId)
  ∧ (isAdmin perm || isOwner perm = true →
     ac_error perm = None ∧ client_available account w = true).
Proof.
  unfold isUserGroupAdmin, getGroupInfo, try_catch, bind.
  destruct (client_available account w) eqn:Ha.
  - destruct (getFeishuClient_available _ _ Ha) as (w1 & E & Hs & Hc).
    rewrite E. unfold request. rewrite Hs.
    repeat
      (cbn [gi_error gi_ownerId gi_name JS.truthy_opt ret sent clientCache];
       rewrite ?length_app; cbn [length]; rewrite ?Nat.add_1_r;
       match goal with
       | |- context [getFeishuClient account ?w2] =>
         rewrite (getFeishuClient_cached account w2) by exact Hc
       | |- context [match net ?n ?r with _ => _ end] =>
         destruct (net n r) as [?|?] eqn:?
       | |- context [if ?b then _ else _] => destruct b eqn:?
       | |- context [match catch_text ?e with _ => _ end] =>
         destruct (catch_text e) as [?|]
       end);
      intros [= <- <-]; cbn [isAdmin isOwner ac_error orb];
      (split; [|split]); try done.
    all: try (intros _; split; reflexivity).
    all: try (intros _; split; [reflexivity|]).
    all: try (intros Hm _).
    all: repeat match goal with
         | H : negb _ = false |- _ => apply negb_false_iff in H
         end.
    all: match goal with
         | H : bool_decide (_ = Some _) = true |- named_owner _ _ _ _ =>
           apply bool_decide_eq_true_1 in H;
           eexists; split; [eassumption|];
           split; [by apply code_is_zero_true | exact H]
         | H : existsb _ _ = true |- named_manager _ _ _ _ =>
           apply manager_listed in H;
           eexists; split; [eassumption|];
           split; [by apply code_is_zero_true | exact H]
         end.
  - rewrite getFeishuClient_unavailable by done.
    cbn [gi_error ret]. rewrite credentials_error_truthy.
    intros [= <- <-]. cbn [isAdmin isOwner ac_error orb].
    split; [|split]; discriminate.
Qed.

End GateSoundness.

Section GateTheorems.

Import Api Commands.

Variable net : Transport.

(** X14.  [isUserGroupAdmin] never throws, and it admits a user only on
    the word of the platform: it reports [isOwner] only when the group-info
    request was answered with code 0 and names the user as owner, and
    [isAdmin] without [isOwner] only when the administrators request, the
    next one of the run, was answered with code 0 and lists the user.
    Whoever is admitted is admitted without an error text, and a client was
    to be had. *)
Theorem admin_check_needs_evidence account chatId userId w :
  ∃ perm w',
    isUserGroupAdmin net account chatId userId w = (Val perm, w')
    ∧ (isOwner perm = true →
       isAdmin perm = true
       ∧ named_owner net (length (sent w)) chatId userId)
    ∧ (isAdmin perm = true → isOwner perm = false →
       named_manager net (length (sent w)) chatId userId)
    ∧ (isAdmin perm || isOwner perm = true →
       ac_error perm = None ∧ client_available account w = true).
Proof.
  destruct (isUserGroupAdmin_run net account chatId userId w)
    as (perm & w' & extra & E & _).
  exists perm, w'. split; [exact E|].
  exact (isUserGroupAdmin_sound net _ _ _ _ _ _ E).
Qed.

(** X15.  The gate fails closed.  For a command that needs the permission
    (announcement, add_member, remove_member), whatever the platform
    answers or fails to answer: unless its answers name the sender owner
    or administrator of the chat, [executeCommand] returns
    [success: false] and the requests of the run are reads only. *)
Theorem gate_fails_closed fuel account command context w :
  requiresAdminPermission (type command) = true →
  ¬ named_owner net (length (sent w)) (chatId context) (senderId context) →
  ¬ named_manager net (length (sent w)) (chatId context) (senderId context) →
  ∃ r w' extra,
    executeCommand net fuel account command context w = (Val r, w')
    ∧ success r = false
    ∧ sent w' = sent w ++ extra
    ∧ Forall (λ q, is_mutation q = false) extra.
Proof.
  intros Hgate Hno Hnm. unfold executeCommand. rewrite Hgate. unfold bind.
  destruct (isUserGroupAdmin_run net account (chatId context)
              (senderId context) w)
    as (perm & w1 & extra & E & Hs & Hread & _).
  rewrite E.
  destruct (isUserGroupAdmin_sound net _ _ _ _ _ _ E) as (Ho & Hm & _).
  destruct (JS.truthy_opt (ac_error perm)).
  { eexists _, w1, extra. split; [reflexivity|]. by cbn [success]. }
  destruct (isOwner perm) eqn:Eo.
  { exfalso. apply Hno. by apply Ho. }
  destruct (isAdmin perm) eqn:Ea.
  { exfalso. apply Hnm. by apply Hm. }
  cbn [negb andb].
  eexists _, w1, extra. split; [reflexivity|]. by cbn [success].
Qed.

End GateTheorems.

(** ** Updating the announcement *)

Section AnnouncementWrites.

Import Api Commands.

Variable net : Transport.

Lemma write_confirmed_after_reads k content pre extra :
  Forall (λ r, is_mutation r = false) pre →
  write_confirmed net (k + length pre) content extra →
  write_confirmed net k content (pre ++ extra).
Proof.
  intros Hpre (reads & q & resp & -> & Hr & Hw & Hn & Hc).
  exists (pre ++ reads), q, resp. split; [by rewrite app_assoc|].
  split; [by apply Forall_app|]. split; [done|]. split; [|done].
  by rewrite length_app, Nat.add_assoc.
Qed.

Lemma no_mutation_among_reads (l : list Request) :
  Forall (λ r, is_mutation r = false) l →
  List.filter is_mutation l = [].
Proof.
  induction 1 as [|r l Hr _ IH]; [done|]. simpl. by rewrite Hr.
Qed.

(** The read of the current announcement. *)
Lemma getGroupAnnouncement_trace account chatId w :
  ∃ a w' extra,
    getGroupAnnouncement net account chatId w = (Val a, w')
    ∧ sent w' = sent w ++ extra
    ∧ Forall (λ r, is_mutation r = false) extra
    ∧ (an_isDocxType a = true ∨ JS.truthy_opt (an_error a) = false →
       cached account w').
Proof.
  unfold getGroupAnnouncement, try_catch, bind.
  destruct (client_available account w) eqn:Ha.
  - destruct (getFeishuClient_available _ _ Ha) as (w1 & E & Hs & Hc).
    rewrite E. unfold request. rewrite Hs.
    destruct (net _ _) as [r|e]; cbn [ret].
    + destruct (code_is_zero r); cbn [negb];
        (eexists _, _, _; split; [reflexivity|]; cbn [sent];
         split; [reflexivity|]; split; [repeat constructor|];
         intros _; exact Hc).
    + destruct (_ || _);
        (eexists _, _, _; split; [reflexivity|]; cbn [sent];
         split; [reflexivity|]; split; [repeat constructor|];
         intros _; exact Hc).
  - rewrite getFeishuClient_unavailable by done.
    rewrite credentials_error_not_docx.
    eexists _, w, []. split; [reflexivity|].
    split; [by rewrite app_nil_r|]. split; [constructor|].
    cbn [an_isDocxType an_error JS.truthy_opt].
    intros [H|H]; [discriminate|].
    by vm_compute in H.
Qed.

(** The write into an upgraded announcement. *)
Lemma updateDocxAnnouncement_trace account chatId content w :
  cached account w →
  ∃ r w' extra,
    updateDocxAnnouncement net account chatId content w = (Val r, w')
    ∧ sent w' = sent w ++ extra
    ∧ (length (List.filter is_mutation extra) ≤ 1)%nat
    ∧ (up_success r = true →
       write_confirmed net (length (sent w)) content extra).
Proof.
  intros Hc. unfold updateDocxAnnouncement.
  unfold bind at 1. rewrite getFeishuClient_cached by done.
  unfold try_catch, bind, request.
  repeat
    (cbn [ret sent clientCache negb];
     match goal with
     | |- context [match net ?n ?r with _ => _ end] =>
       destruct (net n r) as [?|?] eqn:?
     | |- context [if ?b then _ else _] => destruct b eqn:?
     | |- context [match List.find ?f ?l with _ => _ end] =>
       destruct (List.find f l) as [?|]
     end);
    (eexists _, _, _; split; [reflexivity|];
     cbn [sent]; rewrite <- ?app_assoc;
     split; [reflexivity|]; split; [cbn; lia|];
     cbn [up_success]; try (intros; discriminate)).
  intros _.
  repeat match goal with
         | H : negb _ = false |- _ => apply negb_false_iff in H
         end.
  eexists [_], _, _. split; [reflexivity|].
  split; [by repeat constructor|]. split; [reflexivity|].
  split; [|by apply code_is_zero_true].
  rewrite Nat.add_1_r.
  match goal with
  | H : net (length (_ ++ [_])) _ = _ |- _ =>
    rewrite length_app, Nat.add_1_r in H; exact H
  end.
Qed.

(** The run of [updateGroupAnnouncement], request by request. *)
Lemma updateGroupAnnouncement_run account chatId content w :
  ∃ r w' extra,
    updateGroupAnnouncement net account chatId content w = (Val r, w')
    ∧ sent w' = sent w ++ extra
    ∧ (length (List.filter is_mutation extra) ≤ 1)%nat
    ∧ (up_success r = true →
       write_confirmed net (length (sent w)) content extra)
    ∧ (JS.truthy (JS.trim content) = false →
       up_success r = false ∧ extra = []).
Proof.
  unfold updateGroupAnnouncement.
  destruct (JS.truthy (JS.trim content)) eqn:Hblank; cbn [negb].
  2:{ eexists _, w, []. split; [reflexivity|].
      split; [by rewrite app_nil_r|]. split; [cbn; lia|].
      cbn [up_success]. split; [discriminate|done]. }
  destruct (getGroupAnnouncement_trace account chatId w)
    as (a & w1 & pre & E & Hs & Hreads & Hcached).
  unfold bind at 1. rewrite E.
  destruct (an_isDocxType a) eqn:Hd.
  - destruct (updateDocxAnnouncement_trace account chatId content w1)
      as (r & w2 & extra & E2 & Hs2 & Hone & Hok); [by apply Hcached; left|].
    exists r, w2, (pre ++ extra). split; [exact E2|].
    split; [by rewrite Hs2, Hs, app_assoc|].
    split.
    { by rewrite List.filter_app, (no_mutation_among_reads pre), app_nil_l. }
    split; [|discriminate].
    intros Hr. apply write_confirmed_after_reads; [done|].
    rewrite <- length_app, <- Hs. by apply Hok.
  - cbn [negb]. rewrite andb_true_r.
    destruct (JS.truthy_opt (an_error a)) eqn:Herr.
    { eexists _, w1, pre. split; [reflexivity|]. split; [done|].
      split; [rewrite no_mutation_among_reads by done; cbn; lia|].
      cbn [up_success]. split; discriminate. }
    unfold try_catch, bind.
    rewrite getFeishuClient_cached by (by apply Hcached; right).
    unfold request.
    destruct (net _ _) as [resp|e] eqn:Hnet; cbn [ret].
    + destruct (code_is_zero resp) eqn:Hz; cbn [negb];
        (eexists _, _, (pre ++ [_]); split; [reflexivity|];
         cbn [sent]; split; [by rewrite Hs, app_assoc|];
         split; [rewrite List.filter_app, (no_mutation_among_reads pre) by done;
                 cbn; lia|];
         cbn [up_success]; split; [|discriminate]; try discriminate).
      intros _. eexists pre, _, resp. split; [reflexivity|].
      split; [done|]. split; [reflexivity|].
      split; [|by apply code_is_zero_true].
      rewrite <- length_app, <- Hs. exact Hnet.
    + eexists _, _, (pre ++ [_]); split; [reflexivity|].
      cbn [sent]. split; [by rewrite Hs, app_assoc|].
      split; [rewrite List.filter_app, (no_mutation_among_reads pre) by done;
              cbn; lia|].
      cbn [up_success]. split; discriminate.
Qed.

(** X16.  [updateGroupAnnouncement] never throws and writes once at most:
    among the requests of a run at most one is not a read.  It reports
    success only when its last request wrote the given content (into the
    classic or the upgraded announcement) and that write was answered
    with code 0.  Content that is blank after trimming is refused before
    any request. *)
Theorem announcement_written_once account chatId content w :
  ∃ r w' extra,
    updateGroupAnnouncement net account chatId content w = (Val r, w')
    ∧ sent w' = sent w ++ extra
    ∧ (length (List.filter is_mutation extra) ≤ 1)%nat
    ∧ (up_success r = true →
       write_confirmed net (length (sent w)) content extra)
    ∧ (JS.truthy (JS.trim content) = false →
       up_success r = false ∧ extra = []).
Proof. apply updateGroupAnnouncement_run. Qed.

End AnnouncementWrites.

(** ** The member list, page by page *)

Section MemberPages.

Import Api Commands.

Variable net : Transport.

(** The loop over the pages the platform answers in full. *)
Lemma members_pages_prefix chatId (resps : list Response) :
  ∀ fuel acc tok w,
    pages_answered net chatId (length (sent w)) tok resps →
    members_pages net (length resps + fuel) chatId acc tok w
    = members_pages net fuel chatId (acc ++ members_of resps)
        (token_after tok resps)
        {| clientCache := clientCache w;
           sent := sent w ++ page_requests chatId tok resps |}.
Proof.
  induction resps as [|resp rest IH]; intros fuel acc tok w Hp.
  - cbn. rewrite !app_nil_r. by destruct w.
  - destruct Hp as (Hnet & Hc & Hmore & Hrest).
    cbn [length Nat.add members_pages]. unfold bind at 1. unfold request.
    fold (page_request chatId tok). rewrite Hnet.
    rewrite (code_zero _ Hc). cbn [negb]. rewrite Hmore.
    rewrite IH.
    + cbn [sent clientCache page_requests members_of map concat token_after
             foldl].
      fold (members_of rest). by rewrite <- !app_assoc.
    + cbn [sent]. by rewrite length_app, Nat.add_1_r.
Qed.

(** What every run of the loop keeps to, whatever is answered. *)
Lemma members_pages_invariant chatId fuel :
  ∀ acc tok w res w',
    members_pages net fuel chatId acc tok w = (res, w') →
    ∃ extra,
      sent w' = sent w ++ extra
      ∧ clientCache w' = clientCache w
      ∧ Forall (is_page_request chatId) extra
      ∧ (length extra ≤ fuel)%nat
      ∧ ∀ r, res = Val r →
             (JS.truthy_opt (mr_error r) = true → members r = [])
             ∧ (Forall (λ m, memberId m ≠ []) acc →
                Forall (λ m, memberId m ≠ []) (members r)).
Proof.
  assert (∀ acc (resp : Response),
            Forall (λ m, memberId m ≠ []) acc →
            Forall (λ m, memberId m ≠ [])
                   (acc ++ collect_members (page_items resp))) as Hkeep.
  { intros acc resp Hacc. apply Forall_app. split; [done|].
    unfold collect_members. apply Forall_map, Forall_forall.
    intros it Hit. apply list_elem_of_In, filter_In in Hit as [_ Hit].
    cbn. destruct (member_id it) as [[|c s]|]; done. }
  induction fuel as [|fuel IH]; intros acc tok w res w' E.
  - injection E as <- <-. exists []. rewrite app_nil_r.
    split_and!; [done|done|constructor|done|done].
  - cbn [members_pages] in E. unfold bind, request in E.
    fold (page_request chatId tok) in E.
    assert (is_page_request chatId (page_request chatId tok)) as H1
      by (by exists tok).
    destruct (net _ _) as [resp|e].
    + destruct (code_is_zero resp); cbn [negb] in E.
      * destruct (JS.truthy_opt (next_page_token resp)).
        -- apply IH in E as (extra & Hs & Hcc & Hall & Hlen & Hres).
           exists (page_request chatId tok :: extra).
           cbn [sent clientCache] in Hs, Hcc.
           split_and!.
           ++ by rewrite Hs, <- app_assoc.
           ++ done.
           ++ by apply Forall_cons.
           ++ cbn. lia.
           ++ intros r Hr. destruct (Hres r Hr) as [Ha Hb]. split; [done|].
              intros Hacc. by apply Hb, Hkeep.
        -- injection E as <- <-. exists [page_request chatId tok].
           cbn [sent clientCache].
           split_and!; [done|done|by repeat constructor|cbn; lia|].
           intros r [= <-]. cbn [members mr_error JS.truthy_opt].
           split; [done|]. apply Hkeep.
      * injection E as <- <-. exists [page_request chatId tok].
        cbn [sent clientCache].
        split_and!; [done|done|by repeat constructor|cbn; lia|].
        intros r [= <-]. cbn [members]. split; [done|]. intros _. constructor.
    + injection E as <- <-. exists [page_request chatId tok].
      cbn [sent clientCache].
      split_and!; [done|done|by repeat constructor|cbn; lia|done].
Qed.

End MemberPages.

Section MemberTheorems.

Import Api Commands.

Variable net : Transport.

Lemma page_requests_length chatId (resps : list Response) :
  ∀ tok, length (page_requests chatId tok resps) = length resps.
Proof. induction resps as [|r rest IH]; intros tok; cbn; [done|]. by rewrite IH. Qed.

Lemma members_of_snoc (resps : list Response) (last : Response) :
  members_of (resps ++ [last])
  = members_of resps ++ collect_members (page_items last).
Proof.
  unfold members_of. rewrite map_app, concat_app. cbn [map concat].
  by rewrite app_nil_r.
Qed.

(** A run of [getGroupMembers], however it ends. *)
Lemma getGroupMembers_trace fuel account chatId w res w' :
  getGroupMembers net fuel account chatId w = (res, w') →
  (∀ e, res ≠ Exn e)
  ∧ ∃ extra,
      sent w' = sent w ++ extra
      ∧ Forall (is_page_request chatId) extra
      ∧ (length extra ≤ fuel)%nat
      ∧ ∀ r, res = Val r →
             Forall (λ m, memberId m ≠ []) (members r)
             ∧ (JS.truthy_opt (mr_error r) = true → members r = []).
Proof.
  unfold getGroupMembers, try_catch. unfold bind at 1.
  destruct (client_available account w) eqn:Ha.
  - destruct (getFeishuClient_available _ _ Ha) as (w1 & E & Hs & _).
    rewrite E.
    destruct (members_pages net fuel chatId [] None w1) as [res1 w2] eqn:Em.
    destruct (members_pages_invariant net _ _ _ _ _ _ _ Em)
      as (extra & Hs2 & _ & Hall & Hlen & Hres).
    rewrite Hs in Hs2.
    destruct res1 as [a|e|]; intros [= <- <-].
    + split; [done|]. exists extra. split_and!; [done..|].
      intros r [= <-]. destruct (Hres a eq_refl) as [H1 H2].
      split; [by apply H2|done].
    + split; [done|]. exists extra. split_and!; [done..|].
      intros r [= <-]. cbn [members]. split; [constructor|done].
    + split; [done|]. exists extra. split_and!; [done..|]. done.
  - rewrite getFeishuClient_unavailable by done.
    intros [= <- <-]. split; [done|].
    exists []. rewrite app_nil_r. split_and!; [done|constructor|cbn; lia|].
    intros r [= <-]. cbn [members]. split; [constructor|done].
Qed.

(** X17.  The member list is put together from all pages: when the
    platform answers the pages [resps] in full, each announcing the next,
    and then a last page that announces none, [getGroupMembers] returns
    the members of all of them in the order listed, entries without a
    member id left out, and no error.  Each request carries the page token
    of the answer before it; the first carries none. *)
Theorem members_across_pages fuel account chatId w resps last :
  client_available account w = true →
  pages_answered net chatId (length (sent w)) None resps →
  net (length (sent w) + length resps)%nat
      (page_request chatId (token_after None resps)) = Resolved last →
  code last = Some 0 →
  JS.truthy_opt (next_page_token last) = false →
  (length resps < fuel)%nat →
  ∃ w',
    getGroupMembers net fuel account chatId w
    = (Val {| members := members_of (resps ++ [last]); mr_error := None |},
       w')
    ∧ sent w'
      = sent w ++ page_requests chatId None resps
        ++ [page_request chatId (token_after None resps)].
Proof.
  intros Ha Hp Hnet Hc Hlast Hfuel.
  destruct (getFeishuClient_available _ _ Ha) as (w1 & E & Hs & _).
  unfold getGroupMembers, try_catch. unfold bind at 1. rewrite E.
  replace fuel with (length resps + S (fuel - S (length resps)))%nat by lia.
  rewrite members_pages_prefix by (by rewrite Hs).
  cbn [members_pages]. unfold bind, request. cbn [sent clientCache].
  fold (page_request chatId (token_after None resps)).
  rewrite length_app, page_requests_length, Hs, Hnet.
  rewrite (code_zero _ Hc). cbn [negb]. rewrite Hlast.
  rewrite members_of_snoc. unfold ret. cbn [app].
  eexists. split; [reflexivity|].
  cbn [sent]. by rewrite <- app_assoc.
Qed.

(** X18.  A page that fails discards what the pages before it listed: when
    the request after the pages [resps] is turned down (a code other than
    0, or the transport rejects it), [getGroupMembers] returns no member at
    all, with the error text of that failure. *)
Theorem failed_page_discards_members fuel account chatId w resps :
  client_available account w = true →
  pages_answered net chatId (length (sent w)) None resps →
  answer_ok (net (length (sent w) + length resps)%nat
               (page_request chatId (token_after None resps))) = false →
  (length resps < fuel)%nat →
  ∃ w',
    getGroupMembers net fuel account chatId w
    = (Val {| members := [];
              mr_error :=
                reported_error
                  (net (length (sent w) + length resps)%nat
                     (page_request chatId (token_after None resps))) |},
       w').
Proof.
  intros Ha Hp Hbad Hfuel.
  destruct (getFeishuClient_available _ _ Ha) as (w1 & E & Hs & _).
  unfold getGroupMembers, try_catch. unfold bind at 1. rewrite E.
  replace fuel with (length resps + S (fuel - S (length resps)))%nat by lia.
  rewrite members_pages_prefix by (by rewrite Hs).
  cbn [members_pages]. unfold bind, request. cbn [sent clientCache].
  fold (page_request chatId (token_after None resps)).
  rewrite length_app, page_requests_length, Hs.
  destruct (net _ _) as [bad|e]; cbn [answer_ok reported_error] in *.
  - rewrite Hbad. cbn [negb]. by eexists.
  - by eexists.
Qed.

(** X19.  What every result of [getGroupMembers] keeps to, whatever the
    platform answers: no listed member has an empty id, a result that
    carries an error text lists no member, and the requests of the run are
    member-page reads of this chat, one per turn of the loop. *)
Theorem members_result_shape fuel account chatId w r w' :
  getGroupMembers net fuel account chatId w = (Val r, w') →
  Forall (λ m, memberId m ≠ []) (members r)
  ∧ (JS.truthy_opt (mr_error r) = true → members r = [])
  ∧ ∃ extra, sent w' = sent w ++ extra
             ∧ Forall (is_page_request chatId) extra
             ∧ (length extra ≤ fuel)%nat.
Proof.
  intros E.
  destruct (getGroupMembers_trace _ _ _ _ _ _ E)
    as (_ & extra & Hs & Hall & Hlen & Hres).
  destruct (Hres r eq_refl) as [H1 H2].
  split; [done|]. split; [done|]. by exists extra.
Qed.

(** X20.  The member list command is open to every sender.  A command of
    type list_members passes no permission gate: whatever a run of
    [executeCommand] on it sends is a member-page read of the chat (no
    group-info or administrators read, nothing that changes the group),
    and the run never throws. *)
Theorem list_members_is_ungated fuel account command context w res w' :
  type command = list_members →
  executeCommand net fuel account command context w = (res, w') →
  (∀ e, res ≠ Exn e)
  ∧ ∃ extra, sent w' = sent w ++ extra
             ∧ Forall (is_page_request (chatId context)) extra
             ∧ Forall (λ q, is_mutation q = false
                            ∧ q ≠ info_request (chatId context)
                            ∧ q ≠ managers_request (chatId context)) extra.
Proof.
  intros Hty. unfold executeCommand, run_action. rewrite Hty.
  change (requiresAdminPermission list_members) with false. cbv iota.
  unfold executeListMembersCommand, bind.
  destruct (getGroupMembers net fuel account (chatId context) w)
    as [res1 w1] eqn:Em.
  assert (∀ q, is_page_request (chatId context) q →
               is_mutation q = false
               ∧ q ≠ info_request (chatId context)
               ∧ q ≠ managers_request (chatId context)) as Hpage.
  { intros q [tok ->]. split; [done|].
    unfold page_request, info_request, managers_request.
    split; intros [= Hp _]; apply app_inv_head in Hp;
      apply app_inv_head in Hp;
      by vm_compute in Hp. }
  destruct (getGroupMembers_trace _ _ _ _ _ _ Em)
    as (Hne & extra & Hs & Hall & _).
  intros E.
  assert ((∀ e, res ≠ Exn e) ∧ w' = w1) as [Hres ->].
  { revert E. destruct res1 as [a|e|].
    - destruct (JS.truthy_opt (mr_error a));
        [|destruct (length (members a) =? 0)%nat];
        unfold ret; intros [= <- <-]; done.
    - by destruct (Hne e).
    - by intros [= <- <-]. }
  split; [done|]. exists extra. split; [done|]. split; [done|].
  eapply Forall_impl; [exact Hall|]. exact Hpage.
Qed.

End MemberTheorems.

Lemma clear_then_get_witness :
  (cached acct w0 → Api.getFeishuClient acct w0 = (Api.Val tt, w0))
  ∧ ¬ cached acct (Status.clearFeishuClientCache (Api.appId acct) w0)
  ∧ (credentials_complete acct →
     ∃ w', Api.getFeishuClient acct
             (Status.clearFeishuClientCache (Api.appId acct) w0)
           = (Api.Val tt, w')
           ∧ cached acct w' ∧ Api.sent w' = Api.sent w0)
  ∧ (¬ credentials_complete acct →
     Api.getFeishuClient acct
       (Status.clearFeishuClientCache (Api.appId acct) w0)
     = (Api.Exn credentials_error,
        Status.clearFeishuClientCache (Api.appId acct) w0))
  ∧ (∀ other,
       Api.show_str (Api.appId other) ≠ Api.show_str (Api.appId acct) →
       cached other w0 →
       cached other (Status.clearFeishuClientCache (Api.appId acct) w0))
  ∧ (∀ other, ¬ cached other (Status.clearFeishuClientCache None w0)).
Proof. apply (clear_then_get acct w0). reflexivity. Defined.

Lemma gate_fails_closed_witness :
  ∃ r w' extra,
    Commands.executeCommand net_mute_failure 0 acct
      (Commands.mkParsed Commands.remove_member [] [js "ou_user1"]) ctx w0
    = (Api.Val r, w')
    ∧ Commands.success r = false
    ∧ Api.sent w' = Api.sent w0 ++ extra
    ∧ Forall (λ q, Api.is_mutation q = false) extra.
Proof.
  apply (gate_fails_closed net_mute_failure 0 acct
           (Commands.mkParsed Commands.remove_member [] [js "ou_user1"])
           ctx w0).
  - reflexivity.
  - intros (info & H & Hc & _). vm_compute in H. injection H as <-.
    discriminate.
  - intros (mgrs & H & Hc & _). vm_compute in H. injection H as <-.
    discriminate.
Defined.

Lemma members_across_pages_witness :
  ∃ w',
    Api.getGroupMembers net_two_pages 5 acct (js "oc_test_chat") w0
    = (Api.Val {| Api.members := members_of ([first_page] ++ [last_page]);
                  Api.mr_error := None |}, w')
    ∧ Api.sent w'
      = Api.sent w0 ++ page_requests (js "oc_test_chat") None [first_page]
        ++ [page_request (js "oc_test_chat")
              (token_after None [first_page])].
Proof.
  apply (members_across_pages net_two_pages 5 acct (js "oc_test_chat") w0
           [first_page] last_page).
  - reflexivity.
  - vm_compute. by repeat split.
  - reflexivity.
  - reflexivity.
  - reflexivity.
  - simpl. lia.
Defined.

Lemma failed_page_discards_members_witness :
  ∃ w',
    Api.getGroupMembers net_second_page_fails 5 acct (js "oc_test_chat") w0
    = (Api.Val
         {| Api.members := [];
            Api.mr_error :=
              reported_error
                (net_second_page_fails
                   (length (Api.sent w0) + length [first_page])%nat
                   (page_request (js "oc_test_chat")
                      (token_after None [first_page]))) |}, w').
Proof.
  apply (failed_page_discards_members net_second_page_fails 5 acct
           (js "oc_test_chat") w0 [first_page]).
  - reflexivity.
  - vm_compute. by repeat split.
  - reflexivity.
  - simpl. lia.
Defined.

Lemma members_result_shape_witness :
  Forall (λ m, Api.memberId m ≠ []) (Api.members two_page_result)
  ∧ (JS.truthy_opt (Api.mr_error two_page_result) = true →
     Api.members two_page_result = [])
  ∧ ∃ extra,
      Api.sent
        (Api.getGroupMembers net_two_pages 5 acct (js "oc_test_chat") w0).2
      = Api.sent w0 ++ extra
      ∧ Forall (is_page_request (js "oc_test_chat")) extra
      ∧ (length extra ≤ 5)%nat.
Proof.
  apply (members_result_shape net_two_pages 5 acct (js "oc_test_chat") w0
           two_page_result
           (Api.getGroupMembers net_two_pages 5 acct (js "oc_test_chat")
              w0).2).
  vm_compute. reflexivity.
Defined.

Lemma list_members_is_ungated_witness :
  (∀ e, (Commands.executeCommand net_two_pages 5 acct
           (Commands.mkParsed Commands.list_members [] []) ctx w0).1
        ≠ Api.Exn e)
  ∧ ∃ extra,
      Api.sent
        (Commands.executeCommand net_two_pages 5 acct
           (Commands.mkParsed Commands.list_members [] []) ctx w0).2
      = Api.sent w0 ++ extra
      ∧ Forall (is_page_request (Commands.chatId ctx)) extra
      ∧ Forall (λ q, Api.is_mutation q = false
                     ∧ q ≠ info_request (Commands.chatId ctx)
                     ∧ q ≠ managers_request (Commands.chatId ctx)) extra.
Proof.
  apply (list_members_is_ungated net_two_pages 5 acct
           (Commands.mkParsed Commands.list_members [] []) ctx w0).
  - reflexivity.
  - vm_compute. reflexivity.
Defined.

(** ** Parsing: padding and the order of the table *)

Section ParserMore.

Import Commands.

Lemma trimStart_split (s : list N) :
  ∃ pre, blank pre ∧ s = pre ++ JS.trimStart s
         ∧ match JS.trimStart s with
           | [] => True
           | c :: _ => JS.isWhiteSpace c = false
           end.
Proof.
  unfold blank. induction s as [|c s (pre & Hpre & Hs & Hhd)].
  { exists []. split; [constructor|done]. }
  simpl. destruct (JS.isWhiteSpace c) eqn:Hc.
  - exists (c :: pre). split; [by constructor|]. split; [cbn; congruence|done].
  - exists []. split; [constructor|done].
Qed.

Lemma trimStart_ws_app (pre s : list N) :
  blank pre → JS.trimStart (pre ++ s) = JS.trimStart s.
Proof.
  unfold blank. induction 1 as [|c pre Hc _ IH]; [done|]. simpl.
  by rewrite Hc.
Qed.

Lemma trimStart_ws (s : list N) : blank s → JS.trimStart s = [].
Proof.
  intros H. rewrite <- (app_nil_r s). by rewrite trimStart_ws_app.
Qed.

Lemma trimStart_fixed (s : list N) :
  match s with [] => True | c :: _ => JS.isWhiteSpace c = false end →
  JS.trimStart s = s.
Proof. destruct s as [|c s]; [done|]. simpl. by intros ->. Qed.

Lemma trimStart_app (s t : list N) :
  JS.trimStart s ≠ [] → JS.trimStart (s ++ t) = JS.trimStart s ++ t.
Proof.
  intros Hne. destruct (trimStart_split s) as (pre & Hpre & Hs & Hhd).
  rewrite Hs at 1. rewrite <- app_assoc, trimStart_ws_app by done.
  destruct (JS.trimStart s) as [|c r]; [done|].
  simpl. by rewrite Hhd.
Qed.

Lemma trimStart_idem (s : list N) :
  JS.trimStart (JS.trimStart s) = JS.trimStart s.
Proof.
  destruct (trimStart_split s) as (_ & _ & _ & Hhd).
  by apply trimStart_fixed.
Qed.

Lemma trimEnd_ws_app (s post : list N) :
  blank post → JS.trimEnd (s ++ post) = JS.trimEnd s.
Proof.
  intros H. unfold JS.trimEnd. rewrite rev_app_distr.
  rewrite trimStart_ws_app; [done|].
  unfold blank in *. by apply List.Forall_rev.
Qed.

Lemma trim_padding (pre text post : list N) :
  blank pre → blank post → JS.trim (pre ++ text ++ post) = JS.trim text.
Proof.
  intros Hpre Hpost. unfold JS.trim. rewrite trimStart_ws_app by done.
  destruct (JS.trimStart text) as [|c r] eqn:Ht.
  - destruct (trimStart_split text) as (p & Hp & Hs & _).
    rewrite Ht, app_nil_r in Hs. subst p.
    rewrite trimStart_ws; [done|]. unfold blank in *. by apply Forall_app.
  - rewrite trimStart_app by (by rewrite Ht).
    rewrite Ht. by apply trimEnd_ws_app.
Qed.

(** What [trimEnd] leaves of a string that starts with a character other
    than white space starts with that character. *)
Lemma trimEnd_keeps_head (c : N) (r : list N) :
  JS.isWhiteSpace c = false → ∃ r', JS.trimEnd (c :: r) = c :: r'.
Proof.
  intros Hc. unfold JS.trimEnd.
  destruct (trimStart_split (rev (c :: r))) as (pre & Hpre & Hs & _).
  unfold blank in Hpre. simpl in *.
  destruct (JS.trimStart (rev r ++ [c])) as [|x l] eqn:Hl
    using rev_ind.
  - rewrite app_nil_r in Hs.
    rewrite <- Hs, Forall_app, Forall_singleton in Hpre.
    destruct Hpre as [_ Hpre]. congruence.
  - clear IHl. rewrite app_assoc in Hs.
    apply app_inj_tail in Hs as [_ <-].
    rewrite rev_app_distr. simpl. by eexists.
Qed.

Lemma trim_idem (s : list N) : JS.trim (JS.trim s) = JS.trim s.
Proof.
  unfold JS.trim.
  destruct (trimStart_split s) as (_ & _ & _ & Hhd).
  destruct (JS.trimStart s) as [|c r]; [done|].
  destruct (trimEnd_keeps_head c r Hhd) as [r' Hr'].
  rewrite trimStart_fixed by (by rewrite Hr').
  unfold JS.trimEnd at 1 2. rewrite rev_involutive.
  by rewrite trimStart_idem.
Qed.

(** No prefix of the table starts another. *)
Lemma prefix_table_apart :
  forallb (λ x, forallb (λ y : CommandType * list N,
                           implb (JS.startsWith y.2 x.2)
                                 (bool_decide (x = y))) prefix_table)
          prefix_table = true.
Proof. by vm_compute. Qed.

Lemma prefix_table_one_match (t : list N) x y :
  x ∈ prefix_table → y ∈ prefix_table →
  x.2 `prefix_of` t → y.2 `prefix_of` t → x = y.
Proof.
  intros Hx Hy Hxt Hyt.
  assert (∀ a b, a ∈ prefix_table → b ∈ prefix_table →
                 a.2 `prefix_of` b.2 → a = b) as H.
  { intros a b Ha Hb Hab.
    pose proof prefix_table_apart as Hall.
    rewrite forallb_forall in Hall.
    apply list_elem_of_In, Hall in Ha. rewrite forallb_forall in Ha.
    apply list_elem_of_In, Ha in Hb.
    apply startsWith_prefix in Hab. rewrite Hab in Hb.
    by apply bool_decide_eq_true_1 in Hb. }
  destruct (prefix_weak_total _ _ _ Hxt Hyt) as [Hxy|Hyx].
  - by apply H.
  - symmetry. by apply H.
Qed.

(** X21.  The order of the prefix table never decides a parse: whenever a
    prefix of the table starts the trimmed text, it is the only one that
    does, and [parseCommand] answers with its command type and with the
    rest of the text, trimmed, as [args]. *)
Theorem parseCommand_unambiguous text ms ty p rest :
  (ty, p) ∈ prefix_table →
  JS.trim text = p ++ rest →
  parseCommand text ms
  = Some (mkParsed ty (JS.trim rest) (extract_mentioned ms))
  ∧ ∀ ty' p', (ty', p') ∈ prefix_table → p' `prefix_of` JS.trim text →
              ty' = ty ∧ p' = p.
Proof.
  intros Hin Ht.
  assert (p `prefix_of` JS.trim text) as Hp
    by (rewrite Ht; by apply prefix_app_r).
  split.
  - pose proof (parseCommand_outcome text ms) as H.
    destruct (parseCommand text ms) as [c|]; simpl in H.
    + destruct H as (i & ty' & p' & (Hi & Hp' & _) & ->).
      apply list_elem_of_lookup_2 in Hi.
      pose proof (prefix_table_one_match _ _ _ Hin Hi Hp Hp') as [= <- <-].
      unfold built. by rewrite Ht, drop_app_length.
    + exfalso. by apply (H (ty, p)).
  - intros ty' p' Hin' Hp'.
    by pose proof (prefix_table_one_match _ _ _ Hin' Hin Hp' Hp) as [= -> ->].
Qed.

Lemma extract_mentioned_users (ms : list Mention) :
  extract_mentioned ms = mentioned_users ms.
Proof.
  induction ms as [|m ms IH]; [done|].
  destruct m as [k [[[[|c id]|]]|] n];
    first [exact IH | exact (f_equal (cons (c :: id)) IH)].
Qed.

(** X22.  White space around a message does not matter to the parser, and
    what it hands on is trimmed: [parseCommand] gives the same answer for a
    text and for the text with white space before and after it; the [args]
    of a parsed command have no white space at either end.  The mentioned
    users of a parsed command are the open ids of the entries of the
    mention list that have one which is not empty, in the order of the
    list: an entry without an id, without an open id or with an empty one
    is passed over. *)
Theorem parseCommand_ignores_padding pre post text ms :
  (blank pre → blank post →
   parseCommand (pre ++ text ++ post) ms = parseCommand text ms)
  ∧ ∀ c, parseCommand text ms = Some c →
         JS.trim (args c) = args c
         ∧ mentionedUserIds c = mentioned_users ms
         ∧ Forall (λ id, id ≠ []) (mentionedUserIds c).
Proof.
  split.
  - intros Hpre Hpost. unfold parseCommand. by rewrite trim_padding.
  - intros c Hc. pose proof (parseCommand_outcome text ms) as H.
    rewrite Hc in H. destruct H as (i & ty & p & _ & ->).
    unfold built. cbn [args mentionedUserIds].
    split; [apply trim_idem|]. split; [apply extract_mentioned_users|].
    unfold extract_mentioned. apply Forall_map, Forall_forall.
    intros m Hm. apply list_elem_of_In, filter_In in Hm as [_ Hm].
    cbn. destruct (mention_open_id m) as [[|x s]|]; done.
Qed.

End ParserMore.

Lemma parseCommand_unambiguous_witness :
  Commands.parseCommand (js "  /remove @Bob  ") []
  = Some (Commands.mkParsed Commands.remove_member
            (JS.trim (js " @Bob")) (Commands.extract_mentioned []))
  ∧ ∀ ty' p', (ty', p') ∈ prefix_table →
              p' `prefix_of` JS.trim (js "  /remove @Bob  ") →
              ty' = Commands.remove_member ∧ p' = js "/remove".
Proof.
  apply (parseCommand_unambiguous (js "  /remove @Bob  ") []
           Commands.remove_member (js "/remove") (js " @Bob")).
  - vm_compute. do 6 apply list_elem_of_further. apply list_elem_of_here.
  - reflexivity.
Defined.

Lemma parseCommand_ignores_padding_witness :
  Commands.parseCommand
    ([32; 9; 12288]%N ++ js "/add @Bob @Eve" ++ [10; 32]%N) five_mentions
  = Commands.parseCommand (js "/add @Bob @Eve") five_mentions
  ∧ ∀ c, Commands.parseCommand (js "/add @Bob @Eve") five_mentions = Some c →
         JS.trim (Commands.args c) = Commands.args c
         ∧ Commands.mentionedUserIds c = [js "ou_bob"; js "ou_eve"]
         ∧ Forall (λ id, id ≠ []) (Commands.mentionedUserIds c).
Proof.
  destruct (parseCommand_ignores_padding [32; 9; 12288]%N [10; 32]%N
              (js "/add @Bob @Eve") five_mentions) as [Hpad Hparsed].
  split; [|exact Hparsed].
  apply Hpad; unfold blank; by repeat constructor.
Defined.

(** ** Event handlers *)

Section HandlerFacts.

Import Api Handlers.

Variable net : Transport.

(** One send, for any kind of receiver. *)
Lemma sendFeishuMessage_run account chatId text receiveIdType w :
  ∃ r w',
    sendFeishuMessage net account chatId text receiveIdType w = (Val r, w')
    ∧ sent w'
      = sent w
        ++ (if client_available account w
            then [MessageCreate receiveIdType chatId (js "text") text]
            else [])
    ∧ client_available account w' = client_available account w.
Proof.
  unfold sendFeishuMessage, try_catch, bind.
  destruct (client_available account w) eqn:Ha.
  - destruct (getFeishuClient_available _ _ Ha) as (w1 & E & Hs & Hc).
    rewrite E. unfold request. rewrite Hs.
    assert (∀ l, client_available account
                   {| clientCache := clientCache w1; sent := l |} = true)
      as Hav.
    { intros l. unfold client_available. cbn [clientCache].
      by rewrite bool_decide_eq_true_2. }
    destruct (net _ _) as [resp|e]; cbn [ret].
    + destruct (code_is_zero resp); cbn [negb];
        (eexists _, _; split; [reflexivity|]; cbn [sent]; split; [done|];
         apply Hav).
    + eexists _, _; split; [reflexivity|]; cbn [sent]; split; [done|].
      apply Hav.
  - rewrite getFeishuClient_unavailable by done.
    eexists _, _; split; [reflexivity|]. by rewrite app_nil_r.
Qed.

(** The answer of the duplicate check does not depend on the clock. *)
Lemma check_event_seen t_set t_sweep eventId st :
  (check_event t_set t_sweep eventId st).1 = seen eventId st.
Proof.
  unfold check_event, seen, Dedup.isEventProcessed. cbn [fst].
  destruct (negb (JS.truthy_opt eventId)); [done|].
  destruct eventId as [e|]; [|done].
  by destruct (decide (is_Some (processedEventIds st !! e))).
Qed.

Lemma check_event_hit t_set t_sweep eventId st :
  seen eventId st = true →
  check_event t_set t_sweep eventId st = (true, st).
Proof.
  unfold check_event, seen, Dedup.isEventProcessed.
  destruct (negb (JS.truthy_opt eventId)); [done|].
  destruct eventId as [e|]; [|done].
  destruct (decide (is_Some (processedEventIds st !! e))); [|done].
  intros _. by destruct st.
Qed.

(** Once recorded, with the two clock readings of the call no more than
    the lifetime apart, the event counts as seen. *)
Lemma check_event_records t_set t_sweep eventId st :
  JS.truthy_opt eventId = true →
  t_sweep - t_set ≤ Dedup.EVENT_DEDUP_TTL →
  seen eventId (check_event t_set t_sweep eventId st).2 = true.
Proof.
  intros Hid Ht. destruct eventId as [e|]; [|done].
  assert (e ≠ []) as He by (by destruct e).
  unfold check_event, seen. cbn [snd processedEventIds].
  destruct (processedEventIds st !! e) as [ts|] eqn:Hm.
  - rewrite (isEventProcessed_present t_set t_sweep) by (by rewrite ?Hm).
    cbn [snd]. by rewrite isEventProcessed_present by (by rewrite ?Hm).
  - rewrite (isEventProcessed_new t_set t_sweep) by done. cbn [snd].
    rewrite isEventProcessed_present; [done|done|].
    exists t_set. apply cleanup_lookup.
    split; [apply lookup_insert_eq | lia].
Qed.

Lemma write_seen level text eventId st :
  seen eventId (write level text st) = seen eventId st.
Proof. done. Qed.

(** A run of the chat-entered handler. *)
Lemma handleUserEnteredChat_run t_set t_sweep data account st w :
  ∃ st' w',
    handleUserEnteredChat net t_set t_sweep data account st w = (Val st', w')
    ∧ sent w'
      = sent w
        ++ (if negb (seen (ue_event_id data) st)
               && JS.truthy_opt (ue_chat_id data)
               && client_available account w
            then [greeting_request (show_str (ue_chat_id data))] else [])
    ∧ seen (ue_event_id data) st'
      = seen (ue_event_id data)
          (check_event t_set t_sweep (ue_event_id data) st).2.
Proof.
  unfold handleUserEnteredChat.
  pose proof (check_event_seen t_set t_sweep (ue_event_id data) st) as Hseen.
  destruct (check_event t_set t_sweep (ue_event_id data) st)
    as [duplicate st1] eqn:Ec.
  cbn [fst snd] in *. rewrite <- Hseen.
  destruct duplicate; cbn [negb andb].
  { eexists _, w. split; [reflexivity|]. by rewrite app_nil_r. }
  destruct (JS.truthy_opt (ue_chat_id data)); cbn [negb].
  2:{ eexists _, w. split; [reflexivity|]. by rewrite app_nil_r. }
  unfold bind.
  destruct (sendFeishuMessage_run account (show_str (ue_chat_id data))
              (js "你好！我是 Moltbot 助手，有什么可以帮助你的吗？")
              (js "chat_id") w) as (r & w1 & E & Hs & _).
  rewrite E.
  destruct (send_success r);
    (eexists _, w1; split; [reflexivity|]; split; [exact Hs|done]).
Qed.

(** The notification loop. *)
Lemma notify_users_run account message users : ∀ st w,
  ∃ st' w',
    notify_users net account message users st w = (Val st', w')
    ∧ sent w'
      = sent w
        ++ (if client_available account w
            then map (notification message) (recipients users) else [])
    ∧ processedEventIds st' = processedEventIds st
    ∧ length (lines st')
      = (length (lines st) + length (recipients users))%nat.
Proof.
  induction users as [|user rest IH]; intros st w.
  - exists st, w. split; [done|]. cbn.
    split; [by destruct (client_available account w); rewrite app_nil_r|].
    split; [done|lia].
  - cbn [notify_users]. unfold recipients. cbn [List.filter].
    destruct (JS.truthy_opt (cu_open_id user)) eqn:Hu; cbn [negb].
    + unfold bind.
      destruct (sendFeishuMessage_run account (show_str (cu_open_id user))
                  message (js "open_id") w) as (r & w1 & E & Hs & Hav).
      rewrite E.
      set (st1 := if send_success r then _ else _).
      destruct (IH st1 w1) as (st' & w' & E' & Hs' & Hm & Hl).
      exists st', w'. split; [exact E'|].
      rewrite Hs', Hs, Hav. fold (recipients rest).
      split.
      { destruct (client_available account w); cbn [map];
          by rewrite <- app_assoc. }
      split.
      { rewrite Hm. unfold st1. by destruct (send_success r). }
      rewrite Hl. cbn [map length].
      assert (length (lines st1) = S (length (lines st))) as ->.
      { unfold st1. destruct (send_success r); cbn [write lines];
          rewrite length_app; cbn [length]; lia. }
      fold (recipients rest). lia.
    + apply IH.
Qed.

(** X23.  A chat-entered event with an id is greeted once for as long as
    its id stays in the dedup cache.  A delivery sends the greeting to the
    chat of the event exactly when the id is not in the cache, the event
    names a chat and a client is to be had; if the event has an id and the
    two clock readings of the call are no more than the lifetime of an
    entry apart, the id is in the cache afterwards.  A delivery of the
    event in any state whose cache holds the id, at whatever time, sends
    nothing and leaves the cache as it is.  Neither run throws. *)
Theorem greeting_sent_once t1 s1 data account st w :
  (∃ st1 w1,
     handleUserEnteredChat net t1 s1 data account st w = (Val st1, w1)
     ∧ sent w1
       = sent w
         ++ (if negb (seen (ue_event_id data) st)
                && JS.truthy_opt (ue_chat_id data)
                && client_available account w
             then [greeting_request (show_str (ue_chat_id data))] else [])
     ∧ (JS.truthy_opt (ue_event_id data) = true →
        s1 - t1 ≤ Dedup.EVENT_DEDUP_TTL →
        seen (ue_event_id data) st1 = true))
  ∧ (∀ t2 s2 st' w',
       seen (ue_event_id data) st' = true →
       ∃ st2,
         handleUserEnteredChat net t2 s2 data account st' w' = (Val st2, w')
         ∧ processedEventIds st2 = processedEventIds st').
Proof.
  split.
  - destruct (handleUserEnteredChat_run t1 s1 data account st w)
      as (st1 & w1 & E1 & Hs1 & Hseen1).
    exists st1, w1. split; [exact E1|]. split; [exact Hs1|].
    intros Hid Ht. by rewrite check_event_records in Hseen1.
  - intros t2 s2 st' w' Hseen. unfold handleUserEnteredChat.
    rewrite (check_event_hit t2 s2) by done.
    eexists. split; reflexivity.
Qed.

(** X24.  A calendar event is passed on to each of its users once.  Unless
    the event id was seen before, [handleCalendarEvent] sends one direct
    message, with the text of the event type, to every user of the list
    that has an open id, in the order of the list, and goes on after a
    send that failed; users without an open id are passed over.  It never
    throws, and a duplicate sends nothing. *)
Theorem calendar_notifies_each_user t_set t_sweep eventType data account
    st w :
  ∃ st' w',
    handleCalendarEvent net t_set t_sweep eventType data account st w
    = (Val st', w')
    ∧ sent w'
      = sent w
        ++ (if negb (seen (ce_event_id data) st)
               && client_available account w
            then map (notification (calendar_message eventType))
                     (recipients (default [] (ce_user_id_list data)))
            else []).
Proof.
  unfold handleCalendarEvent.
  pose proof (check_event_seen t_set t_sweep (ce_event_id data) st) as Hseen.
  destruct (check_event t_set t_sweep (ce_event_id data) st)
    as [duplicate st1] eqn:Ec.
  cbn [fst] in Hseen. rewrite <- Hseen.
  destruct duplicate; cbn [negb andb].
  { eexists _, w. split; [reflexivity|]. by rewrite app_nil_r. }
  destruct (default [] (ce_user_id_list data)) as [|u us] eqn:Hl.
  { cbn [length Nat.eqb]. eexists _, w. split; [reflexivity|].
    cbn. by destruct (client_available account w); rewrite app_nil_r. }
  cbn [length Nat.eqb]. fold (calendar_message eventType).
  match goal with
  | |- context [notify_users net account ?m ?us ?s w] =>
    destruct (notify_users_run account m us s w)
      as (st' & w' & E & Hs & _)
  end.
  exists st', w'. split; [exact E|exact Hs].
Qed.

End HandlerFacts.

Lemma greeting_sent_once_witness :
  (∃ st1 w1,
     Handlers.handleUserEnteredChat net_B_rejects 1000 1001 entered acct
       fresh_state w0 = (Api.Val st1, w1)
     ∧ Api.sent w1
       = Api.sent w0
         ++ (if negb (seen (Handlers.ue_event_id entered) fresh_state)
                && JS.truthy_opt (Handlers.ue_chat_id entered)
                && client_available acct w0
             then [greeting_request
                     (Api.show_str (Handlers.ue_chat_id entered))]
             else [])
     ∧ seen (Handlers.ue_event_id entered) st1 = true)
  ∧ (∀ t2 s2 st' w',
       seen (Handlers.ue_event_id entered) st' = true →
       ∃ st2,
         Handlers.handleUserEnteredChat net_B_rejects t2 s2 entered acct
           st' w' = (Api.Val st2, w')
         ∧ Handlers.processedEventIds st2 = Handlers.processedEventIds st').
Proof.
  destruct (greeting_sent_once net_B_rejects 1000 1001 entered acct
              fresh_state w0)
    as ((st1 & w1 & E & Hs & Hseen) & Hlater).
  split; [|exact Hlater].
  exists st1, w1. split; [exact E|]. split; [exact Hs|].
  apply Hseen; [reflexivity|]. unfold Dedup.EVENT_DEDUP_TTL. lia.
Defined.

(** The id of an event leaves the cache when another event is recorded
    more than a minute later; the event is then greeted again. *)
Example greeted_again_after_sweep :
  let run t data (s : Handlers.State * Api.World) :=
    match Handlers.handleUserEnteredChat net_B_rejects t t data acct s.1 s.2
    with
    | (Api.Val st, w) => (st, w)
    | _ => s
    end in
  let s1 := run 1000 entered (fresh_state, w0) in
  let s2 := run 70000 entered_later s1 in
  let s3 := run 70001 entered s2 in
  seen (Handlers.ue_event_id entered) s1.1 = true
  ∧ seen (Handlers.ue_event_id entered) s2.1 = false
  ∧ length (Api.sent s1.2) = 1%nat
  ∧ length (Api.sent s3.2) = 3%nat
  ∧ last (Api.sent s3.2)
    = Some (greeting_request (Api.show_str (Handlers.ue_chat_id entered))).
Proof. by vm_compute. Qed.

(** ** Accounts *)

Section AccountFacts.

Import Accounts.

Variable DEFAULT_ACCOUNT_ID : list N.
Variable inherited : list N → bool.

Lemma set_add_elem (ids : list (list N)) (id x : list N) :
  x ∈ set_add ids id ↔ x ∈ ids ∨ x = id.
Proof.
  unfold set_add. destruct (bool_decide_reflect (id ∈ ids)) as [Hin|Hnot].
  - split; [by left|]. by intros [?| ->].
  - split.
    + intros [?|Hx]%elem_of_app; [by left|right].
      by apply list_elem_of_singleton in Hx.
    + intros [?| ->]; apply elem_of_app; [by left|right].
      by apply list_elem_of_singleton.
Qed.

Lemma set_add_NoDup (ids : list (list N)) (id : list N) :
  NoDup ids → NoDup (set_add ids id).
Proof.
  intros H. unfold set_add.
  destruct (bool_decide_reflect (id ∈ ids)) as [Hin|Hnot]; [done|].
  apply NoDup_app. split; [done|]. split; [|apply NoDup_singleton].
  intros x Hx ->%list_elem_of_singleton. done.
Qed.

Lemma set_add_prefix (ids : list (list N)) (id : list N) :
  ids `prefix_of` set_add ids id.
Proof.
  unfold set_add. destruct (bool_decide (id ∈ ids)); [done|].
  by apply prefix_app_r.
Qed.

Lemma set_add_first (id : list N) : set_add [] id = [id].
Proof.
  unfold set_add. by rewrite bool_decide_eq_false_2 by apply not_elem_of_nil.
Qed.

Lemma foldl_set_add (l : list (list N)) : ∀ ids,
  NoDup ids →
  NoDup (foldl set_add ids l)
  ∧ ids `prefix_of` foldl set_add ids l
  ∧ ∀ x, x ∈ foldl set_add ids l ↔ x ∈ ids ∨ x ∈ l.
Proof.
  induction l as [|id l IH]; intros ids Hnd; cbn [foldl].
  - split; [done|]. split; [done|]. intros x. rewrite elem_of_nil. tauto.
  - destruct (IH (set_add ids id) (set_add_NoDup _ _ Hnd))
      as (H1 & H2 & H3).
    split; [done|]. split.
    + etrans; [apply set_add_prefix|done].
    + intros x. rewrite H3, set_add_elem, elem_of_cons. tauto.
Qed.

(** X25.  The account ids of a configuration.  [listFeishuAccountIds]
    lists no id twice; it lists the default id exactly when the top level
    has an app id or [accounts] has an entry of that name, and any other
    id exactly when [accounts] has an entry for it; with a top-level app id
    the default id comes first.  [resolveDefaultFeishuAccountId] answers
    with a listed id whenever one is listed, the default id if that is
    listed, and the default id when none is. *)
Theorem account_ids_listed (cfg : MoltbotConfig) :
  let ids := listFeishuAccountIds DEFAULT_ACCOUNT_ID cfg in
  NoDup ids
  ∧ (∀ id, id ∈ ids ↔
       ∃ feishu, channels_feishu cfg = Some feishu
         ∧ ((id = DEFAULT_ACCOUNT_ID
             ∧ JS.truthy_opt (appId (top feishu)) = true)
            ∨ ∃ entries, accounts feishu = Some entries
                         ∧ id ∈ map fst entries))
  ∧ (∀ feishu, channels_feishu cfg = Some feishu →
               JS.truthy_opt (appId (top feishu)) = true →
               head ids = Some DEFAULT_ACCOUNT_ID)
  ∧ (ids ≠ [] → resolveDefaultFeishuAccountId DEFAULT_ACCOUNT_ID cfg ∈ ids)
  ∧ (DEFAULT_ACCOUNT_ID ∈ ids ∨ ids = [] →
     resolveDefaultFeishuAccountId DEFAULT_ACCOUNT_ID cfg
     = DEFAULT_ACCOUNT_ID).
Proof.
  cbv zeta.
  assert (∀ ids : list (list N),
            ids ≠ [] →
            (if bool_decide (DEFAULT_ACCOUNT_ID ∈ ids)
             then DEFAULT_ACCOUNT_ID
             else default DEFAULT_ACCOUNT_ID (head ids)) ∈ ids) as Hdef.
  { intros ids Hne.
    destruct (bool_decide_reflect (DEFAULT_ACCOUNT_ID ∈ ids)); [done|].
    destruct ids as [|i ids]; [done|]. apply list_elem_of_here. }
  assert (∀ ids : list (list N),
            DEFAULT_ACCOUNT_ID ∈ ids ∨ ids = [] →
            (if bool_decide (DEFAULT_ACCOUNT_ID ∈ ids)
             then DEFAULT_ACCOUNT_ID
             else default DEFAULT_ACCOUNT_ID (head ids))
            = DEFAULT_ACCOUNT_ID) as Hdef'.
  { intros ids [Hin| ->]; [by rewrite bool_decide_eq_true_2|].
    by rewrite bool_decide_eq_false_2 by apply not_elem_of_nil. }
  unfold resolveDefaultFeishuAccountId.
  split_and!; [| | |apply Hdef|apply Hdef'];
    unfold listFeishuAccountIds, getFeishuConfig;
    destruct (channels_feishu cfg) as [feishu|].
  - set (ids0 := if JS.truthy_opt (appId (top feishu)) then _ else _).
    assert (NoDup ids0) as Hnd.
    { unfold ids0. rewrite set_add_first.
      destruct (JS.truthy_opt _); [|constructor]. apply NoDup_singleton. }
    destruct (accounts feishu) as [entries|]; [|done].
    by apply foldl_set_add.
  - constructor.
  - intros id.
    set (ids0 := if JS.truthy_opt (appId (top feishu)) then _ else _).
    assert (NoDup ids0) as Hnd.
    { unfold ids0. rewrite set_add_first.
      destruct (JS.truthy_opt _); [|constructor]. apply NoDup_singleton. }
    assert (id ∈ ids0 ↔ id = DEFAULT_ACCOUNT_ID
                        ∧ JS.truthy_opt (appId (top feishu)) = true) as H0.
    { unfold ids0. rewrite set_add_first. destruct (JS.truthy_opt _).
      - rewrite list_elem_of_singleton. tauto.
      - rewrite elem_of_nil. split; [done|]. by intros [_ ?]. }
    destruct (accounts feishu) as [entries|] eqn:Ha.
    + destruct (foldl_set_add (map fst entries) ids0 Hnd) as (_ & _ & H).
      rewrite H, H0. split.
      * intros [Hd|Hin]; exists feishu; (split; [done|]);
          [by left | right; by exists entries].
      * intros (f & [= <-] & [Hd|(es & Hes & Hin)]); [by left|].
        right. congruence.
    + rewrite H0. split.
      * intros Hd. exists feishu. split; [done|]. by left.
      * intros (f & [= <-] & [Hd|(es & Hes & Hin)]); [done|].
        congruence.
  - intros id. rewrite elem_of_nil. split; [done|].
    by intros (f & Hf & _).
  - intros f [= <-] Ht. rewrite Ht, set_add_first.
    destruct (accounts feishu) as [entries|]; [|done].
    destruct (foldl_set_add (map fst entries) [DEFAULT_ACCOUNT_ID])
      as (_ & [k Hk] & _).
    { apply NoDup_singleton. }
    by rewrite Hk.
  - by intros f [=].
Qed.

(** The credentials of a resolved account are trimmed and not blank. *)
Lemma trimmed_or_undefined_Some (x : option (list N)) (a : list N) :
  trimmed_or_undefined x = Some a →
  a ≠ [] ∧ JS.trim a = a ∧ ∃ raw, x = Some raw ∧ a = JS.trim raw.
Proof.
  destruct x as [s|]; [|done]. cbn.
  destruct (JS.trim s) as [|c r] eqn:Ht; [done|]. cbn.
  intros [= <-]. split; [done|]. split; [|by exists s].
  rewrite <- Ht. apply trim_idem.
Qed.

Lemma trimmed_or_undefined_blank (s : list N) :
  blank s → trimmed_or_undefined (Some s) = None.
Proof.
  intros Hs. cbn. unfold JS.trim. by rewrite trimStart_ws.
Qed.

(** X26.  The credentials [resolveFeishuAccount] hands on are trimmed and
    never blank: an app id or secret of the resolved account has no white
    space at either end and is not empty, and it is the trimmed text of a
    credential the configuration holds.  The account keeps the id asked
    for, or the default id when none was given. *)
Theorem resolved_credentials_trimmed (cfg : MoltbotConfig)
    (accountId : option (list N)) :
  let r := resolveFeishuAccount DEFAULT_ACCOUNT_ID inherited cfg accountId in
  Api.accountId (account r) = default DEFAULT_ACCOUNT_ID accountId
  ∧ (∀ a, Api.appId (account r) = Some a → a ≠ [] ∧ JS.trim a = a)
  ∧ (∀ a, Api.appSecret (account r) = Some a → a ≠ [] ∧ JS.trim a = a)
  ∧ (Lifecycle.isFeishuAccountConfigured (account r) = true ↔
     is_Some (Api.appId (account r)) ∧ is_Some (Api.appSecret (account r)))
  ∧ appId (config r) = Api.appId (account r)
  ∧ appSecret (config r) = Api.appSecret (account r).
Proof.
  cbv zeta. unfold resolveFeishuAccount.
  cbn [account config Api.accountId Api.appId Api.appSecret appId appSecret].
  split; [done|].
  split.
  { intros a Ha. by destruct (trimmed_or_undefined_Some _ _ Ha) as (?&?&_). }
  split.
  { intros a Ha. by destruct (trimmed_or_undefined_Some _ _ Ha) as (?&?&_). }
  split; [|done].
  unfold Lifecycle.isFeishuAccountConfigured.
  cbn [Api.appId Api.appSecret]. rewrite andb_true_iff.
  assert (∀ x, JS.truthy_opt (trimmed_or_undefined x) = true
               ↔ is_Some (trimmed_or_undefined x)) as H.
  { intros x. split.
    - destruct (trimmed_or_undefined x); [by eexists|done].
    - intros [a Ha]. rewrite Ha.
      destruct (trimmed_or_undefined_Some _ _ Ha) as (Hne & _).
      by destruct a. }
  by rewrite !H.
Qed.

End AccountFacts.

Section AccountSources.

Import Accounts.

Variable DEFAULT_ACCOUNT_ID : list N.
Variable inherited : list N → bool.

Lemma find_entry (id : list N) (c : FeishuAccountConfig)
    (entries : list (list N * FeishuAccountConfig)) :
  NoDup (map fst entries) → (id, c) ∈ entries →
  List.find (λ e : list N * FeishuAccountConfig, bool_decide (e.1 = id))
            entries = Some (id, c).
Proof.
  induction entries as [|[k v] es IH]; intros Hnd Hin.
  - by apply elem_of_nil in Hin.
  - cbn [map fst] in Hnd. apply NoDup_cons in Hnd as [Hk Hnd].
    cbn [List.find fst].
    apply elem_of_cons in Hin as [[= <- <-]|Hin].
    + by rewrite bool_decide_eq_true_2.
    + rewrite bool_decide_eq_false_2; [by apply IH|].
      intros ->. apply Hk. apply list_elem_of_fmap. by exists (id, c).
Qed.

Lemma find_no_entry (id : list N)
    (entries : list (list N * FeishuAccountConfig)) :
  id ∉ map fst entries →
  List.find (λ e : list N * FeishuAccountConfig, bool_decide (e.1 = id))
            entries = None.
Proof.
  induction entries as [|[k v] es IH]; intros Hin; [done|].
  cbn [map fst] in Hin. apply not_elem_of_cons in Hin as [Hk Hin].
  cbn [List.find fst]. rewrite bool_decide_eq_false_2 by done. by apply IH.
Qed.

(** X27.  Where the credentials of an account come from.  The default
    account, asked for by name or by giving no id, reads the top level of
    the configuration, whatever [accounts] holds under its name.  A named
    account with an entry of its own reads that entry alone and takes
    nothing from the top level.  A named account without an entry, whose
    name is not one that every object answers for ([inherited]: the
    members of [Object.prototype]), falls back to the top level and keeps
    its own id.  A name that every object answers for, without an entry
    of its own in an [accounts] object that is there, resolves to no
    credentials at all. *)
Theorem account_config_source (cfg : MoltbotConfig)
    (feishu : FeishuChannelConfig) :
  channels_feishu cfg = Some feishu →
  resolveFeishuAccount DEFAULT_ACCOUNT_ID inherited cfg None
  = resolveFeishuAccount DEFAULT_ACCOUNT_ID inherited cfg
      (Some DEFAULT_ACCOUNT_ID)
  ∧ credentials_of
      (resolveFeishuAccount DEFAULT_ACCOUNT_ID inherited cfg None)
    = credentials_in (top feishu)
  ∧ (∀ id entries c,
       id ≠ DEFAULT_ACCOUNT_ID →
       accounts feishu = Some entries →
       NoDup (map fst entries) →
       (id, c) ∈ entries →
       credentials_of
         (resolveFeishuAccount DEFAULT_ACCOUNT_ID inherited cfg (Some id))
       = credentials_in c)
  ∧ (∀ id,
       inherited id = false →
       (∀ entries, accounts feishu = Some entries → id ∉ map fst entries) →
       credentials_of
         (resolveFeishuAccount DEFAULT_ACCOUNT_ID inherited cfg (Some id))
       = credentials_in (top feishu)
       ∧ Api.accountId
           (account (resolveFeishuAccount DEFAULT_ACCOUNT_ID inherited cfg
                       (Some id))) = id)
  ∧ (∀ id entries,
       inherited id = true →
       id ≠ DEFAULT_ACCOUNT_ID →
       accounts feishu = Some entries →
       id ∉ map fst entries →
       credentials_of
         (resolveFeishuAccount DEFAULT_ACCOUNT_ID inherited cfg (Some id))
       = (None, None)).
Proof.
  intros Hcfg.
  unfold resolveFeishuAccount, credentials_of, credentials_in,
    getFeishuConfig.
  rewrite Hcfg. cbv [default from_option Datatypes.id].
  split; [done|].
  split.
  { rewrite bool_decide_eq_true_2 by done. done. }
  split; [|split].
  - intros id entries c Hid Ha Hnd Hin.
    unfold account_entry. rewrite Ha, (find_entry id c) by done.
    rewrite (bool_decide_eq_false_2 (id = DEFAULT_ACCOUNT_ID)) by done.
    rewrite bool_decide_eq_true_2 by (by eexists). done.
  - intros id Hinh Hnone.
    assert (account_entry inherited (Some feishu) id = None) as ->.
    { unfold account_entry. destruct (accounts feishu) as [entries|]; [|done].
      rewrite find_no_entry by (by apply Hnone). by rewrite Hinh. }
    rewrite (bool_decide_eq_false_2 (is_Some None))
      by (by intros [? ?]).
    by rewrite orb_true_r.
  - intros id entries Hinh Hid Ha Hnone.
    assert (account_entry inherited (Some feishu) id = Some no_fields) as ->.
    { unfold account_entry. rewrite Ha, find_no_entry by done.
      by rewrite Hinh. }
    rewrite (bool_decide_eq_false_2 (id = DEFAULT_ACCOUNT_ID)) by done.
    rewrite bool_decide_eq_true_2 by (by eexists). done.
Qed.

End AccountSources.

Lemma account_config_source_witness :
  Accounts.resolveFeishuAccount sdk_default object_members two_accounts None
  = Accounts.resolveFeishuAccount sdk_default object_members two_accounts
      (Some sdk_default)
  ∧ credentials_of
      (Accounts.resolveFeishuAccount sdk_default object_members two_accounts
         None)
    = credentials_in (Accounts.top two_accounts_feishu)
  ∧ (∀ id entries c,
       id ≠ sdk_default →
       Accounts.accounts two_accounts_feishu = Some entries →
       NoDup (map fst entries) →
       (id, c) ∈ entries →
       credentials_of
         (Accounts.resolveFeishuAccount sdk_default object_members
            two_accounts (Some id))
       = credentials_in c)
  ∧ (∀ id,
       object_members id = false →
       (∀ entries, Accounts.accounts two_accounts_feishu = Some entries →
                   id ∉ map fst entries) →
       credentials_of
         (Accounts.resolveFeishuAccount sdk_default object_members
            two_accounts (Some id))
       = credentials_in (Accounts.top two_accounts_feishu)
       ∧ Api.accountId
           (Accounts.account
              (Accounts.resolveFeishuAccount sdk_default object_members
                 two_accounts (Some id))) = id)
  ∧ (∀ id entries,
       object_members id = true →
       id ≠ sdk_default →
       Accounts.accounts two_accounts_feishu = Some entries →
       id ∉ map fst entries →
       credentials_of
         (Accounts.resolveFeishuAccount sdk_default object_members
            two_accounts (Some id))
       = (None, None)).
Proof.
  apply (account_config_source sdk_default object_members two_accounts
           two_accounts_feishu).
  reflexivity.
Defined.

(** The named account of the sample configuration has a blank secret: it
    is resolved without one, whatever the top level holds.  An account
    without an entry reads the top level, unless its name is one every
    object answers for. *)
Example named_account_stands_alone :
  credentials_of
    (Accounts.resolveFeishuAccount sdk_default object_members two_accounts
       (Some (js "school")))
  = (Some (js "cli_school"), None)
  ∧ credentials_of
      (Accounts.resolveFeishuAccount sdk_default object_members two_accounts
         (Some (js "other")))
    = (Some (js "cli_top"), Some (js "top_secret"))
  ∧ credentials_of
      (Accounts.resolveFeishuAccount sdk_default object_members two_accounts
         (Some (js "isPrototypeOf")))
    = (None, None).
Proof. by vm_compute. Qed.

(** ** Removing members, and the outbound adapter *)

Section RemoveFacts.

Import Api Commands.

Variable net : Transport.

Lemma removal_note_matches (resp : Response) :
  match (match data resp with
         | Some d => invalid_id_list d
         | None => None
         end) with
  | Some ids =>
    if (0 <? length ids)%nat then
      js "（" ++ show_nat (length ids) ++ js " 个用户无效或不在群内）"
    else []
  | None => []
  end = removal_note resp.
Proof.
  unfold removal_note. destruct (data resp) as [d|]; [|done].
  destruct (invalid_id_list d) as [[|i ids]|]; reflexivity.
Qed.

(** X28.  The remove command.  With no mentioned user it answers with the
    usage hint and sends nothing.  Otherwise it sends one DELETE request
    for the listed users when a client is to be had, and none when not; it
    reports success exactly when that request was answered with code 0,
    and then its message carries the number of users listed, followed by a
    note that counts the identifiers the platform reports as invalid.  It
    never throws. *)
Theorem remove_member_report account chatId memberIds w :
  ∃ r w',
    executeRemoveMemberCommand net account chatId memberIds w = (Val r, w')
    ∧ sent w'
      = sent w
        ++ (if bool_decide (memberIds ≠ []) && client_available account w
            then [remove_request chatId memberIds] else [])
    ∧ (success r = true ↔
       memberIds ≠ []
       ∧ client_available account w = true
       ∧ answer_ok (net (length (sent w))
                      (remove_request chatId memberIds)) = true)
    ∧ (memberIds = [] → message r = remove_usage_message)
    ∧ (∀ resp,
         success r = true →
         net (length (sent w)) (remove_request chatId memberIds)
         = Resolved resp →
         message r
         = js "已移除 " ++ show_nat (length memberIds) ++ js " 个用户"
           ++ removal_note resp).
Proof.
  unfold executeRemoveMemberCommand, removeMembersFromGroup.
  destruct memberIds as [|m ms].
  { cbn [length Nat.eqb]. eexists _, w. split; [reflexivity|].
    cbn [success message]. rewrite app_nil_r.
    split; [done|]. split; [by split; [|intros [? _]]|].
    split; [intros _; unfold remove_usage_message; reflexivity|done]. }
  cbn [length Nat.eqb].
  rewrite (bool_decide_eq_true_2 (m :: ms ≠ [])) by done. cbn [andb].
  unfold try_catch, bind.
  fold (remove_request chatId (m :: ms)).
  destruct (client_available account w) eqn:Ha.
  - destruct (getFeishuClient_available _ _ Ha) as (w1 & E & Hs & Hc).
    rewrite E. unfold request. rewrite Hs.
    destruct (net _ _) as [resp|e] eqn:Hnet; cbn [ret mo_success answer_ok].
    + destruct (code_is_zero resp) eqn:Hz;
        cbn [negb mo_success mo_invalidIds mo_error].
      * unfold ret. cbv beta iota zeta. cbn [mo_success mo_invalidIds].
        rewrite removal_note_matches.
        eexists _, _. split; [reflexivity|]. cbn [sent success message].
        split; [done|]. split; [done|]. split; [intros [=]|].
        intros resp' _ [= <-]. reflexivity.
      * eexists _, _. split; [reflexivity|]. cbn [sent success message].
        split; [done|]. split; [by split; [|intros (_ & _ & ?)]|].
        split; [intros [=]|]. intros resp' Hf. discriminate.
    + eexists _, _. split; [reflexivity|]. cbn [sent success message].
      split; [done|]. split; [by split; [|intros (_ & _ & ?)]|].
      split; [intros [=]|]. intros resp' Hf. discriminate.
  - rewrite getFeishuClient_unavailable by done. cbn [mo_success].
    eexists _, w. split; [reflexivity|]. cbn [success message].
    rewrite app_nil_r. split; [done|].
    split; [by split; [|intros (_ & ? & _)]|].
    split; [intros [=]|]. intros resp' Hf. discriminate.
Qed.

End RemoveFacts.

Section OutboundFacts.

Import Api Outbound.

Variable net : Transport.
Variable DEFAULT_ACCOUNT_ID : list N.
Variable inherited : list N → bool.

(** X29.  The outbound adapter.  [sendText] resolves the account from the
    configuration and never throws; it sends the one message when a client
    for that account is to be had and nothing otherwise, and reports [ok]
    exactly when the message was answered with code 0.  A delivery that
    is [ok] carries no error.  [sendMedia] sends the text as [sendText]
    does, and a fixed placeholder when the text is empty. *)
Theorem outbound_send_reports to text accountId cfg w :
  let account :=
    Accounts.account
      (Accounts.resolveFeishuAccount DEFAULT_ACCOUNT_ID inherited cfg
         accountId) in
  (∃ d w',
     sendText net DEFAULT_ACCOUNT_ID inherited to text accountId cfg w
     = (Val d, w')
     ∧ sent w'
       = sent w
         ++ (if client_available account w
             then [send_request to text] else [])
     ∧ (ok d = true ↔
        client_available account w = true
        ∧ answer_ok (net (length (sent w)) (send_request to text)) = true)
     ∧ (ok d = true → error d = None))
  ∧ sendMedia net DEFAULT_ACCOUNT_ID inherited to text accountId cfg w
    = sendText net DEFAULT_ACCOUNT_ID inherited to
        (if JS.truthy text then text else js "[媒体消息暂不支持]")
        accountId cfg w.
Proof.
  cbv zeta. split; [|reflexivity].
  unfold sendText, bind.
  set (account := Accounts.account _).
  unfold sendFeishuMessage, try_catch, bind.
  fold (send_request to text).
  destruct (client_available account w) eqn:Ha.
  - destruct (getFeishuClient_available _ _ Ha) as (w1 & E & Hs & Hc).
    rewrite E. unfold request. rewrite Hs.
    destruct (net _ _) as [resp|e]; cbn [ret answer_ok].
    + destruct (code_is_zero resp); cbn [negb];
        (eexists _, _; split; [reflexivity|]; cbn [sent deliver ok error
           send_success send_error JS.truthy_opt];
         split; [done|]; split; [|done]).
      * done.
      * by split; [|intros [_ ?]].
    + eexists _, _; split; [reflexivity|].
      cbn [sent deliver ok error send_success send_error].
      split; [done|]. split; [|done]. by split; [|intros [_ ?]].
  - rewrite getFeishuClient_unavailable by done.
    eexists _, _; split; [reflexivity|].
    cbn [sent deliver ok error send_success send_error].
    rewrite app_nil_r. split; [done|]. split; [|done].
    by split; [|intros [? _]].
Qed.

End OutboundFacts.

(** ** The allow list, entry by entry *)

Section AllowListMore.

Import AllowList.

Variable toLowerCase : list N → list N.

(** X30.  How the allow list grows.  Joining two lists that both have
    entries admits exactly the senders that one of them admits, so adding
    entries to a list that has some never shuts a sender out.  The first
    entry does: the empty list admits every sender, a list of one entry
    only the senders that normalise to what the entry normalises to.  The
    check does not tell sender and entry apart. *)
Theorem allow_list_growth (senderId entry : list N) (l1 l2 : list (list N)) :
  l1 ≠ [] → l2 ≠ [] →
  isSenderAllowed toLowerCase senderId (Some (l1 ++ l2))
  = isSenderAllowed toLowerCase senderId (Some l1)
    || isSenderAllowed toLowerCase senderId (Some l2)
  ∧ isSenderAllowed toLowerCase senderId (Some []) = true
  ∧ isSenderAllowed toLowerCase senderId (Some [entry])
    = bool_decide (normalizeId toLowerCase entry
                   = normalizeId toLowerCase senderId)
  ∧ isSenderAllowed toLowerCase senderId (Some [entry])
    = isSenderAllowed toLowerCase entry (Some [senderId]).
Proof.
  intros H1 H2. split; [|split; [done|split]].
  - unfold isSenderAllowed.
    destruct l1 as [|a l1]; [done|]. destruct l2 as [|b l2]; [done|].
    cbn [app length Nat.eqb]. by rewrite <- existsb_app.
  - cbn. by rewrite orb_false_r.
  - cbn. rewrite !orb_false_r.
    destruct (decide (normalizeId toLowerCase entry
                      = normalizeId toLowerCase senderId)) as [He|He].
    + by rewrite !bool_decide_eq_true_2.
    + by rewrite !bool_decide_eq_false_2.
Qed.

End AllowListMore.

Lemma allow_list_growth_witness :
  AllowList.isSenderAllowed AllowList.ascii_toLowerCase (js "OU_ABC")
    (Some ([js "feishu:ou_xyz"] ++ [js "user:ou_abc"]))
  = AllowList.isSenderAllowed AllowList.ascii_toLowerCase (js "OU_ABC")
      (Some [js "feishu:ou_xyz"])
    || AllowList.isSenderAllowed AllowList.ascii_toLowerCase (js "OU_ABC")
         (Some [js "user:ou_abc"])
  ∧ AllowList.isSenderAllowed AllowList.ascii_toLowerCase (js "OU_ABC")
      (Some []) = true
  ∧ AllowList.isSenderAllowed AllowList.ascii_toLowerCase (js "OU_ABC")
      (Some [js "user:ou_abc"])
    = bool_decide
        (AllowList.normalizeId AllowList.ascii_toLowerCase (js "user:ou_abc")
         = AllowList.normalizeId AllowList.ascii_toLowerCase (js "OU_ABC"))
  ∧ AllowList.isSenderAllowed AllowList.ascii_toLowerCase (js "OU_ABC")
      (Some [js "user:ou_abc"])
    = AllowList.isSenderAllowed AllowList.ascii_toLowerCase
        (js "user:ou_abc") (Some [js "OU_ABC"]).
Proof.
  apply (allow_list_growth AllowList.ascii_toLowerCase (js "OU_ABC")
           (js "user:ou_abc") [js "feishu:ou_xyz"] [js "user:ou_abc"]).
  - discriminate.
  - discriminate.
Defined.

(** * The executor and the calls that fail *)

Section FailedCalls.

Import Api Commands.

Variable net : Transport.

Lemma last_outcome_snoc (w w' : World) (pre : list Request) (q : Request) :
  sent w' = sent w ++ pre ++ [q] →
  last_outcome net w w' = Some (net (length (sent w) + length pre)%nat q).
Proof.
  intros Hs. unfold last_outcome. rewrite Hs, drop_app_length, last_snoc.
  f_equal. f_equal. rewrite !length_app. simpl. lia.
Qed.

Lemma last_outcome_none (w : World) : last_outcome net w w = None.
Proof. unfold last_outcome. by rewrite drop_all. Qed.

(** The wrappers of the membership API turn a missing client and a failed
    request into [success: false]. *)
Lemma addMembersToGroup_fails account chatId memberIds w :
  client_available account w = false
  ∨ answer_ok (net (length (sent w)) (add_request chatId memberIds)) = false →
  ∃ err w',
    addMembersToGroup net account chatId memberIds w
    = (Val {| mo_success := false; mo_invalidIds := None; mo_error := err |},
       w').
Proof.
  intros Hfail. unfold addMembersToGroup.
  destruct (_ =? _)%nat; [by eexists _, _|].
  unfold try_catch, bind.
  destruct (client_available account w) eqn:Ha.
  - destruct Hfail as [|Hfail]; [done|].
    destruct (getFeishuClient_available _ _ Ha) as (w1 & E & Hs & Hc).
    rewrite E. unfold request. rewrite Hs.
    fold (add_request chatId memberIds).
    destruct (net _ _) as [r|e]; simpl in *.
    + rewrite Hfail. simpl. by eexists _, _.
    + by eexists _, _.
  - rewrite getFeishuClient_unavailable by done. by eexists _, _.
Qed.

Lemma removeMembersFromGroup_fails account chatId memberIds w :
  client_available account w = false
  ∨ answer_ok (net (length (sent w)) (remove_request chatId memberIds))
    = false →
  ∃ err w',
    removeMembersFromGroup net account chatId memberIds w
    = (Val {| mo_success := false; mo_invalidIds := None; mo_error := err |},
       w').
Proof.
  intros Hfail. unfold removeMembersFromGroup.
  destruct (_ =? _)%nat; [by eexists _, _|].
  unfold try_catch, bind.
  destruct (client_available account w) eqn:Ha.
  - destruct Hfail as [|Hfail]; [done|].
    destruct (getFeishuClient_available _ _ Ha) as (w1 & E & Hs & Hc).
    rewrite E. unfold request. rewrite Hs.
    fold (remove_request chatId memberIds).
    destruct (net _ _) as [r|e]; simpl in *.
    + rewrite Hfail. simpl. by eexists _, _.
    + by eexists _, _.
  - rewrite getFeishuClient_unavailable by done. by eexists _, _.
Qed.

Lemma Val_eq {A} (a b : A) (w w' : World) :
  (Val a, w) = (Val b, w') → a = b ∧ w = w'.
Proof. intros H. by injection H. Qed.

(** A command that was refused or failed does not report success. *)
Ltac refuted :=
  let E := fresh "E" in
  let Hr := fresh "Hr" in
  intros E Hr; apply Val_eq in E; destruct E as [<- _];
  cbn [success] in Hr; discriminate Hr.

(** A command that reports success ended on a request that was answered
    with code 0. *)
Lemma executeAddMemberCommand_confirmed account chatId memberIds w r w' :
  executeAddMemberCommand net account chatId memberIds w = (Val r, w') →
  success r = true →
  ∃ pre q, sent w' = sent w ++ pre ++ [q]
           ∧ answer_ok (net (length (sent w) + length pre)%nat q) = true.
Proof.
  unfold executeAddMemberCommand, addMembersToGroup.
  destruct memberIds as [|m ms]; cbn [length Nat.eqb]; [unfold ret; refuted|].
  unfold try_catch, bind.
  destruct (client_available account w) eqn:Ha.
  - destruct (getFeishuClient_available _ _ Ha) as (w1 & E & Hs & Hc).
    rewrite E. unfold request. rewrite Hs.
    destruct (net _ _) as [resp|e] eqn:Hnet; cbn [ret mo_success].
    + destruct (code_is_zero resp) eqn:Hz;
        cbn [negb mo_success mo_invalidIds mo_error]; unfold ret;
        cbv beta iota zeta; cbn [mo_success]; [|refuted].
      intros [= <- <-] _. eexists [], _. cbn [sent app length].
      split; [reflexivity|]. rewrite Nat.add_0_r, Hnet. exact Hz.
    + unfold ret. cbv beta iota zeta. cbn [mo_success]. refuted.
  - rewrite getFeishuClient_unavailable by done. unfold ret.
    cbv beta iota zeta. cbn [mo_success]. refuted.
Qed.

Lemma executeRemoveMemberCommand_confirmed account chatId memberIds w r w' :
  executeRemoveMemberCommand net account chatId memberIds w = (Val r, w') →
  success r = true →
  ∃ pre q, sent w' = sent w ++ pre ++ [q]
           ∧ answer_ok (net (length (sent w) + length pre)%nat q) = true.
Proof.
  unfold executeRemoveMemberCommand, removeMembersFromGroup.
  destruct memberIds as [|m ms]; cbn [length Nat.eqb]; [unfold ret; refuted|].
  unfold try_catch, bind.
  destruct (client_available account w) eqn:Ha.
  - destruct (getFeishuClient_available _ _ Ha) as (w1 & E & Hs & Hc).
    rewrite E. unfold request. rewrite Hs.
    destruct (net _ _) as [resp|e] eqn:Hnet; cbn [ret mo_success].
    + destruct (code_is_zero resp) eqn:Hz;
        cbn [negb mo_success mo_invalidIds mo_error]; unfold ret;
        cbv beta iota zeta; cbn [mo_success]; [|refuted].
      intros [= <- <-] _. eexists [], _. cbn [sent app length].
      split; [reflexivity|]. rewrite Nat.add_0_r, Hnet. exact Hz.
    + unfold ret. cbv beta iota zeta. cbn [mo_success]. refuted.
  - rewrite getFeishuClient_unavailable by done. unfold ret.
    cbv beta iota zeta. cbn [mo_success]. refuted.
Qed.

Lemma executeAnnouncementCommand_confirmed account chatId content w r w' :
  executeAnnouncementCommand net account chatId content w = (Val r, w') →
  success r = true →
  ∃ pre q, sent w' = sent w ++ pre ++ [q]
           ∧ answer_ok (net (length (sent w) + length pre)%nat q) = true.
Proof.
  unfold executeAnnouncementCommand.
  destruct (negb _); [unfold ret; refuted|].
  destruct (updateGroupAnnouncement_run net account chatId content w)
    as (u & w1 & extra & E & Hs & _ & Hok & _).
  unfold bind. rewrite E.
  destruct (up_success u) eqn:Hu; unfold ret; [|refuted].
  intros [= <- <-] _.
  destruct (Hok eq_refl) as (reads & q & resp & -> & _ & _ & Hnet & Hc).
  exists reads, q. split; [exact Hs|]. rewrite Hnet. by apply code_zero.
Qed.

(** The commands behind the permission gate. *)
Lemma gated_success_confirmed fuel account command context w r w' :
  type command ≠ list_members →
  executeCommand net fuel account command context w = (Val r, w') →
  success r = true →
  client_available account w = true
  ∧ ∃ o, last_outcome net w w' = Some o ∧ answer_ok o = true.
Proof.
  intros Hty. unfold executeCommand.
  assert (requiresAdminPermission (type command) = true) as ->
    by (by destruct (type command)).
  unfold bind.
  destruct (isUserGroupAdmin_run net account (chatId context)
              (senderId context) w)
    as (perm & w1 & extra & E & Hs & _ & _).
  rewrite E.
  destruct (isUserGroupAdmin_sound net _ _ _ _ _ _ E) as (_ & _ & Hav).
  destruct (JS.truthy_opt (ac_error perm)); [unfold ret; refuted|].
  destruct (negb (isAdmin perm) && negb (isOwner perm)) eqn:Hadm;
    [unfold ret; refuted|].
  intros Erun Hr. split.
  { apply Hav. by destruct (isAdmin perm), (isOwner perm). }
  assert (∃ pre q, sent w' = sent w1 ++ pre ++ [q]
                   ∧ answer_ok (net (length (sent w1) + length pre)%nat q)
                     = true) as (pre & q & Hs' & Hok).
  { unfold run_action in Erun. destruct (type command); [| | |done].
    - by eapply executeAnnouncementCommand_confirmed.
    - by eapply executeAddMemberCommand_confirmed.
    - by eapply executeRemoveMemberCommand_confirmed. }
  eexists. split; [|exact Hok].
  rewrite (last_outcome_snoc w w' (extra ++ pre) q)
    by (by rewrite Hs', Hs, <- !app_assoc).
  by rewrite Hs, !length_app, Nat.add_assoc.
Qed.

(** The member list: the paging loop and its last request. *)
Lemma members_pages_last fuel : ∀ chatId acc tok w res w',
  members_pages net fuel chatId acc tok w = (res, w') →
  match res with
  | Val r =>
    ∃ pre q, sent w' = sent w ++ pre ++ [q]
             ∧ mr_error r
               = if answer_ok (net (length (sent w) + length pre)%nat q)
                 then None
                 else reported_error
                        (net (length (sent w) + length pre)%nat q)
  | Exn e =>
    ∃ pre q, sent w' = sent w ++ pre ++ [q]
             ∧ net (length (sent w) + length pre)%nat q = Rejected e
  | Pending => True
  end.
Proof.
  induction fuel as [|fuel IH]; intros chatId acc tok w res w' E.
  - by injection E as <- <-.
  - cbn [members_pages] in E. unfold bind, request in E.
    fold (page_request chatId tok) in E.
    destruct (net (length (sent w)) (page_request chatId tok))
      as [resp|e] eqn:Hnet.
    + destruct (code_is_zero resp) eqn:Hz; cbn [negb] in E.
      * destruct (JS.truthy_opt (next_page_token resp)).
        -- apply IH in E. cbn [sent] in E.
           assert (∀ pre : list Request,
                     (length (sent w ++ [page_request chatId tok])
                      + length pre
                      = length (sent w)
                        + length (page_request chatId tok :: pre))%nat)
             as Hlen by (intros; rewrite length_app; simpl; lia).
           destruct res as [r|e|]; [| |done].
           ++ destruct E as (pre & q & Hs & He).
              exists (page_request chatId tok :: pre), q.
              split; [by rewrite Hs, <- !app_assoc|].
              by rewrite <- Hlen.
           ++ destruct E as (pre & q & Hs & He).
              exists (page_request chatId tok :: pre), q.
              split; [by rewrite Hs, <- !app_assoc|].
              by rewrite <- Hlen.
        -- injection E as <- <-. exists [], (page_request chatId tok).
           cbn [sent app length mr_error]. split; [done|].
           rewrite Nat.add_0_r, Hnet. cbn [answer_ok]. by rewrite Hz.
      * injection E as <- <-. exists [], (page_request chatId tok).
        cbn [sent app length mr_error]. split; [done|].
        rewrite Nat.add_0_r, Hnet. cbn [answer_ok reported_error].
        by rewrite Hz.
    + injection E as <- <-. exists [], (page_request chatId tok).
      cbn [sent app length]. split; [done|]. by rewrite Nat.add_0_r.
Qed.

Lemma list_members_success_confirmed fuel account command context w r w' :
  type command = list_members →
  executeCommand net fuel account command context w = (Val r, w') →
  success r = true →
  client_available account w = true
  ∧ ∃ o, last_outcome net w w' = Some o
         ∧ (answer_ok o = true ∨ JS.truthy_opt (reported_error o) = false).
Proof.
  intros Hty. unfold executeCommand, run_action. rewrite Hty.
  change (requiresAdminPermission list_members) with false. cbv iota.
  unfold executeListMembersCommand. unfold bind at 1.
  unfold getGroupMembers, try_catch. unfold bind at 1.
  destruct (client_available account w) eqn:Ha.
  - destruct (getFeishuClient_available _ _ Ha) as (w1 & E & Hs & _).
    rewrite E.
    destruct (members_pages net fuel (chatId context) [] None w1)
      as [res w2] eqn:Em.
    pose proof (members_pages_last _ _ _ _ _ _ _ Em) as Hlast.
    rewrite Hs in Hlast.
    destruct res as [m|e|]; [| |intros [=]].
    + destruct Hlast as (pre & q & Hs2 & Herr).
      destruct (JS.truthy_opt (mr_error m)) eqn:Ht;
        [unfold ret; refuted|].
      intros Erun _. split; [done|].
      assert (w' = w2) as ->.
      { revert Erun. unfold ret. destruct (_ =? _)%nat; intros [= _ <-];
        reflexivity. }
      eexists. split; [by apply (last_outcome_snoc w w2 pre q)|].
      rewrite Herr in Ht.
      destruct (answer_ok _); [by left | by right].
    + destruct Hlast as (pre & q & Hs2 & Hrej). unfold ret at 1.
      cbn [mr_error members].
      destruct (JS.truthy_opt (catch_text e)) eqn:Ht;
        [unfold ret; refuted|].
      intros Erun _. split; [done|].
      assert (w' = w2) as ->.
      { revert Erun. unfold ret. intros [= _ <-]. reflexivity. }
      eexists. split; [by apply (last_outcome_snoc w w2 pre q)|].
      rewrite Hrej. by right.
  - rewrite getFeishuClient_unavailable by done. unfold ret at 1.
    cbn [mr_error]. rewrite credentials_error_truthy. unfold ret.
    refuted.
Qed.

End FailedCalls.

(** C5, as amended.  [executeCommand] never throws, whatever the remote
    side answers: the run ends with a [CommandResult] or, when the member
    list never stops announcing further pages, does not end.  It returns
    a [CommandResult] for every announcement, add and remove command, and
    for a member listing once the pages come to an end.  A run that cannot
    get a client, and a run whose last request fails (rejected, or
    answered with a code other than 0), ends in [success: false]: for the
    announcement, add and remove commands always, for the member listing
    when the failure left an error text that is not empty.  The wrappers
    of the membership API hand a missing client and a failed request back
    as [success: false]. *)
Theorem executeCommand_never_throws :
  (∀ net fuel account command context,
     never_throws (Commands.executeCommand net fuel account command context))
  ∧ (∀ net fuel account command context,
       Commands.type command ≠ Commands.list_members →
       returns (Commands.executeCommand net fuel account command context))
  ∧ (∀ net n fuel account command context,
       paging_ends_by net n → (n < fuel)%nat →
       returns (Commands.executeCommand net fuel account command context))
  ∧ (∀ net fuel account command context w r w',
       Commands.type command ≠ Commands.list_members →
       Commands.executeCommand net fuel account command context w
       = (Api.Val r, w') →
       ends_in_failure net account w w' →
       Commands.success r = false)
  ∧ (∀ net fuel account command context w r w',
       Commands.type command = Commands.list_members →
       Commands.executeCommand net fuel account command context w
       = (Api.Val r, w') →
       ends_in_reported_failure net account w w' →
       Commands.success r = false)
  ∧ (∀ net account chatId memberIds w,
       client_available account w = false
       ∨ answer_ok (net (length (Api.sent w))
                      (add_request chatId memberIds)) = false →
       ∃ err w',
         Api.addMembersToGroup net account chatId memberIds w
         = (Api.Val {| Api.mo_success := false; Api.mo_invalidIds := None;
                       Api.mo_error := err |}, w'))
  ∧ (∀ net account chatId memberIds w,
       client_available account w = false
       ∨ answer_ok (net (length (Api.sent w))
                      (remove_request chatId memberIds)) = false →
       ∃ err w',
         Api.removeMembersFromGroup net account chatId memberIds w
         = (Api.Val {| Api.mo_success := false; Api.mo_invalidIds := None;
                       Api.mo_error := err |}, w')).
Proof.
  split; [exact executeCommand_no_exception|].
  split; [exact executeCommand_returns|].
  split; [exact executeCommand_returns_paged|].
  split.
  { intros net fuel account command context w r w' Hty E Hfail.
    destruct (Commands.success r) eqn:Hr; [|done].
    destruct (gated_success_confirmed net _ _ _ _ _ _ _ Hty E Hr)
      as (Ha & o & Ho & Hok).
    destruct Hfail as [Hna|(o' & Ho' & Hbad)]; [congruence|].
    rewrite Ho in Ho'. injection Ho' as <-. congruence. }
  split.
  { intros net fuel account command context w r w' Hty E Hfail.
    destruct (Commands.success r) eqn:Hr; [|done].
    destruct (list_members_success_confirmed net _ _ _ _ _ _ _ Hty E Hr)
      as (Ha & o & Ho & Hok).
    destruct Hfail as [Hna|(o' & Ho' & Hbad & Htext)]; [congruence|].
    rewrite Ho in Ho'. injection Ho' as <-.
    destruct Hok; congruence. }
  split.
  - intros. by apply addMembersToGroup_fails.
  - intros. by apply removeMembersFromGroup_fails.
Qed.

(** C5, as stated, fails.  For the member-list command and a remote side
    whose every page announces another one, no number of steps brings
    [executeCommand] to a [CommandResult].  A failed call is not always
    turned into [success: false] either: a member-list request that is
    turned down with an empty message text is reported as a success with
    no members; a group-info request turned down in that way is passed
    over, so that the command goes on and succeeds; and the rejected read
    of an announcement that has been upgraded sends the announcement
    command on to the upgraded one, where it succeeds. *)
Lemma executeCommand_contract_fails :
  (¬ ∃ fuel r w',
       Commands.executeCommand net_endless fuel acct
         (Commands.mkParsed Commands.list_members [] []) ctx w0
       = (Api.Val r, w'))
  ∧ (answer_ok (net_mute_failure 0%nat
                  (page_request (Commands.chatId ctx) None)) = false
     ∧ (Commands.executeCommand net_mute_failure 1 acct
          (Commands.mkParsed Commands.list_members [] []) ctx w0).1
       = Api.Val (Commands.mkResult true (js "群内暂无成员信息。")))
  ∧ (answer_ok (net_mute_then_admitted 0%nat
                  (info_request (Commands.chatId ctx))) = false
     ∧ (Commands.executeCommand net_mute_then_admitted 0 acct
          (Commands.mkParsed Commands.add_member [] [js "ou_user1"]) ctx
          w0).1
       = Api.Val (Commands.mkResult true (js "已拉入 1 个用户")))
  ∧ ((∀ q, answer_ok (net_docx 1%nat q) = false)
     ∧ (Commands.executeCommand net_docx 0 acct
          (Commands.mkParsed Commands.announcement (js "hello") []) ctx
          w0).1
       = Api.Val (Commands.mkResult true (js "群公告已更新。"))).
Proof.
  split; [exact list_members_endless_paging_never_returns|].
  split; [split; [reflexivity | by vm_compute]|].
  split; [split; [reflexivity | by vm_compute]|].
  split; [reflexivity | by vm_compute].
Qed.

Lemma executeCommand_never_throws_witness :
  returns (Commands.executeCommand net_breaks 1 acct
             (Commands.mkParsed Commands.add_member [] [js "ou_user1"]) ctx)
  ∧ returns (Commands.executeCommand net_denied 1 acct
               (Commands.mkParsed Commands.list_members [] []) ctx)
  ∧ (∀ r w',
       Commands.executeCommand net_breaks 1 acct
         (Commands.mkParsed Commands.add_member [] [js "ou_user1"]) ctx w0
       = (Api.Val r, w') →
       ends_in_failure net_breaks acct w0 w' →
       Commands.success r = false).
Proof.
  destruct executeCommand_never_throws as (_ & H2 & H3 & H4 & _).
  split; [|split].
  - apply H2. discriminate.
  - apply (H3 net_denied 0%nat 1%nat); [|lia].
    intros i r _. by destruct i.
  - intros r w'. apply H4. discriminate.
Defined.
